(** * Scrapy media pipeline: fetch de-duplication and fan-out

    A shallow embedding of [scrapy/pipelines/media.py] (class [MediaPipeline])
    and of the part of Twisted's [Deferred] / [DeferredList] machinery the
    pipeline drives.  Python objects that are shared and mutated
    ([SpiderInfo], [Deferred], [DeferredList]) live in stores indexed by
    natural numbers; a reference to such an object is its index. *)

From stdpp Require Import gmap strings list fin_maps.

Set Default Proof Using "Type".

(** ** Python values *)

(** [twisted.python.failure.Failure]: the exception value and the captured
    diagnostic payload. *)
Record Failure := mkFailure {
  value : string;
  frames : list string;
  stack : option (list string);
  tb : option string
}.

(** The values that flow through the callback chains: [None], an opaque
    object (a response, an item, a hook's substitute result) or a
    [Failure]. *)
Inductive PyVal :=
| VNone
| VObj (payload : string)
| VFailure (f : Failure).

(** [isinstance(result, Failure)] *)
Definition isFailure (v : PyVal) : bool :=
  match v with VFailure _ => true | _ => false end.

(** The outcome of calling user code: it returns a value or raises (the
    [Failure] is the one Twisted builds from the exception). *)
Inductive HookRet :=
| Returns (v : PyVal)
| Raises (f : Failure).

(** What a callback chain continues with after a call: an exception becomes
    a [Failure] result. *)
Definition as_result (h : HookRet) : PyVal :=
  match h with Returns v => v | Raises f => VFailure f end.

(** [Failure.cleanFailure()]: drops the traceback object. *)
Definition cleanFailure (f : Failure) : Failure :=
  {| value := value f; frames := frames f; stack := stack f; tb := None |}.

(** ** Requests *)

(** [SequenceExclude(range(lo, hi))] *)
Inductive HttpStatusList := SequenceExclude (lo hi : Z).

Record Request := mkRequest {
  url : string;
  method : string;
  body : string;
  callback : option string;
  errback : option string;
  meta_handle_httpstatus_list : option HttpStatusList;
  meta_handle_httpstatus_all : bool
}.

(** A callable attached to a waiter: a named user function, or the
    [lambda _: _] that stands in for a missing callback. *)
Inductive Callable :=
| UserFn (name : string)
| Identity.

(** ** Session state *)

(** [MediaPipeline.SpiderInfo]; a waiter is a reference to a [Deferred]. *)
Record SpiderInfo := mkSpiderInfo {
  spider : string;
  downloading : gset string;
  downloaded : gmap string PyVal;
  waiting : gmap string (list nat)
}.

(** [SpiderInfo.__init__] *)
Definition SpiderInfo_init (sp : string) : SpiderInfo :=
  {| spider := sp; downloading := ∅; downloaded := ∅; waiting := ∅ |}.

(** ** Deferreds *)

(** The callbacks the pipeline attaches to the deferreds it hands around. *)
Inductive Callback :=
| CbPair (cb : Callable) (eb : option Callable)
    (** [addCallbacks(cb, eb)] *)
| CbSlot (dl : nat) (index : nat)
    (** [DeferredList._cbDeferred] bound to slot [index] of list [dl] *)
| CbChain (d : nat).
    (** the continuation of deferred [d], paused on this one *)

Record Deferred := mkDeferred {
  called : bool;
  result : PyVal;
  callbacks : list Callback
}.

(** [DeferredList(..., consumeErrors=1)] with the callback
    [item_completed, item, info] once it has been added. *)
Record DeferredList := mkDeferredList {
  resultList : list (option (bool * PyVal));
  finishedCount : nat;
  dl_called : bool;
  dl_callback : option (string * nat)
}.

(** The rest of the chain built by [_process_request] for a new key,
    waiting for the download: [_cache_result_and_execute_waiters, fp, info],
    the logging errback, [lambda _: wad], and then whatever is added to the
    returned deferred [c_dfd]. *)
Record Continuation := mkContinuation {
  c_fp : string;
  c_info : nat;
  c_wad : nat;
  c_dfd : nat
}.

(** The deferred returned by [download_func] / [crawler.engine.download],
    with [media_downloaded] / [media_failed] attached. *)
Record Download := mkDownload {
  d_request : Request;
  d_info : nat;
  d_called : bool;
  d_chain : option Continuation
}.

(** ** Observable events *)

Inductive Event :=
| EvGetMediaRequests (item : string) (i : nat)
| EvMediaToDownload (request : Request) (i : nat)
| EvDownload (by_download_func : bool) (request : Request) (i : nat)
| EvMediaDownloaded (response : PyVal) (request : Request) (i : nat)
| EvMediaFailed (failure : PyVal) (request : Request) (i : nat)
| EvWaiting (i : nat) (fp : string) (wad : nat)
| EvCached (i : nat) (fp : string) (outcome : PyVal)
| EvNotify (i : nat) (fp : string) (wad : nat) (outcome : PyVal)
| EvCall (f : Callable) (arg : PyVal)
| EvItemCompleted (dl : nat) (results : list (option (bool * PyVal)))
    (item : string) (i : nat)
| EvLogError (msg : string).

(** ** The world: the pipeline object and every object reachable from it *)

Record World := mkWorld {
  spiderinfo : option nat;
  infos : list SpiderInfo;
  deferreds : list Deferred;
  dlists : list DeferredList;
  downloads : list Download;
  log : list Event
}.

Definition World_init : World :=
  {| spiderinfo := None; infos := []; deferreds := []; dlists := [];
     downloads := []; log := [] |}.

Definition set_spiderinfo (x : option nat) (σ : World) : World :=
  {| spiderinfo := x; infos := infos σ; deferreds := deferreds σ;
     dlists := dlists σ; downloads := downloads σ; log := log σ |}.

Definition set_infos (x : list SpiderInfo) (σ : World) : World :=
  {| spiderinfo := spiderinfo σ; infos := x; deferreds := deferreds σ;
     dlists := dlists σ; downloads := downloads σ; log := log σ |}.

Definition set_deferreds (x : list Deferred) (σ : World) : World :=
  {| spiderinfo := spiderinfo σ; infos := infos σ; deferreds := x;
     dlists := dlists σ; downloads := downloads σ; log := log σ |}.

Definition set_dlists (x : list DeferredList) (σ : World) : World :=
  {| spiderinfo := spiderinfo σ; infos := infos σ; deferreds := deferreds σ;
     dlists := x; downloads := downloads σ; log := log σ |}.

Definition set_downloads (x : list Download) (σ : World) : World :=
  {| spiderinfo := spiderinfo σ; infos := infos σ; deferreds := deferreds σ;
     dlists := dlists σ; downloads := x; log := log σ |}.

(** Append one event to the log. *)
Definition emit (e : Event) (σ : World) : World :=
  {| spiderinfo := spiderinfo σ; infos := infos σ; deferreds := deferreds σ;
     dlists := dlists σ; downloads := downloads σ; log := log σ ++ [e] |}.

(** ** The pipeline class: configuration, overridable interface, collaborators *)

(** What [get_media_requests] may return: [None], one request, or an
    iterable of requests. *)
Inductive MediaRequests :=
| MRNone
| MROne (r : Request)
| MRMany (rs : list Request).

Inductive GetRet :=
| GReturns (x : MediaRequests)
| GRaises (f : Failure).

(** A [MediaPipeline] (sub)class instance.  [fingerprint_hash] (the digest
    behind [request_fingerprint]) and [call_user] (calling a named user
    function) are the external collaborators; [download_func] and [handle_httpstatus_list] are the
    attributes set by [__init__]; the rest is the overridable interface.
    [item_completed] also yields the error messages it logs (the base
    class logs under [LOG_FAILED_RESULTS]). *)
Class MediaPipeline := {
  fingerprint_hash : string → string → string → string;
  call_user : string → PyVal → HookRet;
  download_func : option string;
  handle_httpstatus_list : option HttpStatusList;
  media_to_download : Request → SpiderInfo → HookRet;
  get_media_requests : string → SpiderInfo → GetRet;
  media_downloaded : PyVal → Request → SpiderInfo → HookRet;
  media_failed : PyVal → Request → SpiderInfo → HookRet;
  item_completed :
    list (option (bool * PyVal)) → string → SpiderInfo → list string * HookRet
}.

(** [MediaPipeline._handle_statuses] *)
Definition _handle_statuses (allow_redirects : bool) : option HttpStatusList :=
  if allow_redirects then Some (SequenceExclude 300 400) else None.

(** The method bodies of the base class. *)
Module Base.

(** [def media_to_download(self, request, info): pass] *)
Definition media_to_download (request : Request) (info : SpiderInfo) : HookRet :=
  Returns VNone.

(** [def get_media_requests(self, item, info): pass] *)
Definition get_media_requests (item : string) (info : SpiderInfo) : GetRet :=
  GReturns MRNone.

(** [def media_downloaded(self, response, request, info): return response] *)
Definition media_downloaded (response : PyVal) (request : Request)
    (info : SpiderInfo) : HookRet :=
  Returns response.

(** [def media_failed(self, failure, request, info): return failure] *)
Definition media_failed (failure : PyVal) (request : Request)
    (info : SpiderInfo) : HookRet :=
  Returns failure.

(** The loop of [item_completed]: one [logger.error] per failed entry;
    unpacking an entry that is still [None] raises. *)
Fixpoint log_failed (class_name item : string)
    (results : list (option (bool * PyVal))) : list string * option Failure :=
  match results with
  | [] => ([], None)
  | None :: _ => ([], Some (mkFailure "TypeError" [] None None))
  | Some (ok, _) :: rest =>
      let '(msgs, e) := log_failed class_name item rest in
      if ok then (msgs, e)
      else ((class_name +:+ " found errors processing " +:+ item) :: msgs, e)
  end.

(** [def item_completed(self, results, item, info)] *)
Definition item_completed (log_failed_results : bool) (class_name : string)
    (results : list (option (bool * PyVal))) (item : string)
    (info : SpiderInfo) : list string * HookRet :=
  if log_failed_results then
    match log_failed class_name item results with
    | (msgs, Some e) => (msgs, Raises e)
    | (msgs, None) => (msgs, Returns (VObj item))
    end
  else ([], Returns (VObj item)).

End Base.

(** The base class itself, for given collaborators and settings. *)
Definition MediaPipeline_base (fingerprint : string → string → string → string)
    (user : string → PyVal → HookRet) (dl_func : option string)
    (allow_redirects : bool) : MediaPipeline :=
  {| fingerprint_hash := fingerprint;
     call_user := user;
     download_func := dl_func;
     handle_httpstatus_list := _handle_statuses allow_redirects;
     media_to_download := Base.media_to_download;
     get_media_requests := Base.get_media_requests;
     media_downloaded := Base.media_downloaded;
     media_failed := Base.media_failed;
     item_completed := Base.item_completed true "MediaPipeline" |}.

(** [scrapy.utils.misc.arg_to_iter] on what [get_media_requests] returned. *)
Definition arg_to_iter (x : MediaRequests) : list Request :=
  match x with
  | MRNone => []
  | MROne r => [r]
  | MRMany rs => rs
  end.

Section Pipeline.
Context `{!MediaPipeline}.

(** ** Twisted: running callbacks *)

Definition call_callable (f : Callable) (arg : PyVal) : HookRet :=
  match f with
  | Identity => Returns arg
  | UserFn name => call_user name arg
  end.

(** One [addCallbacks(cb, eb)] entry of [Deferred._runCallbacks]: a failure
    goes to the errback (passed through when there is none), anything else
    to the callback. *)
Definition run_pair (cb : Callable) (eb : option Callable) (r : PyVal)
    (σ : World) : PyVal * World :=
  if isFailure r then
    match eb with
    | None => (r, σ)
    | Some f => (as_result (call_callable f r), emit (EvCall f r) σ)
    end
  else (as_result (call_callable cb r), emit (EvCall cb r) σ).

Definition emit_errors (msgs : list string) (σ : World) : World :=
  foldl (λ σ m, emit (EvLogError m) σ) σ msgs.

(** The callback [item_completed, item, info] of a [DeferredList], run with
    the result list. *)
Definition run_item_completed (j : nat)
    (results : list (option (bool * PyVal))) (cbk : string * nat)
    (σ : World) : World :=
  match infos σ !! cbk.2 with
  | None => σ
  | Some info =>
      emit_errors (item_completed results cbk.1 info).1
        (emit (EvItemCompleted j results cbk.1 cbk.2) σ)
  end.

Definition set_dl_called (dl : DeferredList) : DeferredList :=
  {| resultList := resultList dl; finishedCount := finishedCount dl;
     dl_called := true; dl_callback := dl_callback dl |}.

(** [DeferredList.callback(self.resultList)] *)
Definition DeferredList_callback (j : nat) (σ : World) : World :=
  match dlists σ !! j with
  | None => σ
  | Some dl =>
      if dl_called dl then σ
      else
        let σ := set_dlists (<[j := set_dl_called dl]> (dlists σ)) σ in
        match dl_callback dl with
        | None => σ
        | Some cbk => run_item_completed j (resultList dl) cbk σ
        end
  end.

(** [DeferredList._cbDeferred(result, index, succeeded)] with
    [consumeErrors] set. *)
Definition _cbDeferred (j index : nat) (r : PyVal) (succeeded : bool)
    (σ : World) : PyVal * World :=
  match dlists σ !! j with
  | None => (r, σ)
  | Some dl =>
      let dl' :=
        {| resultList := <[index := Some (succeeded, r)]> (resultList dl);
           finishedCount := S (finishedCount dl);
           dl_called := dl_called dl; dl_callback := dl_callback dl |} in
      let σ := set_dlists (<[j := dl']> (dlists σ)) σ in
      let σ :=
        if dl_called dl' then σ
        else if finishedCount dl' =? length (resultList dl')
             then DeferredList_callback j σ else σ in
      (if succeeded then r else VNone, σ)
  end.

(** One entry of a callback list; [chain] says how the continuation of a
    paused deferred is resumed. *)
Definition run_callback (chain : nat → PyVal → World → World) (c : Callback)
    (r : PyVal) (σ : World) : PyVal * World :=
  match c with
  | CbPair cb eb => run_pair cb eb r σ
  | CbSlot j index => _cbDeferred j index r (negb (isFailure r)) σ
  | CbChain d => (VNone, chain d r σ)
  end.

Fixpoint run_callbacks (chain : nat → PyVal → World → World)
    (cbs : list Callback) (r : PyVal) (σ : World) : PyVal * World :=
  match cbs with
  | [] => (r, σ)
  | c :: cbs =>
      let '(r, σ) := run_callback chain c r σ in
      run_callbacks chain cbs r σ
  end.

Definition set_result (d : nat) (r : PyVal) (σ : World) : World :=
  match deferreds σ !! d with
  | None => σ
  | Some df =>
      set_deferreds
        (<[d := {| called := called df; result := r;
                   callbacks := callbacks df |}]> (deferreds σ)) σ
  end.

(** [Deferred._runCallbacks] on deferred [d], which now holds [r]. *)
Definition run_deferred (chain : nat → PyVal → World → World) (d : nat)
    (r : PyVal) (σ : World) : World :=
  match deferreds σ !! d with
  | None => σ
  | Some df =>
      let σ :=
        set_deferreds
          (<[d := {| called := true; result := r; callbacks := [] |}]>
             (deferreds σ)) σ in
      let '(r', σ) := run_callbacks chain (callbacks df) r σ in
      set_result d r' σ
  end.

(** A paused deferred that continues another one is never itself continued
    by a third. *)
Definition no_chain (d : nat) (r : PyVal) (σ : World) : World := σ.

(** [Deferred.callback(r)] / [Deferred.errback(r)]: firing a deferred that
    was already called raises [AlreadyCalledError] and changes nothing. *)
Definition Deferred_callback (d : nat) (r : PyVal) (σ : World) : World :=
  match deferreds σ !! d with
  | None => σ
  | Some df =>
      if called df then σ
      else run_deferred (run_deferred no_chain) d r σ
  end.

(** [Deferred.addCallbacks]: queued on a pending deferred, run at once on
    one that already has its result. *)
Definition addCallbacks (d : nat) (c : Callback) (σ : World) : World :=
  match deferreds σ !! d with
  | None => σ
  | Some df =>
      if called df then
        let '(r', σ) := run_callback (run_deferred no_chain) c (result df) σ in
        set_result d r' σ
      else
        set_deferreds
          (<[d := {| called := false; result := result df;
                     callbacks := callbacks df ++ [c] |}]> (deferreds σ)) σ
  end.

(** [Deferred()] *)
Definition Deferred_new (σ : World) : nat * World :=
  (length (deferreds σ),
   set_deferreds (deferreds σ ++ [mkDeferred false VNone []]) σ).

(** ** [scrapy.utils.request] and [scrapy.utils.defer] *)

(** Modelled from the spec: [scrapy.utils.request.request_fingerprint]
    (that module is not part of the sources at hand), a digest of the
    defining fields of the request: method, URL and body. *)
Definition request_fingerprint (request : Request) : string :=
  fingerprint_hash (method request) (url request) (body request).

(** Modelled from the spec: [scrapy.utils.defer.defer_result] (that module
    is not part of the sources at hand).  The spec has every bookkeeping
    transition synchronous and a cached outcome delivered immediately, so
    the deferred it returns already holds [r]. *)
Definition defer_result (r : PyVal) (σ : World) : nat * World :=
  (length (deferreds σ),
   set_deferreds (deferreds σ ++ [mkDeferred true r []]) σ).

(** Modelled from the spec: [scrapy.utils.defer.mustbe_deferred], applied
    to the outcome [h] of calling the function: an exception becomes a
    failed deferred, a value goes through [defer_result]. *)
Definition mustbe_deferred (h : HookRet) (σ : World) : nat * World :=
  defer_result (as_result h) σ.

(** ** [MediaPipeline] methods *)

(** [def open_spider(self, spider)] *)
Definition open_spider (sp : string) (σ : World) : World :=
  set_spiderinfo (Some (length (infos σ)))
    (set_infos (infos σ ++ [SpiderInfo_init sp]) σ).

(** [def _modify_media_request(self, request)] *)
Definition _modify_media_request (request : Request) : Request :=
  match handle_httpstatus_list with
  | Some l =>
      {| url := url request; method := method request; body := body request;
         callback := callback request; errback := errback request;
         meta_handle_httpstatus_list := Some l;
         meta_handle_httpstatus_all := meta_handle_httpstatus_all request |}
  | None =>
      {| url := url request; method := method request; body := body request;
         callback := callback request; errback := errback request;
         meta_handle_httpstatus_list := meta_handle_httpstatus_list request;
         meta_handle_httpstatus_all := true |}
  end.

(** What [_check_media_to_download] returns: the hook's result, or the
    deferred of the download it started. *)
Inductive CheckRet :=
| CkResult (v : PyVal)
| CkDeferred (k : nat).

(** The download collaborator ([download_func] or
    [crawler.engine.download]) is called and returns a deferred that has not
    fired; [media_downloaded] / [media_failed] are attached to it. *)
Definition start_download (by_download_func : bool) (request : Request)
    (i : nat) (σ : World) : nat * World :=
  let σ := emit (EvDownload by_download_func request i) σ in
  (length (downloads σ),
   set_downloads (downloads σ ++ [mkDownload request i false None]) σ).

(** [def _check_media_to_download(self, result, request, info)]; also
    yields the request, which the second branch modifies. *)
Definition _check_media_to_download (res : PyVal) (request : Request)
    (i : nat) (σ : World) : CheckRet * Request * World :=
  match res with
  | VNone =>
      match download_func with
      | Some _ =>
          let '(k, σ) := start_download true request i σ in
          (CkDeferred k, request, σ)
      | None =>
          let request := _modify_media_request request in
          let '(k, σ) := start_download false request i σ in
          (CkDeferred k, request, σ)
      end
  | _ => (CkResult res, request, σ)
  end.

(** The assignments [result.frames = []] and [result.stack = None]. *)
Definition strip_frames (f : Failure) : Failure :=
  {| value := value f; frames := []; stack := None; tb := tb f |}.

(** [defer_result(result).chainDeferred(wad)]: the intermediate deferred
    already holds [result], so chaining fires [wad] at once. *)
Definition chain_result_to (i : nat) (fp : string) (res : PyVal)
    (σ : World) (wad : nat) : World :=
  Deferred_callback wad res (emit (EvNotify i fp wad res) σ).

Definition KeyError : Failure := mkFailure "KeyError" [] None None.

(** [def _cache_result_and_execute_waiters(self, result, fp, info)]; yields
    the exception when [set.remove] or [dict.pop] raises [KeyError]. *)
Definition _cache_result_and_execute_waiters (res : PyVal) (fp : string)
    (i : nat) (σ : World) : option Failure * World :=
  match infos σ !! i with
  | None => (None, σ)
  | Some info =>
      let res :=
        match res with
        | VFailure f => VFailure (strip_frames (cleanFailure f))
        | _ => res
        end in
      if decide (fp ∈ downloading info) then
        let info :=
          {| spider := spider info;
             downloading := downloading info ∖ {[fp]};
             downloaded := <[fp := res]> (downloaded info);
             waiting := waiting info |} in
        match waiting info !! fp with
        | None => (Some KeyError, set_infos (<[i := info]> (infos σ)) σ)
        | Some wads =>
            let info :=
              {| spider := spider info; downloading := downloading info;
                 downloaded := downloaded info;
                 waiting := delete fp (waiting info) |} in
            let σ := set_infos (<[i := info]> (infos σ)) σ in
            (None, foldl (chain_result_to i fp res) σ wads)
        end
      else (Some KeyError, σ)
  end.

(** The callbacks that follow [_check_media_to_download] on the chain of
    [_process_request], run with [res]:
    [addBoth(_cache_result_and_execute_waiters, fp, info)], the logging
    errback, [addBoth(lambda _: wad)], and then the callbacks of the
    returned deferred.  A [wad] that has its result hands it over; one that
    has not is chained to. *)
Definition resume_chain (res : PyVal) (c : Continuation) (σ : World) : World :=
  let '(exn, σ) :=
    _cache_result_and_execute_waiters res (c_fp c) (c_info c) σ in
  let σ :=
    match exn with
    | Some e => emit (EvLogError (value e)) σ
    | None => σ
    end in
  match deferreds σ !! c_wad c with
  | None => σ
  | Some w =>
      if called w then
        Deferred_callback (c_dfd c) (result w) (set_result (c_wad c) VNone σ)
      else
        set_deferreds
          (<[c_wad c := {| called := false; result := result w;
                           callbacks := callbacks w ++ [CbChain (c_dfd c)] |}]>
             (deferreds σ)) σ
  end.

(** [info.waiting[fp].append(wad)] on the [defaultdict(list)] *)
Definition waiting_append (fp : string) (wad : nat) (info : SpiderInfo)
    : SpiderInfo :=
  {| spider := spider info; downloading := downloading info;
     downloaded := downloaded info;
     waiting := <[fp := default [] (waiting info !! fp) ++ [wad]]>
                  (waiting info) |}.

(** [info.downloading.add(fp)] *)
Definition downloading_add (fp : string) (info : SpiderInfo) : SpiderInfo :=
  {| spider := spider info; downloading := {[fp]} ∪ downloading info;
     downloaded := downloaded info; waiting := waiting info |}.

(** The chain pauses on the deferred [k] that a callback returned. *)
Definition pause_on (k : nat) (c : Continuation) (σ : World) : World :=
  match downloads σ !! k with
  | None => σ
  | Some dl =>
      set_downloads
        (<[k := {| d_request := d_request dl; d_info := d_info dl;
                   d_called := d_called dl; d_chain := Some c |}]>
           (downloads σ)) σ
  end.

(** [def _process_request(self, request, info)]: yields the request as the
    call leaves it and the deferred it returns.  ([i] always refers to a
    [SpiderInfo]; the first branch only makes the function total.) *)
Definition _process_request (request : Request) (i : nat) (σ : World)
    : Request * nat * World :=
  let fp := request_fingerprint request in
  let cb := match callback request with
            | Some f => UserFn f
            | None => Identity
            end in
  let eb := UserFn <$> errback request in
  let request :=
    {| url := url request; method := method request; body := body request;
       callback := None; errback := None;
       meta_handle_httpstatus_list := meta_handle_httpstatus_list request;
       meta_handle_httpstatus_all := meta_handle_httpstatus_all request |} in
  match infos σ !! i with
  | None => let '(d, σ) := Deferred_new σ in (request, d, σ)
  | Some info =>
      match downloaded info !! fp with
      | Some cached =>
          (* Return cached result if request was already seen *)
          let '(d, σ) := defer_result cached (emit (EvCached i fp cached) σ) in
          (request, d, addCallbacks d (CbPair cb eb) σ)
      | None =>
          (* Otherwise, wait for result *)
          let '(wad, σ) := Deferred_new σ in
          let σ := addCallbacks wad (CbPair cb eb) σ in
          let info := waiting_append fp wad info in
          let σ := emit (EvWaiting i fp wad)
                     (set_infos (<[i := info]> (infos σ)) σ) in
          (* Check if request is downloading right now *)
          if decide (fp ∈ downloading info) then (request, wad, σ)
          else
            (* Download request checking media_to_download hook output first *)
            let info := downloading_add fp info in
            let σ := set_infos (<[i := info]> (infos σ)) σ in
            let h := media_to_download request info in
            let σ := emit (EvMediaToDownload request i) σ in
            let '(dfd, σ) := Deferred_new σ in
            let c := {| c_fp := fp; c_info := i; c_wad := wad; c_dfd := dfd |} in
            if isFailure (as_result h) then
              (request, dfd, resume_chain (as_result h) c σ)
            else
              match _check_media_to_download (as_result h) request i σ with
              | (CkResult v, request, σ) =>
                  (request, dfd, resume_chain v c σ)
              | (CkDeferred k, request, σ) =>
                  (request, dfd, pause_on k c σ)
              end
      end
  end.

(** The list comprehension of [process_item]. *)
Fixpoint process_requests (requests : list Request) (i : nat) (σ : World)
    : list nat * World :=
  match requests with
  | [] => ([], σ)
  | r :: rest =>
      let '(_, d, σ) := _process_request r i σ in
      let '(ds, σ) := process_requests rest i σ in
      (d :: ds, σ)
  end.

(** The loop of [DeferredList.__init__] that hooks [_cbDeferred] onto every
    deferred of the list. *)
Fixpoint add_slots (j index : nat) (dlist : list nat) (σ : World) : World :=
  match dlist with
  | [] => σ
  | d :: rest => add_slots j (S index) rest (addCallbacks d (CbSlot j index) σ)
  end.

(** [DeferredList(dlist, consumeErrors=1)] *)
Definition DeferredList_new (dlist : list nat) (σ : World) : nat * World :=
  let j := length (dlists σ) in
  let dl :=
    {| resultList := replicate (length dlist) None; finishedCount := 0;
       dl_called := false; dl_callback := None |} in
  let σ := set_dlists (dlists σ ++ [dl]) σ in
  let σ := if length dlist =? 0 then DeferredList_callback j σ else σ in
  (j, add_slots j 0 dlist σ).

(** [dfd.addCallback(self.item_completed, item, info)] on a
    [DeferredList]. *)
Definition add_item_completed (j : nat) (item : string) (i : nat)
    (σ : World) : World :=
  match dlists σ !! j with
  | None => σ
  | Some dl =>
      if dl_called dl then run_item_completed j (resultList dl) (item, i) σ
      else
        set_dlists
          (<[j := {| resultList := resultList dl;
                     finishedCount := finishedCount dl;
                     dl_called := false;
                     dl_callback := Some (item, i) |}]> (dlists σ)) σ
  end.

Definition AttributeError : Failure := mkFailure "AttributeError" [] None None.

(** What a call of [process_item] does: raise, or return a deferred. *)
Inductive ProcessRet :=
| PRaised (f : Failure)
| PDeferred (j : nat).

(** [def process_item(self, item, spider)] *)
Definition process_item (item : string) (σ : World) : ProcessRet * World :=
  match spiderinfo σ with
  | None => (PRaised AttributeError, σ)
  | Some i =>
      match infos σ !! i with
      | None => (PRaised AttributeError, σ)
      | Some info =>
          let σ := emit (EvGetMediaRequests item i) σ in
          match get_media_requests item info with
          | GRaises f => (PRaised f, σ)
          | GReturns x =>
              let requests := arg_to_iter x in
              let '(dlist, σ) := process_requests requests i σ in
              let '(dfd, σ) := DeferredList_new dlist σ in
              (PDeferred dfd, add_item_completed dfd item i σ)
          end
      end
  end.

(** ** The environment *)

(** The deferred of download [k] fires with [raw], a response or a
    [Failure]: [media_downloaded] or [media_failed] runs, and the chain that
    paused on the download goes on with what it returns. *)
Definition download_done (k : nat) (raw : PyVal) (σ : World) : World :=
  match downloads σ !! k with
  | None => σ
  | Some dl =>
      if d_called dl then σ
      else
        let σ :=
          set_downloads
            (<[k := {| d_request := d_request dl; d_info := d_info dl;
                       d_called := true; d_chain := d_chain dl |}]>
               (downloads σ)) σ in
        match infos σ !! d_info dl with
        | None => σ
        | Some info =>
            let '(h, σ) :=
              if isFailure raw
              then (media_failed raw (d_request dl) info,
                    emit (EvMediaFailed raw (d_request dl) (d_info dl)) σ)
              else (media_downloaded raw (d_request dl) info,
                    emit (EvMediaDownloaded raw (d_request dl) (d_info dl)) σ)
            in
            match d_chain dl with
            | None => σ
            | Some c => resume_chain (as_result h) c σ
            end
        end
  end.

(** What happens to a pipeline: a spider is opened, an item arrives, or a
    download completes. *)
Inductive Input :=
| InOpenSpider (sp : string)
| InProcessItem (item : string)
| InDownloadDone (k : nat) (raw : PyVal).

Definition step (σ : World) (inp : Input) : World :=
  match inp with
  | InOpenSpider sp => open_spider sp σ
  | InProcessItem item => (process_item item σ).2
  | InDownloadDone k raw => download_done k raw σ
  end.

(** The world after a history of inputs, from a new pipeline object. *)
Definition run (inputs : list Input) : World := foldl step World_init inputs.

End Pipeline.

(** * Properties *)

Section Properties.
Context `{!MediaPipeline}.

(** ** What running callbacks can and cannot touch *)

(** The events that Twisted's callback machinery produces on its own. *)
Definition quiet (e : Event) : bool :=
  match e with
  | EvCall _ _ | EvItemCompleted _ _ _ _ | EvLogError _ => true
  | _ => false
  end.

(** Deferred [d] has its result. *)
Definition is_called (σ : World) (d : nat) : Prop :=
  ∃ df, deferreds σ !! d = Some df ∧ called df = true.

(** [σ'] comes from [σ] without touching the session state or the
    downloads: the stores kept their sizes, no deferred lost its result and
    the log grew by events that satisfy [P]. *)
Definition evolves (P : Event → bool) (σ σ' : World) : Prop :=
  spiderinfo σ' = spiderinfo σ ∧ infos σ' = infos σ ∧
  downloads σ' = downloads σ ∧
  length (deferreds σ') = length (deferreds σ) ∧
  length (dlists σ') = length (dlists σ) ∧
  (∀ d, is_called σ d → is_called σ' d) ∧
  ∃ l, log σ' = log σ ++ l ∧ Forall (λ e, P e = true) l.

Lemma evolves_refl P σ : evolves P σ σ.
Proof.
  repeat split; try done. exists []. by rewrite app_nil_r.
Qed.

Lemma evolves_trans P σ1 σ2 σ3 :
  evolves P σ1 σ2 → evolves P σ2 σ3 → evolves P σ1 σ3.
Proof.
  intros (A1 & A2 & A3 & A4 & A5 & Ac & l1 & A6 & A7)
         (B1 & B2 & B3 & B4 & B5 & Bc & l2 & B6 & B7).
  repeat split; try congruence; [by auto|].
  exists (l1 ++ l2). split.
  - by rewrite B6, A6, app_assoc.
  - by apply Forall_app.
Qed.

Lemma evolves_mono (P Q : Event → bool) σ σ' :
  (∀ e, P e = true → Q e = true) → evolves P σ σ' → evolves Q σ σ'.
Proof.
  intros HPQ (A1 & A2 & A3 & A4 & A5 & Ac & l1 & A6 & A7).
  repeat split; try done. exists l1. split; [done|].
  eapply Forall_impl; [exact A7|]. eauto.
Qed.

(** Running callbacks only: the log grows by quiet events. *)
Definition fires : World → World → Prop := evolves quiet.

Lemma fires_refl σ : fires σ σ.
Proof. apply evolves_refl. Qed.

Lemma fires_trans σ1 σ2 σ3 : fires σ1 σ2 → fires σ2 σ3 → fires σ1 σ3.
Proof. apply evolves_trans. Qed.

Lemma fires_emit e σ : quiet e = true → fires σ (emit e σ).
Proof.
  intros He. repeat split; try done. exists [e]. split; [done|].
  by constructor.
Qed.

Lemma fires_insert_deferred d df df' σ :
  deferreds σ !! d = Some df → (called df = true → called df' = true) →
  fires σ (set_deferreds (<[d := df']> (deferreds σ)) σ).
Proof.
  intros Hd Hc. repeat split; try done.
  - simpl. apply length_insert.
  - intros d0 (df0 & Hd0 & Hc0). unfold is_called. simpl.
    destruct (decide (d = d0)) as [->|Hne].
    + exists df'. split; [|naive_solver].
      apply list_lookup_insert_eq. by eapply lookup_lt_Some.
    + exists df0. by rewrite list_lookup_insert_ne.
  - exists []. by rewrite app_nil_r.
Qed.

Lemma fires_set_dlists ds σ :
  length ds = length (dlists σ) → fires σ (set_dlists ds σ).
Proof.
  intros Hl. repeat split; try done. exists []. by rewrite app_nil_r.
Qed.

Lemma fires_run_pair cb eb r σ : fires σ (run_pair cb eb r σ).2.
Proof.
  unfold run_pair. destruct (isFailure r); [destruct eb|]; simpl;
    auto using fires_refl, fires_emit.
Qed.

Lemma fires_emit_errors msgs σ : fires σ (emit_errors msgs σ).
Proof.
  unfold emit_errors. revert σ.
  induction msgs as [|m msgs IH]; intros σ; simpl; [apply fires_refl|].
  eapply fires_trans; [|apply IH]. by apply fires_emit.
Qed.

Lemma fires_run_item_completed j results cbk σ :
  fires σ (run_item_completed j results cbk σ).
Proof.
  unfold run_item_completed. destruct (infos σ !! cbk.2); [|apply fires_refl].
  eapply fires_trans; [|apply fires_emit_errors]. by apply fires_emit.
Qed.

Lemma fires_DeferredList_callback j σ : fires σ (DeferredList_callback j σ).
Proof.
  unfold DeferredList_callback.
  destruct (dlists σ !! j) as [dl|]; [|apply fires_refl].
  destruct (dl_called dl); [apply fires_refl|].
  eapply fires_trans; [apply fires_set_dlists, length_insert|].
  destruct (dl_callback dl); [apply fires_run_item_completed|apply fires_refl].
Qed.

Lemma fires__cbDeferred j index r ok σ : fires σ (_cbDeferred j index r ok σ).2.
Proof.
  unfold _cbDeferred.
  destruct (dlists σ !! j) as [dl|]; [|apply fires_refl]. simpl.
  repeat case_match;
    try (eapply fires_trans; [|apply fires_DeferredList_callback]);
    apply fires_set_dlists, length_insert.
Qed.

Lemma fires_run_callback chain c r σ :
  (∀ d r σ, fires σ (chain d r σ)) → fires σ (run_callback chain c r σ).2.
Proof.
  intros Hc. destruct c; simpl;
    auto using fires_run_pair, fires__cbDeferred.
Qed.

Lemma fires_run_callbacks chain cbs r σ :
  (∀ d r σ, fires σ (chain d r σ)) → fires σ (run_callbacks chain cbs r σ).2.
Proof.
  intros Hc. revert r σ.
  induction cbs as [|c cbs IH]; intros r σ; simpl; [apply fires_refl|].
  destruct (run_callback chain c r σ) as [r1 σ1] eqn:E.
  eapply fires_trans; [|apply IH].
  change σ1 with (r1, σ1).2. rewrite <- E. by apply fires_run_callback.
Qed.

Lemma fires_set_result d r σ : fires σ (set_result d r σ).
Proof.
  unfold set_result. destruct (deferreds σ !! d) eqn:Hd; [|apply fires_refl].
  by eapply fires_insert_deferred.
Qed.

Lemma fires_run_deferred chain d r σ :
  (∀ d r σ, fires σ (chain d r σ)) → fires σ (run_deferred chain d r σ).
Proof.
  intros Hc. unfold run_deferred.
  destruct (deferreds σ !! d) as [df|] eqn:Hd; [|apply fires_refl].
  destruct (run_callbacks _ _ _ _) as [r1 σ1] eqn:E.
  eapply fires_trans;
    [by eapply (fires_insert_deferred d df (mkDeferred true r []))|].
  eapply fires_trans; [|apply fires_set_result].
  change σ1 with (r1, σ1).2. rewrite <- E. by apply fires_run_callbacks.
Qed.

Lemma fires_no_chain d r σ : fires σ (no_chain d r σ).
Proof. apply fires_refl. Qed.

Lemma fires_Deferred_callback d r σ : fires σ (Deferred_callback d r σ).
Proof.
  unfold Deferred_callback.
  destruct (deferreds σ !! d) as [df|]; [|apply fires_refl].
  destruct (called df); [apply fires_refl|].
  apply fires_run_deferred. intros. apply fires_run_deferred, fires_no_chain.
Qed.

Lemma fires_addCallbacks d c σ : fires σ (addCallbacks d c σ).
Proof.
  unfold addCallbacks.
  destruct (deferreds σ !! d) as [df|] eqn:Hd; [|apply fires_refl].
  destruct (called df) eqn:Hc.
  - destruct (run_callback _ _ _ _) as [r1 σ1] eqn:E.
    eapply fires_trans; [|apply fires_set_result].
    change σ1 with (r1, σ1).2. rewrite <- E. apply fires_run_callback.
    intros. apply fires_run_deferred, fires_no_chain.
  - eapply fires_insert_deferred; [done|]. congruence.
Qed.

(** ** The session-state invariant *)

(** A key is never both in flight and cached, and waiters are queued only
    for keys in flight. *)
Definition info_inv (info : SpiderInfo) : Prop :=
  (∀ fp, fp ∈ downloading info → downloaded info !! fp = None) ∧
  (∀ fp, is_Some (waiting info !! fp) → fp ∈ downloading info).

Definition infos_inv (σ : World) : Prop := Forall info_inv (infos σ).

(** What [_cache_result_and_execute_waiters] stores: a failure loses its
    frames and stack. *)
Definition sanitize (res : PyVal) : PyVal :=
  match res with
  | VFailure f => VFailure (strip_frames (cleanFailure f))
  | _ => res
  end.

(** The session state after key [fp] resolved with [res]. *)
Definition resolve_info (res : PyVal) (fp : string) (info : SpiderInfo)
    : SpiderInfo :=
  {| spider := spider info;
     downloading := downloading info ∖ {[fp]};
     downloaded := <[fp := sanitize res]> (downloaded info);
     waiting := delete fp (waiting info) |}.

Lemma evolves_infos P σ σ' : evolves P σ σ' → infos σ' = infos σ.
Proof. by intros (_ & ? & _). Qed.

Lemma evolves_emit (P : Event → bool) e σ :
  P e = true → evolves P σ (emit e σ).
Proof.
  intros He. repeat split; try done. exists [e]. split; [done|].
  by constructor.
Qed.

(** The events of a drain: notifications and what the waiters' callbacks
    produce. *)
Definition notify_or_quiet (e : Event) : bool :=
  match e with EvNotify _ _ _ _ => true | _ => quiet e end.

Lemma fires_chain_results i fp res wads σ :
  evolves notify_or_quiet σ (foldl (chain_result_to i fp res) σ wads).
Proof.
  revert σ. induction wads as [|w wads IH]; intros σ; simpl.
  { apply evolves_refl. }
  eapply evolves_trans; [|apply IH]. unfold chain_result_to.
  eapply evolves_trans.
  - by apply (evolves_emit _ (EvNotify i fp w res)).
  - eapply evolves_mono; [|apply fires_Deferred_callback].
    intros e He. by destruct e.
Qed.

Lemma cache_infos res fp i σ :
  infos (_cache_result_and_execute_waiters res fp i σ).2 =
  match infos σ !! i with
  | Some info =>
      if decide (fp ∈ downloading info)
      then <[i := resolve_info res fp info]> (infos σ)
      else infos σ
  | None => infos σ
  end.
Proof.
  unfold _cache_result_and_execute_waiters.
  destruct (infos σ !! i) as [info|] eqn:Hi; [|done].
  destruct (decide (fp ∈ downloading info)); [|done].
  simpl. destruct (waiting info !! fp) as [wads|] eqn:Hw; simpl.
  - erewrite evolves_infos; [|apply fires_chain_results]. done.
  - unfold resolve_info. by rewrite delete_id.
Qed.

Lemma resume_chain_infos res c σ :
  infos (resume_chain res c σ) =
  infos (_cache_result_and_execute_waiters res (c_fp c) (c_info c) σ).2.
Proof.
  unfold resume_chain.
  destruct (_cache_result_and_execute_waiters _ _ _ _) as [e σ1]. simpl.
  assert (infos (match e with
                 | Some e0 => emit (EvLogError (value e0)) σ1
                 | None => σ1
                 end) = infos σ1) as Hm by by destruct e.
  destruct (deferreds _ !! c_wad c) as [w|]; [|done].
  destruct (called w); [|done].
  erewrite evolves_infos; [|apply fires_Deferred_callback].
  erewrite evolves_infos; [|apply fires_set_result]. done.
Qed.

Lemma info_inv_init sp : info_inv (SpiderInfo_init sp).
Proof.
  split; simpl; intros fp.
  - set_solver.
  - rewrite lookup_empty. by intros [? ?].
Qed.

Lemma info_inv_resolve res fp info :
  info_inv info → info_inv (resolve_info res fp info).
Proof.
  intros [H1 H2]. split; simpl; intros fp'.
  - intros [Hin Hne%not_elem_of_singleton]%elem_of_difference.
    rewrite lookup_insert_ne by done. auto.
  - destruct (decide (fp = fp')) as [->|Hne].
    + rewrite lookup_delete_eq. by intros [? ?].
    + rewrite lookup_delete_ne by done. intros Hs.
      apply elem_of_difference. split; [auto|]. set_solver.
Qed.

Lemma infos_inv_insert i info σ infos' :
  Forall info_inv (infos σ) → info_inv info →
  infos' = <[i := info]> (infos σ) → Forall info_inv infos'.
Proof. intros Hall Hi ->. by apply Forall_insert. Qed.

Lemma infos_inv_cache res fp i σ :
  infos_inv σ → infos_inv (_cache_result_and_execute_waiters res fp i σ).2.
Proof.
  unfold infos_inv. intros Hall. rewrite cache_infos.
  destruct (infos σ !! i) as [info|] eqn:Hi; [|done].
  destruct (decide _); [|done].
  apply Forall_insert; [done|]. apply info_inv_resolve.
  eapply Forall_lookup_1; eauto.
Qed.

Lemma infos_inv_resume_chain res c σ :
  infos_inv σ → infos_inv (resume_chain res c σ).
Proof.
  unfold infos_inv. rewrite resume_chain_infos. apply infos_inv_cache.
Qed.

(** ** [_process_request], path by path *)

(** The request as [_process_request] leaves it: callbacks detached. *)
Definition detach (request : Request) : Request :=
  {| url := url request; method := method request; body := body request;
     callback := None; errback := None;
     meta_handle_httpstatus_list := meta_handle_httpstatus_list request;
     meta_handle_httpstatus_all := meta_handle_httpstatus_all request |}.

(** [request.callback or (lambda _: _)] and [request.errback] *)
Definition cb_of (request : Request) : Callable :=
  match callback request with Some f => UserFn f | None => Identity end.
Definition eb_of (request : Request) : option Callable :=
  UserFn <$> errback request.

(** The value and the events of one [addCallbacks(cb, eb)] entry. *)
Definition pair_result (cb : Callable) (eb : option Callable) (r : PyVal)
    : PyVal :=
  if isFailure r then
    match eb with None => r | Some f => as_result (call_callable f r) end
  else as_result (call_callable cb r).

Definition pair_events (cb : Callable) (eb : option Callable) (r : PyVal)
    : list Event :=
  if isFailure r then
    match eb with None => [] | Some f => [EvCall f r] end
  else [EvCall cb r].

Lemma run_pair_eq cb eb r σ :
  run_pair cb eb r σ =
  (pair_result cb eb r,
   mkWorld (spiderinfo σ) (infos σ) (deferreds σ) (dlists σ) (downloads σ)
     (log σ ++ pair_events cb eb r)).
Proof.
  unfold run_pair, pair_result, pair_events. destruct σ; simpl.
  destruct (isFailure r); [destruct eb|]; simpl; try done.
  by rewrite app_nil_r.
Qed.

Lemma lookup_snoc {A} (l : list A) x : (l ++ [x]) !! length l = Some x.
Proof. by rewrite list_lookup_middle. Qed.

Lemma insert_snoc {A} (l : list A) x y : <[length l := y]> (l ++ [x]) = l ++ [y].
Proof.
  rewrite insert_app_r_alt by lia. by rewrite Nat.sub_diag.
Qed.

Lemma process_request_cached request i σ info cached :
  infos σ !! i = Some info →
  downloaded info !! request_fingerprint request = Some cached →
  _process_request request i σ =
  (detach request, length (deferreds σ),
   mkWorld (spiderinfo σ) (infos σ)
     (deferreds σ ++
      [mkDeferred true
         (pair_result (cb_of request) (eb_of request) cached) []])
     (dlists σ) (downloads σ)
     (log σ ++ EvCached i (request_fingerprint request) cached ::
        pair_events (cb_of request) (eb_of request) cached)).
Proof.
  intros Hi Hc. unfold _process_request. rewrite Hi, Hc.
  unfold defer_result, addCallbacks. simpl.
  rewrite lookup_snoc. simpl. rewrite run_pair_eq. simpl.
  unfold set_result. simpl. rewrite lookup_snoc, insert_snoc. simpl.
  unfold set_deferreds. simpl. by rewrite <- app_assoc.
Qed.

Lemma process_request_inflight request i σ info :
  infos σ !! i = Some info →
  downloaded info !! request_fingerprint request = None →
  request_fingerprint request ∈ downloading info →
  _process_request request i σ =
  (detach request, length (deferreds σ),
   mkWorld (spiderinfo σ)
     (<[i := waiting_append (request_fingerprint request)
               (length (deferreds σ)) info]> (infos σ))
     (deferreds σ ++
      [mkDeferred false VNone [CbPair (cb_of request) (eb_of request)]])
     (dlists σ) (downloads σ)
     (log σ ++
      [EvWaiting i (request_fingerprint request) (length (deferreds σ))])).
Proof.
  intros Hi Hc Hin. unfold _process_request. rewrite Hi, Hc.
  unfold Deferred_new, addCallbacks. simpl.
  rewrite lookup_snoc. simpl. rewrite insert_snoc.
  rewrite decide_True by done. done.
Qed.

(** The world in which the chain of a new key starts: the waiter is queued,
    the key is marked in flight, [media_to_download] has been called. *)
Definition started (request : Request) (i : nat) (info : SpiderInfo)
    (σ : World) : World :=
  mkWorld (spiderinfo σ)
    (<[i := downloading_add (request_fingerprint request)
              (waiting_append (request_fingerprint request)
                 (length (deferreds σ)) info)]> (infos σ))
    (deferreds σ ++
     [mkDeferred false VNone [CbPair (cb_of request) (eb_of request)];
      mkDeferred false VNone []])
    (dlists σ) (downloads σ)
    (log σ ++
     [EvWaiting i (request_fingerprint request) (length (deferreds σ));
      EvMediaToDownload (detach request) i]).

Definition chain_of (request : Request) (i : nat) (σ : World) : Continuation :=
  {| c_fp := request_fingerprint request; c_info := i;
     c_wad := length (deferreds σ); c_dfd := S (length (deferreds σ)) |}.

Definition hook_result (request : Request) (info : SpiderInfo) (σ : World)
    : PyVal :=
  as_result
    (media_to_download (detach request)
       (downloading_add (request_fingerprint request)
          (waiting_append (request_fingerprint request)
             (length (deferreds σ)) info))).

Definition fetch_request (request : Request) : Request :=
  match download_func with
  | Some _ => detach request
  | None => _modify_media_request (detach request)
  end.

Lemma process_request_new request i σ info :
  infos σ !! i = Some info →
  downloaded info !! request_fingerprint request = None →
  request_fingerprint request ∉ downloading info →
  _process_request request i σ =
  match hook_result request info σ with
  | VNone =>
      let σ1 := started request i info σ in
      (fetch_request request, S (length (deferreds σ)),
       mkWorld (spiderinfo σ1) (infos σ1) (deferreds σ1) (dlists σ1)
         (downloads σ1 ++
          [mkDownload (fetch_request request) i false
             (Some (chain_of request i σ))])
         (log σ1 ++
          [EvDownload (bool_decide (is_Some download_func))
             (fetch_request request) i]))
  | v =>
      (detach request, S (length (deferreds σ)),
       resume_chain v (chain_of request i σ) (started request i info σ))
  end.
Proof.
  intros Hi Hc Hin. unfold _process_request. rewrite Hi, Hc.
  unfold Deferred_new, addCallbacks. simpl.
  rewrite lookup_snoc. simpl. rewrite insert_snoc.
  rewrite decide_False by done.
  rewrite list_insert_insert_eq.
  fold (detach request) (cb_of request) (eb_of request).
  fold (hook_result request info σ).
  rewrite length_app. simpl. rewrite Nat.add_1_r.
  fold (chain_of request i σ).
  replace (set_deferreds _ _) with (started request i info σ).
  2:{ unfold started, set_deferreds. simpl. by rewrite <- !app_assoc. }
  destruct (hook_result request info σ) eqn:Hh; simpl; try done.
  unfold _check_media_to_download, fetch_request, start_download, pause_on.
  destruct download_func; simpl; rewrite lookup_snoc, insert_snoc; done.
Qed.

(** ** The session-state invariant holds after every history *)

Lemma info_inv_waiting_append fp wad info :
  info_inv info → fp ∈ downloading info →
  info_inv (waiting_append fp wad info).
Proof.
  intros [H1 H2] Hin. split; simpl; [done|]. intros fp'.
  destruct (decide (fp = fp')) as [->|Hne]; [done|].
  rewrite lookup_insert_ne by done. auto.
Qed.

Lemma info_inv_start fp wad info :
  info_inv info → downloaded info !! fp = None →
  info_inv (downloading_add fp (waiting_append fp wad info)).
Proof.
  intros [H1 H2] Hnone. split; simpl; intros fp'.
  - intros [->%elem_of_singleton|Hin]%elem_of_union; auto.
  - destruct (decide (fp = fp')) as [->|Hne]; [set_solver|].
    rewrite lookup_insert_ne by done. intros Hs. apply elem_of_union. auto.
Qed.

Lemma infos_inv_started request i info σ :
  infos_inv σ → infos σ !! i = Some info →
  downloaded info !! request_fingerprint request = None →
  infos_inv (started request i info σ).
Proof.
  intros Hinv Hi Hc. unfold infos_inv, started. simpl.
  apply Forall_insert; [done|]. apply info_inv_start; [|done].
  eapply Forall_lookup_1; eauto.
Qed.

Lemma infos_inv__process_request request i σ :
  infos_inv σ → infos_inv (_process_request request i σ).2.
Proof.
  intros Hinv.
  destruct (infos σ !! i) as [info|] eqn:Hi.
  2:{ unfold _process_request. by rewrite Hi. }
  destruct (downloaded info !! request_fingerprint request) as [cached|] eqn:Hc.
  { by erewrite process_request_cached. }
  destruct (decide (request_fingerprint request ∈ downloading info)) as [Hin|Hin].
  { erewrite process_request_inflight by done. unfold infos_inv. simpl.
    apply Forall_insert; [done|]. apply info_inv_waiting_append; [|done].
    eapply Forall_lookup_1; eauto. }
  erewrite process_request_new by done.
  pose proof (infos_inv_started request i info σ Hinv Hi Hc) as Hs.
  destruct (hook_result request info σ); simpl;
    try by apply infos_inv_resume_chain.
  exact Hs.
Qed.

Lemma infos_inv_process_requests requests i σ :
  infos_inv σ → infos_inv (process_requests requests i σ).2.
Proof.
  revert σ. induction requests as [|r rest IH]; intros σ Hinv; simpl; [done|].
  pose proof (infos_inv__process_request r i σ Hinv) as H1.
  destruct (_process_request r i σ) as [[r' d] σ1]. simpl in H1.
  specialize (IH σ1 H1).
  destruct (process_requests rest i σ1) as [ds σ2]. done.
Qed.

Lemma fires_add_slots j index dlist σ : fires σ (add_slots j index dlist σ).
Proof.
  revert index σ. induction dlist as [|d rest IH]; intros index σ; simpl.
  { apply fires_refl. }
  eapply fires_trans; [apply fires_addCallbacks|apply IH].
Qed.

Lemma DeferredList_new_infos dlist σ :
  infos (DeferredList_new dlist σ).2 = infos σ.
Proof.
  unfold DeferredList_new. simpl.
  erewrite evolves_infos; [|apply fires_add_slots].
  destruct (_ =? _); [|done].
  erewrite evolves_infos; [|apply fires_DeferredList_callback]. done.
Qed.

Lemma add_item_completed_infos j item i σ :
  infos (add_item_completed j item i σ) = infos σ.
Proof.
  unfold add_item_completed. destruct (dlists σ !! j) as [dl|]; [|done].
  destruct (dl_called dl); [|done].
  erewrite evolves_infos; [|apply fires_run_item_completed]. done.
Qed.

Lemma infos_inv_process_item item σ :
  infos_inv σ → infos_inv (process_item item σ).2.
Proof.
  intros Hinv. unfold process_item.
  destruct (spiderinfo σ) as [i|]; [|done].
  destruct (infos σ !! i) as [info|]; [|done].
  destruct (get_media_requests item info) as [x|f]; [|done].
  pose proof (infos_inv_process_requests (arg_to_iter x) i
                (emit (EvGetMediaRequests item i) σ) Hinv) as H1.
  destruct (process_requests _ _ _) as [dlist σ1]. simpl in H1.
  pose proof (DeferredList_new_infos dlist σ1) as H2.
  destruct (DeferredList_new dlist σ1) as [dfd σ2]. simpl in *.
  unfold infos_inv. rewrite add_item_completed_infos. by rewrite H2.
Qed.

Lemma infos_inv_download_done k raw σ :
  infos_inv σ → infos_inv (download_done k raw σ).
Proof.
  intros Hinv. unfold download_done.
  destruct (downloads σ !! k) as [dl|]; [|done].
  destruct (d_called dl); [done|]. simpl.
  destruct (infos σ !! d_info dl) as [info|]; [|done].
  destruct (isFailure raw); (destruct (d_chain dl); [|done]);
    by apply infos_inv_resume_chain.
Qed.

Lemma infos_inv_open_spider sp σ : infos_inv σ → infos_inv (open_spider sp σ).
Proof.
  intros Hinv. unfold infos_inv, open_spider. simpl.
  apply Forall_app. split; [done|]. constructor; [|done].
  apply info_inv_init.
Qed.

Lemma infos_inv_step σ inp : infos_inv σ → infos_inv (step σ inp).
Proof.
  destruct inp; simpl;
    auto using infos_inv_open_spider, infos_inv_process_item,
      infos_inv_download_done.
Qed.

(** Histories are built at the end, so invariants are shown by induction
    from the right. *)
Lemma run_snoc inputs inp : run (inputs ++ [inp]) = step (run inputs) inp.
Proof. unfold run. by rewrite foldl_app. Qed.

Lemma run_invariant (P : World → Prop) :
  P World_init → (∀ σ inp, P σ → P (step σ inp)) → ∀ inputs, P (run inputs).
Proof.
  intros H0 Hstep inputs.
  induction inputs as [|inp inputs IH] using rev_ind; [done|].
  rewrite run_snoc. by apply Hstep.
Qed.

Lemma infos_inv_run inputs : infos_inv (run inputs).
Proof.
  apply run_invariant; [by constructor|]. intros. by apply infos_inv_step.
Qed.

(** C5: after every history of inputs, in every session, no key is both in
    flight ([downloading]) and cached ([downloaded]); every key that has an
    entry in [waiting] is in flight; and a key that has resolved has no
    entry in [waiting] any more. *)
Theorem state_invariant inputs :
  Forall (λ info,
    (∀ fp, ¬ (fp ∈ downloading info ∧ is_Some (downloaded info !! fp))) ∧
    (∀ fp, is_Some (waiting info !! fp) → fp ∈ downloading info) ∧
    (∀ fp, is_Some (downloaded info !! fp) → waiting info !! fp = None))
    (infos (run inputs)).
Proof.
  eapply Forall_impl; [apply infos_inv_run|].
  intros info [H1 H2]. split; [|split].
  - intros fp [Hin [v Hv]]. apply H1 in Hin. congruence.
  - done.
  - intros fp [v Hv]. destruct (waiting info !! fp) eqn:Hw; [|done].
    assert (fp ∈ downloading info) as Hin by eauto.
    apply H1 in Hin. congruence.
Qed.
(** ** Resolving a key *)

Lemma evolves_called P σ σ' d : evolves P σ σ' → is_called σ d → is_called σ' d.
Proof. intros (_ & _ & _ & _ & _ & Hc & _). apply Hc. Qed.

Lemma evolves_length P σ σ' :
  evolves P σ σ' → length (deferreds σ') = length (deferreds σ).
Proof. by intros (_ & _ & _ & ? & _). Qed.

Lemma Deferred_callback_called d r σ :
  d < length (deferreds σ) → is_called (Deferred_callback d r σ) d.
Proof.
  intros [df Hd]%lookup_lt_is_Some_2. unfold Deferred_callback. rewrite Hd.
  destruct (called df) eqn:Hc; [by exists df|].
  unfold run_deferred. rewrite Hd.
  destruct (run_callbacks _ _ _ _) as [r1 σ1] eqn:E.
  eapply evolves_called; [apply fires_set_result|].
  eapply evolves_called.
  { change σ1 with (r1, σ1).2. rewrite <- E. apply fires_run_callbacks.
    intros. apply fires_run_deferred, fires_no_chain. }
  exists (mkDeferred true r []). split; [|done]. simpl.
  apply list_lookup_insert_eq. by eapply lookup_lt_Some.
Qed.

(** The events of a log that are not quiet. *)
Definition loud (l : list Event) : list Event :=
  filter (λ e, quiet e = false) l.

Lemma loud_app l1 l2 : loud (l1 ++ l2) = loud l1 ++ loud l2.
Proof. apply filter_app. Qed.

Lemma loud_quiet l : Forall (λ e, quiet e = true) l → loud l = [].
Proof.
  induction 1 as [|e l He _ IH]; [done|].
  unfold loud in *. rewrite filter_cons_False; [done|]. congruence.
Qed.

Lemma fires_loud σ σ' : fires σ σ' → loud (log σ') = loud (log σ).
Proof.
  intros (_ & _ & _ & _ & _ & _ & l & -> & Hl).
  by rewrite loud_app, (loud_quiet l), app_nil_r.
Qed.

Lemma chain_results_loud i fp res wads σ :
  loud (log (foldl (chain_result_to i fp res) σ wads)) =
  loud (log σ) ++ ((λ w, EvNotify i fp w res) <$> wads).
Proof.
  revert σ. induction wads as [|w wads IH]; intros σ; simpl.
  { by rewrite app_nil_r. }
  rewrite IH. unfold chain_result_to.
  rewrite (fires_loud _ _ (fires_Deferred_callback _ _ _)). simpl.
  rewrite loud_app, <- app_assoc. done.
Qed.

Lemma chain_results_called i fp res wads σ :
  Forall (λ w, w < length (deferreds σ) →
               is_called (foldl (chain_result_to i fp res) σ wads) w) wads.
Proof.
  revert σ. induction wads as [|w wads IH]; intros σ; simpl; [done|].
  constructor.
  - intros Hw. eapply evolves_called; [apply fires_chain_results|].
    unfold chain_result_to. by apply Deferred_callback_called.
  - eapply Forall_impl; [apply IH|]. simpl. intros w' Hw' Hlt. apply Hw'.
    unfold chain_result_to.
    erewrite evolves_length; [|apply fires_Deferred_callback]. done.
Qed.

(** C7: when a key in flight resolves with a failure, what is stored in
    the cache is that failure without its frames, stack and traceback; the
    call raises nothing, the key leaves [downloading], its entry in
    [waiting] is deleted, and every queued waiter has been notified, in
    order, with the stored outcome. *)
Theorem failure_sanitization f fp i σ info wads :
  infos σ !! i = Some info →
  fp ∈ downloading info →
  waiting info !! fp = Some wads →
  ∃ σ' info' f',
    _cache_result_and_execute_waiters (VFailure f) fp i σ = (None, σ') ∧
    value f' = value f ∧ frames f' = [] ∧ stack f' = None ∧ tb f' = None ∧
    infos σ' !! i = Some info' ∧
    downloaded info' !! fp = Some (VFailure f') ∧
    (fp ∉ downloading info') ∧
    waiting info' !! fp = None ∧
    (loud (log σ') =
       (loud (log σ) ++ ((λ w, EvNotify i fp w (VFailure f')) <$> wads))) ∧
    Forall (λ w, w < length (deferreds σ) → is_called σ' w) wads.
Proof.
  intros Hi Hin Hw.
  pose proof (cache_infos (VFailure f) fp i σ) as Hinfos.
  rewrite Hi, decide_True in Hinfos by done.
  unfold _cache_result_and_execute_waiters in *.
  rewrite Hi in *. rewrite decide_True in * by done. simpl in *.
  rewrite Hw in *. simpl in *.
  eexists _, (resolve_info (VFailure f) fp info),
    (strip_frames (cleanFailure f)).
  split; [done|]. repeat split; try done.
  - rewrite Hinfos. apply list_lookup_insert_eq. by eapply lookup_lt_Some.
  - simpl. apply lookup_insert_eq.
  - simpl. intros [_ Hne]%elem_of_difference. apply Hne.
    by apply elem_of_singleton.
  - simpl. apply lookup_delete_eq.
  - by rewrite chain_results_loud.
  - eapply Forall_impl;
      [apply (chain_results_called i fp
                (VFailure (strip_frames (cleanFailure f))) wads
                (set_infos (<[i:=resolve_info (VFailure f) fp info]> (infos σ))
                   σ))|].
    intros w Hx Hlt. by apply Hx.
Qed.
Lemma evolves_set_infos P x σ σ' :
  evolves P σ σ' → evolves P (set_infos x σ) (set_infos x σ').
Proof.
  intros (A1 & A2 & A3 & A4 & A5 & Ac & l1 & A6 & A7).
  repeat split; try done. by exists l1.
Qed.

(** Apart from the session state, resolving a key only fires deferreds. *)
Lemma cache_evolves res fp i σ :
  let σ' := (_cache_result_and_execute_waiters res fp i σ).2 in
  evolves notify_or_quiet (set_infos (infos σ') σ) σ'.
Proof.
  simpl. rewrite cache_infos. unfold _cache_result_and_execute_waiters.
  destruct (infos σ !! i) as [info|] eqn:Hi; [|destruct σ; apply evolves_refl].
  destruct (decide (fp ∈ downloading info));
    [|destruct σ; apply evolves_refl].
  simpl. destruct (waiting info !! fp) as [wads|] eqn:Hw; simpl.
  - apply fires_chain_results.
  - unfold resolve_info. rewrite delete_id by done. apply evolves_refl.
Qed.

Lemma resume_chain_tail res c σ :
  fires (_cache_result_and_execute_waiters res (c_fp c) (c_info c) σ).2
    (resume_chain res c σ).
Proof.
  unfold resume_chain.
  destruct (_cache_result_and_execute_waiters _ _ _ _) as [e σ1]. simpl.
  eapply fires_trans.
  { instantiate (1 := match e with
                      | Some e0 => emit (EvLogError (value e0)) σ1
                      | None => σ1 end).
    destruct e; [by apply fires_emit|apply fires_refl]. }
  destruct (deferreds _ !! c_wad c) as [w|] eqn:Hw; [|apply fires_refl].
  destruct (called w) eqn:Hcw.
  - eapply fires_trans; [apply fires_set_result|apply fires_Deferred_callback].
  - eapply fires_insert_deferred; [done|]. congruence.
Qed.

(** When the first waiter has its result, the returned deferred gets it. *)
Lemma resume_chain_returns res c σ :
  is_called (_cache_result_and_execute_waiters res (c_fp c) (c_info c) σ).2
    (c_wad c) →
  c_dfd c < length (deferreds σ) →
  is_called (resume_chain res c σ) (c_dfd c).
Proof.
  intros Hw Hd.
  pose proof (cache_evolves res (c_fp c) (c_info c) σ) as Hev.
  apply evolves_length in Hev. simpl in Hev.
  unfold resume_chain.
  destruct (_cache_result_and_execute_waiters _ _ _ _) as [e σ1]. simpl in *.
  set (σ2 := match e with
             | Some e0 => emit (EvLogError (value e0)) σ1
             | None => σ1 end).
  assert (deferreds σ2 = deferreds σ1) as Hd2 by by destruct e.
  rewrite Hd2. destruct Hw as (w & Hlw & Hcw). rewrite Hlw, Hcw.
  apply Deferred_callback_called.
  erewrite evolves_length; [|apply fires_set_result]. congruence.
Qed.

Lemma resume_chain_evolves res c σ :
  evolves notify_or_quiet (set_infos (infos (resume_chain res c σ)) σ)
    (resume_chain res c σ).
Proof.
  rewrite resume_chain_infos.
  eapply evolves_trans; [apply cache_evolves|].
  eapply evolves_mono with (P := quiet); [by intros []|].
  apply resume_chain_tail.
Qed.

Lemma evolves_downloads P σ σ' : evolves P σ σ' → downloads σ' = downloads σ.
Proof. by intros (_ & _ & ? & _). Qed.

Lemma evolves_spiderinfo P σ σ' :
  evolves P σ σ' → spiderinfo σ' = spiderinfo σ.
Proof. by intros (? & _). Qed.

Lemma evolves_log P σ σ' :
  evolves P σ σ' → ∃ l, log σ' = log σ ++ l ∧ Forall (λ e, P e = true) l.
Proof. by intros (_ & _ & _ & _ & _ & _ & ?). Qed.

Lemma cache_loud res fp i σ :
  loud (log (_cache_result_and_execute_waiters res fp i σ).2) =
  loud (log σ) ++
  match infos σ !! i with
  | Some info =>
      if decide (fp ∈ downloading info)
      then (λ w, EvNotify i fp w (sanitize res)) <$>
             default [] (waiting info !! fp)
      else []
  | None => []
  end.
Proof.
  unfold _cache_result_and_execute_waiters.
  destruct (infos σ !! i) as [info|] eqn:Hi; [|by rewrite app_nil_r].
  destruct (decide (fp ∈ downloading info)); [|by rewrite app_nil_r].
  simpl. destruct (waiting info !! fp) as [wads|] eqn:Hw; simpl.
  - by rewrite chain_results_loud.
  - by rewrite app_nil_r.
Qed.

Lemma resume_chain_loud res c σ :
  loud (log (resume_chain res c σ)) =
  loud (log (_cache_result_and_execute_waiters res (c_fp c) (c_info c) σ).2).
Proof.
  unfold resume_chain.
  destruct (_cache_result_and_execute_waiters _ _ _ _) as [e σ1]. simpl.
  assert (loud (log (match e with
                     | Some e0 => emit (EvLogError (value e0)) σ1
                     | None => σ1
                     end)) = loud (log σ1)) as Hm.
  { destruct e; [|done]. simpl. by rewrite loud_app, app_nil_r. }
  destruct (deferreds _ !! c_wad c) as [w|]; [|done].
  destruct (called w); [|done].
  rewrite (fires_loud _ _ (fires_Deferred_callback _ _ _)).
  rewrite (fires_loud _ _ (fires_set_result _ _ _)). done.
Qed.


Lemma cache_called res fp i σ info :
  infos σ !! i = Some info → fp ∈ downloading info →
  Forall (λ w, w < length (deferreds σ) →
               is_called (_cache_result_and_execute_waiters res fp i σ).2 w)
    (default [] (waiting info !! fp)).
Proof.
  intros Hi Hin. unfold _cache_result_and_execute_waiters.
  rewrite Hi, decide_True by done. simpl.
  destruct (waiting info !! fp) as [wads|] eqn:Hw; simpl; [|done].
  eapply Forall_impl;
    [apply (chain_results_called i fp (sanitize res) wads
              (set_infos (<[i:=resolve_info res fp info]> (infos σ)) σ))|].
  intros w Hx Hlt. by apply Hx.
Qed.

Lemma process_request_short request i σ info :
  infos σ !! i = Some info →
  downloaded info !! request_fingerprint request = None →
  request_fingerprint request ∉ downloading info →
  hook_result request info σ ≠ VNone →
  _process_request request i σ =
  (detach request, S (length (deferreds σ)),
   resume_chain (hook_result request info σ) (chain_of request i σ)
     (started request i info σ)).
Proof.
  intros Hi Hc Hin Hv. erewrite process_request_new by done.
  by destruct (hook_result request info σ).
Qed.

Lemma process_request_fetch request i σ info :
  infos σ !! i = Some info →
  downloaded info !! request_fingerprint request = None →
  request_fingerprint request ∉ downloading info →
  hook_result request info σ = VNone →
  _process_request request i σ =
  (fetch_request request, S (length (deferreds σ)),
   mkWorld (spiderinfo σ) (infos (started request i info σ))
     (deferreds (started request i info σ)) (dlists σ)
     (downloads σ ++
      [mkDownload (fetch_request request) i false
         (Some (chain_of request i σ))])
     (log (started request i info σ) ++
      [EvDownload (bool_decide (is_Some download_func))
         (fetch_request request) i])).
Proof.
  intros Hi Hc Hin Hv. erewrite process_request_new by done.
  by rewrite Hv.
Qed.

Lemma started_lookup request i info σ :
  infos σ !! i = Some info →
  infos (started request i info σ) !! i =
  Some (downloading_add (request_fingerprint request)
          (waiting_append (request_fingerprint request)
             (length (deferreds σ)) info)).
Proof.
  intros Hi. simpl. apply list_lookup_insert_eq. by eapply lookup_lt_Some.
Qed.

(** The waiters that a new key resolves at once: those that were queued
    (none in a world that satisfies the invariant) and the new one. *)
Definition queue_of (request : Request) (info : SpiderInfo) (σ : World)
    : list nat :=
  default [] (waiting info !! request_fingerprint request) ++
  [length (deferreds σ)].

Lemma short_circuit_resolved request i σ info :
  infos σ !! i = Some info →
  downloaded info !! request_fingerprint request = None →
  request_fingerprint request ∉ downloading info →
  let fp := request_fingerprint request in
  let v := hook_result request info σ in
  let σ' := resume_chain v (chain_of request i σ) (started request i info σ) in
  infos σ' =
    <[i := resolve_info v fp
             (downloading_add fp
                (waiting_append fp (length (deferreds σ)) info))]> (infos σ) ∧
  downloads σ' = downloads σ ∧
  spiderinfo σ' = spiderinfo σ ∧
  length (deferreds σ') = S (S (length (deferreds σ))) ∧
  loud (log σ') =
    loud (log σ) ++
    [EvWaiting i fp (length (deferreds σ)); EvMediaToDownload (detach request) i]
    ++ ((λ w, EvNotify i fp w (sanitize v)) <$> queue_of request info σ) ∧
  Forall (λ w, w < length (deferreds σ') → is_called σ' w)
    (queue_of request info σ) ∧
  is_called σ' (S (length (deferreds σ))).
Proof.
  intros Hi Hc Hin fp v σ'.
  pose proof (started_lookup request i info σ Hi) as Hs.
  fold fp in Hs.
  set (info1 := downloading_add fp _) in *.
  assert (fp ∈ downloading info1) as Hin1.
  { simpl. apply elem_of_union_l. by apply elem_of_singleton. }
  assert (default [] (waiting info1 !! fp) = queue_of request info σ) as Hq.
  { simpl. by rewrite lookup_insert_eq. }
  pose proof (resume_chain_evolves v (chain_of request i σ)
                (started request i info σ)) as Hev.
  fold σ' in Hev.
  assert (infos σ' = <[i:=resolve_info v fp info1]> (infos σ)) as Hinfos.
  { unfold σ'. rewrite resume_chain_infos, cache_infos. simpl c_info.
    simpl c_fp. fold fp. rewrite Hs, decide_True by done. simpl.
    by rewrite list_insert_insert_eq. }
  assert (length (deferreds σ') = S (S (length (deferreds σ)))) as Hlen.
  { erewrite evolves_length by exact Hev. simpl.
    rewrite length_app. simpl. lia. }
  assert (Forall (λ w, w < length (deferreds σ') → is_called σ' w)
            (queue_of request info σ)) as Hcalled.
  { rewrite <- Hq.
    eapply Forall_impl;
      [apply (cache_called v fp i (started request i info σ) info1 Hs Hin1)|].
    simpl. intros w Hw Hlt.
    assert (is_called
              (_cache_result_and_execute_waiters v fp i
                 (started request i info σ)).2 w) as Hcw.
    { apply Hw. rewrite length_app. simpl. lia. }
    eapply evolves_called; [apply resume_chain_tail|exact Hcw]. }
  repeat split; try done.
  - by erewrite evolves_downloads by exact Hev.
  - by erewrite evolves_spiderinfo by exact Hev.
  - unfold σ'. rewrite resume_chain_loud, cache_loud. simpl c_info.
    simpl c_fp. fold fp. rewrite Hs, decide_True by done. rewrite Hq.
    simpl log. by rewrite loud_app, <- app_assoc.
  - apply resume_chain_returns; simpl.
    + fold fp.
      pose proof (cache_called v fp i (started request i info σ) info1 Hs Hin1)
        as Hf.
      rewrite Forall_forall in Hf. apply Hf.
      * rewrite Hq. unfold queue_of. apply elem_of_app. right.
        by apply list_elem_of_singleton.
      * simpl. rewrite length_app. simpl. lia.
    + rewrite length_app. simpl. lia.
Qed.

Lemma lookup_snoc2_0 {A} (l : list A) x y : (l ++ [x; y]) !! length l = Some x.
Proof. by rewrite list_lookup_middle. Qed.

Lemma lookup_snoc2_1 {A} (l : list A) x y :
  (l ++ [x; y]) !! S (length l) = Some y.
Proof.
  replace (l ++ [x; y]) with ((l ++ [x]) ++ [y]) by by rewrite <- app_assoc.
  rewrite list_lookup_middle; [done|]. rewrite length_app. simpl. lia.
Qed.

Lemma insert_snoc2_0 {A} (l : list A) x y z :
  <[length l := z]> (l ++ [x; y]) = l ++ [z; y].
Proof. rewrite insert_app_r_alt by lia. by rewrite Nat.sub_diag. Qed.

Lemma insert_snoc2_1 {A} (l : list A) x y z :
  <[S (length l) := z]> (l ++ [x; y]) = l ++ [x; z].
Proof.
  rewrite insert_app_r_alt by lia.
  by replace (S (length l) - length l) with 1 by lia.
Qed.

(** A new key that the hook settles, in a world where nobody waits for it
    yet: the world after the whole chain has run. *)
Lemma short_circuit_world request i σ info v :
  infos σ !! i = Some info →
  waiting info !! request_fingerprint request = None →
  let fp := request_fingerprint request in
  let wad := length (deferreds σ) in
  resume_chain v (chain_of request i σ) (started request i info σ) =
  mkWorld (spiderinfo σ)
    (<[i := resolve_info v fp
               (downloading_add fp (waiting_append fp wad info))]> (infos σ))
    (deferreds σ ++
     [mkDeferred true VNone [];
      mkDeferred true
        (pair_result (cb_of request) (eb_of request) (sanitize v)) []])
    (dlists σ) (downloads σ)
    (log σ ++
     [EvWaiting i fp wad; EvMediaToDownload (detach request) i;
      EvNotify i fp wad (sanitize v)] ++
     pair_events (cb_of request) (eb_of request) (sanitize v)).
Proof.
  intros Hi Hw. cbv zeta.
  unfold resume_chain, _cache_result_and_execute_waiters.
  rewrite started_lookup by done.
  rewrite decide_True.
  2:{ simpl. apply elem_of_union_l. by apply elem_of_singleton. }
  simpl. rewrite lookup_insert_eq. rewrite Hw. simpl.
  unfold chain_result_to, Deferred_callback. simpl.
  rewrite lookup_snoc2_0. simpl.
  unfold run_deferred. simpl. rewrite lookup_snoc2_0. simpl.
  rewrite run_pair_eq. simpl.
  unfold set_result. simpl.
  repeat (rewrite ?insert_snoc2_0, ?lookup_snoc2_0, ?insert_snoc2_1,
            ?lookup_snoc2_1; simpl).
  unfold set_deferreds, set_infos. simpl.
  repeat (rewrite ?insert_snoc2_0, ?lookup_snoc2_0, ?insert_snoc2_1,
            ?lookup_snoc2_1; simpl).
  rewrite list_insert_insert_eq.
  unfold resolve_info, sanitize. simpl. rewrite Hw. simpl.
  f_equal. by rewrite <- !app_assoc.
Qed.
(** ** The session-level view of a world

    What the bookkeeping of the pipeline sees: the session states, the
    downloads, how many deferreds exist, and the events that are not quiet.
    It evolves on its own, whatever the callbacks of fired deferreds do. *)
Record Session := mkSession {
  s_spiderinfo : option nat;
  s_infos : list SpiderInfo;
  s_downloads : list Download;
  s_next : nat;
  s_loud : list Event
}.

Definition shadow (σ : World) : Session :=
  mkSession (spiderinfo σ) (infos σ) (downloads σ) (length (deferreds σ))
    (loud (log σ)).

(** [_cache_result_and_execute_waiters] and the rest of the chain. *)
Definition s_resolve (res : PyVal) (fp : string) (i : nat) (s : Session)
    : Session :=
  match s_infos s !! i with
  | Some info =>
      if decide (fp ∈ downloading info) then
        mkSession (s_spiderinfo s)
          (<[i := resolve_info res fp info]> (s_infos s))
          (s_downloads s) (s_next s)
          (s_loud s ++
           ((λ w, EvNotify i fp w (sanitize res)) <$>
              default [] (waiting info !! fp)))
      else s
  | None => s
  end.

(** [_process_request] *)
Definition s_process_request (request : Request) (i : nat) (s : Session)
    : Session :=
  let fp := request_fingerprint request in
  let wad := s_next s in
  match s_infos s !! i with
  | None =>
      mkSession (s_spiderinfo s) (s_infos s) (s_downloads s) (S wad) (s_loud s)
  | Some info =>
      match downloaded info !! fp with
      | Some cached =>
          mkSession (s_spiderinfo s) (s_infos s) (s_downloads s) (S wad)
            (s_loud s ++ [EvCached i fp cached])
      | None =>
          if decide (fp ∈ downloading info) then
            mkSession (s_spiderinfo s)
              (<[i := waiting_append fp wad info]> (s_infos s))
              (s_downloads s) (S wad) (s_loud s ++ [EvWaiting i fp wad])
          else
            let info1 := downloading_add fp (waiting_append fp wad info) in
            let s1 :=
              mkSession (s_spiderinfo s) (<[i := info1]> (s_infos s))
                (s_downloads s) (S (S wad))
                (s_loud s ++
                 [EvWaiting i fp wad; EvMediaToDownload (detach request) i])
            in
            match as_result (media_to_download (detach request) info1) with
            | VNone =>
                mkSession (s_spiderinfo s1) (s_infos s1)
                  (s_downloads s1 ++
                   [mkDownload (fetch_request request) i false
                      (Some (mkContinuation fp i wad (S wad)))])
                  (s_next s1)
                  (s_loud s1 ++
                   [EvDownload (bool_decide (is_Some download_func))
                      (fetch_request request) i])
            | v => s_resolve v fp i s1
            end
      end
  end.

Definition s_process_requests (requests : list Request) (i : nat)
    (s : Session) : Session :=
  foldl (λ s r, s_process_request r i s) s requests.

(** [process_item] *)
Definition s_process_item (item : string) (s : Session) : Session :=
  match s_spiderinfo s with
  | None => s
  | Some i =>
      match s_infos s !! i with
      | None => s
      | Some info =>
          let s1 :=
            mkSession (s_spiderinfo s) (s_infos s) (s_downloads s) (s_next s)
              (s_loud s ++ [EvGetMediaRequests item i]) in
          match get_media_requests item info with
          | GRaises _ => s1
          | GReturns x => s_process_requests (arg_to_iter x) i s1
          end
      end
  end.

(** A download completes. *)
Definition s_download_done (k : nat) (raw : PyVal) (s : Session) : Session :=
  match s_downloads s !! k with
  | None => s
  | Some dl =>
      if d_called dl then s
      else
        let downloads' :=
          <[k := mkDownload (d_request dl) (d_info dl) true (d_chain dl)]>
            (s_downloads s) in
        match s_infos s !! d_info dl with
        | None =>
            mkSession (s_spiderinfo s) (s_infos s) downloads' (s_next s)
              (s_loud s)
        | Some info =>
            let s1 :=
              mkSession (s_spiderinfo s) (s_infos s) downloads' (s_next s)
                (s_loud s ++
                 [if isFailure raw
                  then EvMediaFailed raw (d_request dl) (d_info dl)
                  else EvMediaDownloaded raw (d_request dl) (d_info dl)]) in
            let res :=
              as_result
                (if isFailure raw
                 then media_failed raw (d_request dl) info
                 else media_downloaded raw (d_request dl) info) in
            match d_chain dl with
            | None => s1
            | Some c => s_resolve res (c_fp c) (c_info c) s1
            end
        end
  end.

Definition s_step (s : Session) (inp : Input) : Session :=
  match inp with
  | InOpenSpider sp =>
      mkSession (Some (length (s_infos s)))
        (s_infos s ++ [SpiderInfo_init sp]) (s_downloads s) (s_next s)
        (s_loud s)
  | InProcessItem item => s_process_item item s
  | InDownloadDone k raw => s_download_done k raw s
  end.

Definition s_run (inputs : list Input) : Session :=
  foldl s_step (mkSession None [] [] 0 []) inputs.

Lemma shadow_evolves P σ σ' :
  evolves P σ σ' → 
  s_spiderinfo (shadow σ') = spiderinfo σ ∧ s_infos (shadow σ') = infos σ ∧
  s_downloads (shadow σ') = downloads σ ∧
  s_next (shadow σ') = length (deferreds σ).
Proof. intros (A1 & A2 & A3 & A4 & _). simpl. done. Qed.

Lemma shadow_fires σ σ' : fires σ σ' → shadow σ' = shadow σ.
Proof.
  intros Hf. pose proof (fires_loud _ _ Hf) as Hl.
  destruct Hf as (A1 & A2 & A3 & A4 & _). unfold shadow. congruence.
Qed.

Lemma shadow_resume_chain res c σ :
  shadow (resume_chain res c σ) = s_resolve res (c_fp c) (c_info c) (shadow σ).
Proof.
  pose proof (resume_chain_evolves res c σ) as (A1 & A2 & A3 & A4 & _).
  simpl in *. unfold shadow at 1.
  rewrite A1, A3, A4, resume_chain_loud, cache_loud, resume_chain_infos,
    cache_infos.
  unfold s_resolve. simpl.
  destruct (infos σ !! c_info c) as [info|];
    [|by rewrite app_nil_r].
  destruct (decide _); [done|]. by rewrite app_nil_r.
Qed.

Lemma shadow__process_request request i σ :
  shadow (_process_request request i σ).2 =
  s_process_request request i (shadow σ).
Proof.
  unfold s_process_request. simpl.
  destruct (infos σ !! i) as [info|] eqn:Hi.
  2:{ unfold _process_request. rewrite Hi. unfold shadow. simpl.
      rewrite length_app. simpl. by rewrite Nat.add_1_r. }
  destruct (downloaded info !! request_fingerprint request) as [cached|] eqn:Hc.
  { erewrite process_request_cached by done. unfold shadow. simpl.
    rewrite length_app, loud_app. simpl. rewrite Nat.add_1_r.
    f_equal. f_equal. unfold loud. rewrite filter_cons_True by done.
    f_equal. apply loud_quiet.
    unfold pair_events.
    destruct (isFailure cached); [destruct (eb_of request)|];
      repeat constructor. }
  destruct (decide (request_fingerprint request ∈ downloading info)) as [Hin|Hin].
  { erewrite process_request_inflight by done. unfold shadow. simpl.
    rewrite length_app, loud_app. simpl. by rewrite Nat.add_1_r. }
  erewrite process_request_new by done. unfold hook_result.
  assert (shadow (started request i info σ) =
          mkSession (spiderinfo σ)
            (<[i := downloading_add (request_fingerprint request)
                      (waiting_append (request_fingerprint request)
                         (length (deferreds σ)) info)]> (infos σ))
            (downloads σ) (S (S (length (deferreds σ))))
            (loud (log σ) ++
             [EvWaiting i (request_fingerprint request) (length (deferreds σ));
              EvMediaToDownload (detach request) i])) as Hs.
  { unfold shadow. simpl. rewrite length_app, loud_app. simpl.
    f_equal. lia. }
  destruct (as_result _) eqn:Hv; simpl.
  - unfold shadow. simpl. rewrite length_app, !loud_app. simpl.
    by replace (length (deferreds σ) + 2) with (S (S (length (deferreds σ))))
      by lia.
  - rewrite shadow_resume_chain. simpl. by rewrite Hs.
  - rewrite shadow_resume_chain. simpl. by rewrite Hs.
Qed.


Lemma shadow_process_requests requests i σ :
  shadow (process_requests requests i σ).2 =
  s_process_requests requests i (shadow σ).
Proof.
  revert σ. induction requests as [|r rest IH]; intros σ; simpl; [done|].
  pose proof (shadow__process_request r i σ) as H1.
  destruct (_process_request r i σ) as [[r' d] σ1]. simpl in H1.
  specialize (IH σ1).
  destruct (process_requests rest i σ1) as [ds σ2]. simpl in *.
  by rewrite IH, H1.
Qed.

Lemma shadow_DeferredList_new dlist σ :
  shadow (DeferredList_new dlist σ).2 = shadow σ.
Proof.
  unfold DeferredList_new. simpl.
  rewrite (shadow_fires _ _ (fires_add_slots _ _ _ _)).
  destruct (_ =? _); [|done].
  by rewrite (shadow_fires _ _ (fires_DeferredList_callback _ _)).
Qed.

Lemma shadow_add_item_completed j item i σ :
  shadow (add_item_completed j item i σ) = shadow σ.
Proof.
  unfold add_item_completed. destruct (dlists σ !! j) as [dl|]; [|done].
  destruct (dl_called dl); [|done].
  by rewrite (shadow_fires _ _ (fires_run_item_completed _ _ _ _)).
Qed.

Lemma shadow_process_item item σ :
  shadow (process_item item σ).2 = s_process_item item (shadow σ).
Proof.
  unfold process_item, s_process_item.
  change (s_spiderinfo (shadow σ)) with (spiderinfo σ).
  change (s_infos (shadow σ)) with (infos σ).
  destruct (spiderinfo σ) as [i|] eqn:Hsp; [|done].
  destruct (infos σ !! i) as [info|]; [|done].
  destruct (get_media_requests item info) as [x|f].
  2:{ unfold shadow. simpl. by rewrite loud_app, Hsp. }
  pose proof (shadow_process_requests (arg_to_iter x) i
                (emit (EvGetMediaRequests item i) σ)) as H1.
  destruct (process_requests _ _ _) as [dlist σ1]. simpl in H1.
  pose proof (shadow_DeferredList_new dlist σ1) as H2.
  destruct (DeferredList_new dlist σ1) as [dfd σ2]. cbn [snd] in *.
  rewrite shadow_add_item_completed, H2, H1. f_equal.
  unfold shadow. simpl. by rewrite loud_app, Hsp.
Qed.

Lemma shadow_download_done k raw σ :
  shadow (download_done k raw σ) = s_download_done k raw (shadow σ).
Proof.
  unfold download_done, s_download_done. simpl.
  destruct (downloads σ !! k) as [dl|]; [|done].
  destruct (d_called dl); [done|]. simpl.
  destruct (infos σ !! d_info dl) as [info|]; [|done].
  destruct (isFailure raw); (destruct (d_chain dl) as [c|];
    [rewrite shadow_resume_chain|]; unfold shadow; simpl;
    by rewrite loud_app).
Qed.

Lemma shadow_step σ inp : shadow (step σ inp) = s_step (shadow σ) inp.
Proof.
  destruct inp as [sp|item|k raw]; simpl.
  - done.
  - apply shadow_process_item.
  - apply shadow_download_done.
Qed.

Lemma shadow_run inputs : shadow (run inputs) = s_run inputs.
Proof.
  induction inputs as [|inp inputs IH] using rev_ind; [done|].
  rewrite run_snoc, shadow_step, IH. unfold s_run. by rewrite foldl_app.
Qed.

(** ** The atomic transitions of the session-level view *)

Definition s_emit (e : Event) (s : Session) : Session :=
  mkSession (s_spiderinfo s) (s_infos s) (s_downloads s) (s_next s)
    (s_loud s ++ [e]).

(** Events that carry no bookkeeping: a hook was called. *)
Definition note (e : Event) : bool :=
  match e with
  | EvGetMediaRequests _ _ | EvMediaDownloaded _ _ _ | EvMediaFailed _ _ _ =>
      true
  | _ => false
  end.

Inductive sstep : Session → Session → Prop :=
| st_open s sp :
    sstep s
      (mkSession (Some (length (s_infos s)))
         (s_infos s ++ [SpiderInfo_init sp]) (s_downloads s) (s_next s)
         (s_loud s))
| st_note s e : note e = true → sstep s (s_emit e s)
| st_alloc s :
    sstep s
      (mkSession (s_spiderinfo s) (s_infos s) (s_downloads s) (S (s_next s))
         (s_loud s))
| st_cached s i info fp cached :
    s_infos s !! i = Some info →
    downloaded info !! fp = Some cached →
    sstep s
      (mkSession (s_spiderinfo s) (s_infos s) (s_downloads s) (S (s_next s))
         (s_loud s ++ [EvCached i fp cached]))
| st_inflight s i info fp :
    s_infos s !! i = Some info →
    downloaded info !! fp = None →
    fp ∈ downloading info →
    sstep s
      (mkSession (s_spiderinfo s)
         (<[i := waiting_append fp (s_next s) info]> (s_infos s))
         (s_downloads s) (S (s_next s))
         (s_loud s ++ [EvWaiting i fp (s_next s)]))
| st_start s i info request :
    s_infos s !! i = Some info →
    downloaded info !! request_fingerprint request = None →
    request_fingerprint request ∉ downloading info →
    sstep s
      (mkSession (s_spiderinfo s)
         (<[i := downloading_add (request_fingerprint request)
                   (waiting_append (request_fingerprint request) (s_next s)
                      info)]> (s_infos s))
         (s_downloads s) (S (S (s_next s)))
         (s_loud s ++
          [EvWaiting i (request_fingerprint request) (s_next s);
           EvMediaToDownload (detach request) i]))
| st_fetch s i info request :
    s_infos s !! i = Some info →
    downloaded info !! request_fingerprint request = None →
    request_fingerprint request ∉ downloading info →
    sstep s
      (mkSession (s_spiderinfo s)
         (<[i := downloading_add (request_fingerprint request)
                   (waiting_append (request_fingerprint request) (s_next s)
                      info)]> (s_infos s))
         (s_downloads s ++
          [mkDownload (fetch_request request) i false
             (Some (mkContinuation (request_fingerprint request) i
                      (s_next s) (S (s_next s))))])
         (S (S (s_next s)))
         (s_loud s ++
          [EvWaiting i (request_fingerprint request) (s_next s);
           EvMediaToDownload (detach request) i;
           EvDownload (bool_decide (is_Some download_func))
             (fetch_request request) i]))
| st_resolve s res fp i : sstep s (s_resolve res fp i s)
| st_called s k dl :
    s_downloads s !! k = Some dl →
    d_called dl = false →
    sstep s
      (mkSession (s_spiderinfo s) (s_infos s)
         (<[k := mkDownload (d_request dl) (d_info dl) true (d_chain dl)]>
            (s_downloads s))
         (s_next s) (s_loud s)).

Definition ssteps : Session → Session → Prop := rtc sstep.

Lemma ssteps_process_request request i s :
  ssteps s (s_process_request request i s).
Proof.
  unfold s_process_request.
  destruct (s_infos s !! i) as [info|] eqn:Hi.
  2:{ apply rtc_once, st_alloc. }
  destruct (downloaded info !! request_fingerprint request) as [cached|] eqn:Hc.
  { eapply rtc_once, st_cached; eauto. }
  destruct (decide _) as [Hin|Hin].
  { eapply rtc_once. by apply st_inflight. }
  destruct (as_result _) eqn:Hv.
  - simpl. rewrite <- app_assoc. simpl.
    eapply rtc_once. by apply (st_fetch s i info request).
  - eapply rtc_l; [by apply (st_start s i info request)|].
    apply rtc_once, st_resolve.
  - eapply rtc_l; [by apply (st_start s i info request)|].
    apply rtc_once, st_resolve.
Qed.

Lemma ssteps_process_requests requests i s :
  ssteps s (s_process_requests requests i s).
Proof.
  unfold s_process_requests. revert s.
  induction requests as [|r rest IH]; intros s; simpl; [apply rtc_refl|].
  etrans; [apply ssteps_process_request|apply IH].
Qed.

Lemma ssteps_process_item item s : ssteps s (s_process_item item s).
Proof.
  unfold s_process_item.
  destruct (s_spiderinfo s) as [i|] eqn:Hsp; [|apply rtc_refl].
  destruct (s_infos s !! i) as [info|]; [|apply rtc_refl].
  rewrite <- Hsp.
  eapply rtc_l; [apply (st_note s (EvGetMediaRequests item i)); done|].
  destruct (get_media_requests item info); [|apply rtc_refl].
  apply ssteps_process_requests.
Qed.

Lemma ssteps_download_done k raw s : ssteps s (s_download_done k raw s).
Proof.
  unfold s_download_done.
  destruct (s_downloads s !! k) as [dl|] eqn:Hk; [|apply rtc_refl].
  destruct (d_called dl) eqn:Hc; [apply rtc_refl|].
  eapply rtc_l; [by eapply st_called|].
  destruct (s_infos s !! d_info dl) as [info|]; [|apply rtc_refl].
  eapply rtc_l.
  { apply (st_note _ (if isFailure raw
                      then EvMediaFailed raw (d_request dl) (d_info dl)
                      else EvMediaDownloaded raw (d_request dl) (d_info dl))).
    by destruct (isFailure raw). }
  destruct (d_chain dl) as [c|]; [|apply rtc_refl].
  apply rtc_once, st_resolve.
Qed.

Lemma ssteps_step s inp : ssteps s (s_step s inp).
Proof.
  destruct inp as [sp|item|k raw]; simpl.
  - apply rtc_once, st_open.
  - apply ssteps_process_item.
  - apply ssteps_download_done.
Qed.

Lemma ssteps_run inputs more : ssteps (s_run inputs) (s_run (inputs ++ more)).
Proof.
  unfold s_run. rewrite foldl_app. generalize (foldl s_step
    {| s_spiderinfo := None; s_infos := []; s_downloads := []; s_next := 0;
       s_loud := [] |} inputs).
  induction more as [|inp more IH]; intros s; simpl; [apply rtc_refl|].
  etrans; [apply ssteps_step|apply IH].
Qed.

(** An invariant of the atomic transitions holds after every history. *)
Lemma session_invariant (J : Session → Prop) inputs :
  J (mkSession None [] [] 0 []) →
  (∀ s s', J s → sstep s s' → J s') →
  J (shadow (run inputs)).
Proof.
  intros H0 Hstep. rewrite shadow_run.
  pose proof (ssteps_run [] inputs) as Hr. simpl in Hr.
  change (s_run []) with (mkSession None [] [] 0 []) in Hr.
  induction Hr; eauto.
Qed.

(** ** Counting the calls of the fetch collaborator *)

Definition count (P : Event → bool) (l : list Event) : nat :=
  length (filter (λ e, P e = true) l).

(** [media_to_download] was called for key [fp] in session [i]. *)
Definition is_mtd (i : nat) (fp : string) (e : Event) : bool :=
  match e with
  | EvMediaToDownload r j =>
      bool_decide (j = i ∧ request_fingerprint r = fp)
  | _ => false
  end.

(** The download collaborator was called for key [fp] in session [i]. *)
Definition is_download (i : nat) (fp : string) (e : Event) : bool :=
  match e with
  | EvDownload _ r j => bool_decide (j = i ∧ request_fingerprint r = fp)
  | _ => false
  end.

(** A call of [_process_request] for key [fp] in session [i]: it either
    serves the cached outcome or queues a waiter. *)
Definition is_submit (i : nat) (fp : string) (e : Event) : bool :=
  match e with
  | EvWaiting j fp' _ | EvCached j fp' _ => bool_decide (j = i ∧ fp' = fp)
  | _ => false
  end.

(** Key [fp] is in flight or cached in session [i]. *)
Definition seen (infos : list SpiderInfo) (i : nat) (fp : string) : bool :=
  match infos !! i with
  | Some info =>
      bool_decide (fp ∈ downloading info) ||
      bool_decide (is_Some (downloaded info !! fp))
  | None => false
  end.

Lemma count_app P l1 l2 : count P (l1 ++ l2) = count P l1 + count P l2.
Proof. unfold count. by rewrite filter_app, length_app. Qed.

Lemma count_cons P e l :
  count P (e :: l) = (if P e then 1 else 0) + count P l.
Proof.
  unfold count. destruct (P e) eqn:He.
  - by rewrite filter_cons_True.
  - rewrite filter_cons_False; [done|]. congruence.
Qed.

Lemma count_nil P : count P [] = 0.
Proof. done. Qed.

Lemma count_none P l : Forall (λ e, P e = false) l → count P l = 0.
Proof.
  induction 1 as [|e l He _ IH]; [done|]. by rewrite count_cons, He, IH.
Qed.

Lemma count_loud P l :
  (∀ e, quiet e = true → P e = false) → count P (loud l) = count P l.
Proof.
  intros HP. induction l as [|e l IH]; [done|].
  rewrite count_cons. unfold loud in *. destruct (quiet e) eqn:Hq.
  - rewrite filter_cons_False by congruence. rewrite IH, (HP e Hq). done.
  - rewrite filter_cons_True by done. by rewrite count_cons, IH.
Qed.

Lemma fingerprint_detach request :
  request_fingerprint (detach request) = request_fingerprint request.
Proof. done. Qed.

Lemma fingerprint_fetch_request request :
  request_fingerprint (fetch_request request) = request_fingerprint request.
Proof.
  unfold fetch_request, _modify_media_request.
  destruct download_func; [done|]. by destruct handle_httpstatus_list.
Qed.

(** Key [fp] is in flight or cached, in one session state. *)
Definition known (info : SpiderInfo) (fp : string) : bool :=
  bool_decide (fp ∈ downloading info) ||
  bool_decide (is_Some (downloaded info !! fp)).

Lemma seen_known infos i fp :
  seen infos i fp = from_option (λ info, known info fp) false (infos !! i).
Proof. unfold seen. by destruct (infos !! i). Qed.

Lemma seen_insert infos i info' j fp :
  i < length infos →
  seen (<[i := info']> infos) j fp =
  if decide (i = j) then known info' fp else seen infos j fp.
Proof.
  intros Hi. rewrite !seen_known. destruct (decide (i = j)) as [->|Hne].
  - by rewrite list_lookup_insert_eq.
  - by rewrite list_lookup_insert_ne.
Qed.

Lemma known_waiting_append fp w info fp0 :
  known (waiting_append fp w info) fp0 = known info fp0.
Proof. done. Qed.

Lemma known_start fp w info fp0 :
  known (downloading_add fp (waiting_append fp w info)) fp0 =
  if decide (fp0 = fp) then true else known info fp0.
Proof.
  unfold known. simpl. destruct (decide (fp0 = fp)) as [->|Hne].
  - rewrite bool_decide_eq_true_2; [done|].
    by apply elem_of_union_l, elem_of_singleton.
  - f_equal. apply bool_decide_ext. rewrite elem_of_union, elem_of_singleton.
    split; [by intros [?|?]|by right].
Qed.

Lemma known_resolve res fp info fp0 :
  fp ∈ downloading info →
  known (resolve_info res fp info) fp0 = known info fp0.
Proof.
  intros Hin. unfold known. simpl. destruct (decide (fp0 = fp)) as [->|Hne].
  - rewrite lookup_insert_eq.
    rewrite (bool_decide_eq_true_2 (is_Some (Some _))) by eauto.
    rewrite (bool_decide_eq_true_2 (fp ∈ downloading info)) by done.
    by rewrite orb_true_r.
  - rewrite lookup_insert_ne by done. f_equal. apply bool_decide_ext.
    rewrite elem_of_difference, elem_of_singleton.
    split; [by intros [? _]|done].
Qed.

Lemma known_false info fp :
  downloaded info !! fp = None → fp ∉ downloading info → known info fp = false.
Proof.
  intros Hc Hin. unfold known. rewrite Hc.
  rewrite bool_decide_eq_false_2 by done.
  rewrite bool_decide_eq_false_2; [done|]. by intros [? ?].
Qed.

Lemma known_cached info fp v :
  downloaded info !! fp = Some v → known info fp = true.
Proof.
  intros Hc. unfold known. rewrite Hc.
  rewrite (bool_decide_eq_true_2 (is_Some _)) by eauto. apply orb_true_r.
Qed.

Lemma known_inflight info fp : fp ∈ downloading info → known info fp = true.
Proof. intros Hin. unfold known. by rewrite bool_decide_eq_true_2. Qed.

(** The counters of the fetch collaborator agree with the session state. *)
Definition flight_inv (s : Session) : Prop :=
  ∀ i fp,
    count (is_mtd i fp) (s_loud s) = (if seen (s_infos s) i fp then 1 else 0) ∧
    (seen (s_infos s) i fp = false → count (is_submit i fp) (s_loud s) = 0) ∧
    count (is_download i fp) (s_loud s) ≤ count (is_mtd i fp) (s_loud s).


Lemma flight_inv_step s s' : flight_inv s → sstep s s' → flight_inv s'.
Proof.
  intros Hinv Hstep i0 fp0. destruct (Hinv i0 fp0) as (HM & HS & HD).
  inversion Hstep as
    [s0 sp|s0 e He|s0|s0 i info fp cached Hi Hc|s0 i info fp Hi Hc Hin
    |s0 i info request Hi Hc Hin|s0 i info request Hi Hc Hin|s0 res fp i
    |s0 k dl Hk Hcd]; subst; simpl.
  - (* open *)
    assert (seen (s_infos s ++ [SpiderInfo_init sp]) i0 fp0 =
            seen (s_infos s) i0 fp0) as ->; [|done].
    rewrite !seen_known. destruct (decide (i0 < length (s_infos s))).
    + by rewrite lookup_app_l.
    + rewrite (lookup_ge_None_2 (s_infos s)) by lia.
      destruct (decide (i0 = length (s_infos s))) as [->|].
      * by rewrite list_lookup_middle.
      * rewrite lookup_ge_None_2; [done|]. rewrite length_app. simpl. lia.
  - (* note *)
    rewrite !count_app, !count_cons, !count_nil.
    destruct e; try done; simpl; rewrite !Nat.add_0_r; done.
  - done.
  - (* cached *)
    rewrite !count_app, !count_cons, !count_nil. simpl.
    rewrite !Nat.add_0_r. split; [done|]. split; [|done].
    intros Hseen. case_bool_decide as Hd; [|rewrite ?Nat.add_0_r; auto].
    destruct Hd as [-> ->]. rewrite seen_known in Hseen.
    rewrite Hi in Hseen. simpl in Hseen.
    by erewrite known_cached in Hseen.
  - (* inflight *)
    rewrite !count_app, !count_cons, !count_nil. simpl.
    rewrite !Nat.add_0_r.
    rewrite seen_insert by by eapply lookup_lt_Some.
    rewrite known_waiting_append.
    assert ((if decide (i = i0) then known info fp0
             else seen (s_infos s) i0 fp0) = seen (s_infos s) i0 fp0) as ->.
    { destruct (decide (i = i0)) as [->|]; [|done].
      by rewrite seen_known, Hi. }
    split; [done|]. split; [|done].
    intros Hseen. case_bool_decide as Hd; [|rewrite ?Nat.add_0_r; auto].
    destruct Hd as [-> ->]. rewrite seen_known in Hseen.
    rewrite Hi in Hseen. simpl in Hseen.
    by rewrite known_inflight in Hseen.
  - (* start *)
    rewrite !count_app, !count_cons, !count_nil. simpl.
    rewrite !Nat.add_0_r, fingerprint_detach.
    rewrite seen_insert by by eapply lookup_lt_Some.
    rewrite known_start.
    destruct (decide (i = i0)) as [->|Hne].
    + destruct (decide (fp0 = request_fingerprint request)) as [->|Hfp].
      * rewrite bool_decide_eq_true_2 by done.
        assert (seen (s_infos s) i0 (request_fingerprint request) = false)
          as Hs.
        { rewrite seen_known, Hi. simpl. by apply known_false. }
        rewrite Hs in HM. rewrite HM in *. split; [done|]. split; [done|lia].
      * rewrite bool_decide_eq_false_2 by (intros [? ?]; congruence).
        rewrite seen_known, Hi in *. simpl in *.
        rewrite ?Nat.add_0_r. done.
    + rewrite bool_decide_eq_false_2 by (intros [? ?]; congruence).
      rewrite ?Nat.add_0_r. done.
  - (* fetch *)
    rewrite !count_app, !count_cons, !count_nil. simpl.
    rewrite !Nat.add_0_r, fingerprint_detach, fingerprint_fetch_request.
    rewrite seen_insert by by eapply lookup_lt_Some.
    rewrite known_start.
    destruct (decide (i = i0)) as [->|Hne].
    + destruct (decide (fp0 = request_fingerprint request)) as [->|Hfp].
      * rewrite bool_decide_eq_true_2 by done.
        assert (seen (s_infos s) i0 (request_fingerprint request) = false)
          as Hs.
        { rewrite seen_known, Hi. simpl. by apply known_false. }
        rewrite Hs in HM. rewrite HM in *. split; [done|]. split; [done|lia].
      * rewrite bool_decide_eq_false_2 by (intros [? ?]; congruence).
        rewrite seen_known, Hi in *. simpl in *.
        rewrite ?Nat.add_0_r. done.
    + rewrite bool_decide_eq_false_2 by (intros [? ?]; congruence).
      rewrite ?Nat.add_0_r. done.
  - (* resolve *)
    unfold s_resolve.
    destruct (s_infos s !! i) as [info|] eqn:Hi; [|done].
    destruct (decide (fp ∈ downloading info)) as [Hin|]; [|done]. simpl.
    rewrite seen_insert by by eapply lookup_lt_Some.
    rewrite known_resolve by done.
    assert ((if decide (i = i0) then known info fp0
             else seen (s_infos s) i0 fp0) = seen (s_infos s) i0 fp0) as ->.
    { destruct (decide (i = i0)) as [->|]; [|done].
      by rewrite seen_known, Hi. }
    rewrite !count_app.
    set (l := (λ w, EvNotify i fp w (sanitize res)) <$> _).
    assert (∀ P, (∀ w o, P (EvNotify i fp w o) = false) → count P l = 0)
      as Hl.
    { intros P HP. apply count_none, Forall_fmap, Forall_true.
      intros w. apply HP. }
    rewrite !Hl by done. by rewrite !Nat.add_0_r.
  - done.
Qed.


(** ** Every delivery carries the cached outcome *)

(** Outcome [o] was delivered for key [fp] in session [i]: to a waiter, or
    to a caller served from the cache. *)
Definition delivered (i : nat) (fp : string) (o : PyVal) (e : Event) : Prop :=
  (∃ w, e = EvNotify i fp w o) ∨ e = EvCached i fp o.

Definition outcome_inv (s : Session) : Prop :=
  Forall info_inv (s_infos s) ∧
  ∀ i fp o e, e ∈ s_loud s → delivered i fp o e →
    ∃ info, s_infos s !! i = Some info ∧ downloaded info !! fp = Some o.

Lemma info_inv_step s s' :
  Forall info_inv (s_infos s) → sstep s s' → Forall info_inv (s_infos s').
Proof.
  intros Hinv Hstep.
  inversion Hstep as
    [s0 sp|s0 e He|s0|s0 i info fp cached Hi Hc|s0 i info fp Hi Hc Hin
    |s0 i info request Hi Hc Hin|s0 i info request Hi Hc Hin|s0 res fp i
    |s0 k dl Hk Hcd]; subst; simpl; try done.
  - apply Forall_app. split; [done|]. constructor; [|done].
    apply info_inv_init.
  - apply Forall_insert; [done|]. apply info_inv_waiting_append; [|done].
    eapply Forall_lookup_1; eauto.
  - apply Forall_insert; [done|]. apply info_inv_start; [|done].
    eapply Forall_lookup_1; eauto.
  - apply Forall_insert; [done|]. apply info_inv_start; [|done].
    eapply Forall_lookup_1; eauto.
  - unfold s_resolve. destruct (s_infos s !! i) as [info|] eqn:Hi; [|done].
    destruct (decide _); [|done]. simpl.
    apply Forall_insert; [done|]. apply info_inv_resolve.
    eapply Forall_lookup_1; eauto.
Qed.

(** A transition never changes the outcome cached for a key. *)
Lemma cached_step s s' i info fp o :
  Forall info_inv (s_infos s) → sstep s s' →
  s_infos s !! i = Some info → downloaded info !! fp = Some o →
  ∃ info', s_infos s' !! i = Some info' ∧ downloaded info' !! fp = Some o.
Proof.
  intros Hinv Hstep Hi Hc.
  inversion Hstep as
    [s0 sp|s0 e He|s0|s0 i1 info1 fp1 cached Hi1 Hc1|s0 i1 info1 fp1 Hi1 Hc1 Hin
    |s0 i1 info1 request Hi1 Hc1 Hin|s0 i1 info1 request Hi1 Hc1 Hin
    |s0 res fp1 i1|s0 k dl Hk Hcd]; subst; simpl; eauto.
  - exists info. split; [|done]. apply lookup_app_l_Some. done.
  - destruct (decide (i1 = i)) as [->|Hne].
    + rewrite list_lookup_insert_eq by by eapply lookup_lt_Some.
      eexists. split; [done|]. simpl. congruence.
    + rewrite list_lookup_insert_ne by done. eauto.
  - destruct (decide (i1 = i)) as [->|Hne].
    + rewrite list_lookup_insert_eq by by eapply lookup_lt_Some.
      eexists. split; [done|]. simpl. congruence.
    + rewrite list_lookup_insert_ne by done. eauto.
  - destruct (decide (i1 = i)) as [->|Hne].
    + rewrite list_lookup_insert_eq by by eapply lookup_lt_Some.
      eexists. split; [done|]. simpl. congruence.
    + rewrite list_lookup_insert_ne by done. eauto.
  - unfold s_resolve. destruct (s_infos s !! i1) as [info1|] eqn:Hi1; [|eauto].
    destruct (decide _) as [Hin|]; [|eauto]. simpl.
    destruct (decide (i1 = i)) as [->|Hne].
    + rewrite list_lookup_insert_eq by by eapply lookup_lt_Some.
      eexists. split; [done|]. simpl.
      assert (info1 = info) as -> by congruence.
      destruct (decide (fp1 = fp)) as [->|Hfp].
      * pose proof (Forall_lookup_1 _ _ _ _ Hinv Hi) as [Hd _].
        apply Hd in Hin. congruence.
      * by rewrite lookup_insert_ne.
    + rewrite list_lookup_insert_ne by done. eauto.
Qed.

Lemma outcome_inv_step s s' : outcome_inv s → sstep s s' → outcome_inv s'.
Proof.
  intros [Hinv Hout] Hstep. split; [by eapply info_inv_step|].
  assert (∀ i fp o e, e ∈ s_loud s → delivered i fp o e →
            ∃ info, s_infos s' !! i = Some info ∧
                    downloaded info !! fp = Some o) as Hold.
  { intros i fp o e He Hd. destruct (Hout i fp o e He Hd) as (info & Hi & Hc).
    by eapply cached_step. }
  inversion Hstep as
    [s0 sp|s0 e He|s0|s0 i1 info1 fp1 cached Hi1 Hc1|s0 i1 info1 fp1 Hi1 Hc1 Hin
    |s0 i1 info1 request Hi1 Hc1 Hin|s0 i1 info1 request Hi1 Hc1 Hin
    |s0 res fp1 i1|s0 k dl Hk Hcd]; subst; simpl in *; try done.
  - intros i fp o e' [Hin|Hin%list_elem_of_singleton]%elem_of_app Hd; [eauto|].
    subst. destruct Hd as [[w ->]| ->]; done.
  - intros i fp o e' [Hin|Hin%list_elem_of_singleton]%elem_of_app Hd; [eauto|].
    subst. destruct Hd as [[w Hd]|Hd]; [done|]. injection Hd as -> -> ->.
    eauto.
  - intros i fp o e' [Hin'|Hin'%list_elem_of_singleton]%elem_of_app Hd;
      [eauto|].
    subst. destruct Hd as [[w Hd]|Hd]; done.
  - intros i fp o e' [Hin'|Hin']%elem_of_app Hd; [eauto|].
    exfalso. destruct Hd as [[w ->]| ->];
      repeat (apply elem_of_cons in Hin' as [?|Hin']; [done|]);
      by apply elem_of_nil in Hin'.
  - intros i fp o e' [Hin'|Hin']%elem_of_app Hd; [eauto|].
    exfalso. destruct Hd as [[w ->]| ->];
      repeat (apply elem_of_cons in Hin' as [?|Hin']; [done|]);
      by apply elem_of_nil in Hin'.
  - unfold s_resolve in *.
    destruct (s_infos s !! i1) as [info1|] eqn:Hi1; [|done].
    destruct (decide _) as [Hin|]; [|done]. simpl in *.
    intros i fp o e' [Hin'|Hin']%elem_of_app Hd; [eauto|].
    apply list_elem_of_fmap in Hin' as (w & -> & _).
    destruct Hd as [[w' Hd]|Hd]; [|done]. injection Hd as -> -> _ <-.
    rewrite list_lookup_insert_eq by by eapply lookup_lt_Some.
    eexists. split; [done|]. simpl. apply lookup_insert_eq.
Qed.


(** ** Waiters are notified in the order of their arrival *)

Definition waiter_of (i : nat) (fp : string) (e : Event) : option nat :=
  match e with
  | EvWaiting j fp' w =>
      if bool_decide (j = i ∧ fp' = fp) then Some w else None
  | _ => None
  end.

Definition notified_of (i : nat) (fp : string) (e : Event) : option nat :=
  match e with
  | EvNotify j fp' w _ =>
      if bool_decide (j = i ∧ fp' = fp) then Some w else None
  | _ => None
  end.

(** The waiters queued for key [fp] in session [i], in the order of the
    [append] calls, and those notified, in the order of the notifications. *)
Definition enqueued (i : nat) (fp : string) (l : list Event) : list nat :=
  omap (waiter_of i fp) l.

Definition notified (i : nat) (fp : string) (l : list Event) : list nat :=
  omap (notified_of i fp) l.

(** [info.waiting[fp]], empty when there is no entry. *)
Definition queue (infos : list SpiderInfo) (i : nat) (fp : string)
    : list nat :=
  match infos !! i with
  | Some info => default [] (waiting info !! fp)
  | None => []
  end.

Definition fifo_inv (s : Session) : Prop :=
  ∀ i fp,
    enqueued i fp (s_loud s) =
    notified i fp (s_loud s) ++ queue (s_infos s) i fp.

Lemma queue_insert infos i info' j fp :
  i < length infos →
  queue (<[i := info']> infos) j fp =
  if decide (i = j) then default [] (waiting info' !! fp)
  else queue infos j fp.
Proof.
  intros Hi. unfold queue. destruct (decide (i = j)) as [->|Hne].
  - by rewrite list_lookup_insert_eq.
  - by rewrite list_lookup_insert_ne.
Qed.

Lemma queue_snoc infos sp j fp :
  queue (infos ++ [SpiderInfo_init sp]) j fp = queue infos j fp.
Proof.
  unfold queue. destruct (decide (j < length infos)).
  - by rewrite lookup_app_l.
  - rewrite (lookup_ge_None_2 infos) by lia.
    destruct (decide (j = length infos)) as [->|].
    + by rewrite list_lookup_middle.
    + rewrite lookup_ge_None_2; [done|]. rewrite length_app. simpl. lia.
Qed.

Lemma omap_snoc {A B} (f : A → option B) l x :
  omap f (l ++ [x]) = omap f l ++ option_list (f x).
Proof. rewrite omap_app. simpl. by destruct (f x). Qed.

Lemma waiting_append_queue fp w info fp0 :
  default [] (waiting (waiting_append fp w info) !! fp0) =
  default [] (waiting info !! fp0) ++ (if decide (fp0 = fp) then [w] else []).
Proof.
  simpl. destruct (decide (fp0 = fp)) as [->|Hne].
  - by rewrite lookup_insert_eq.
  - rewrite lookup_insert_ne by done. by rewrite app_nil_r.
Qed.

Lemma fifo_enqueue s i info fp w l :
  fifo_inv s → s_infos s !! i = Some info →
  (∀ i0 fp0, notified i0 fp0 l = []) →
  (∀ i0 fp0, enqueued i0 fp0 l =
             if bool_decide (i = i0 ∧ fp = fp0) then [w] else []) →
  ∀ info', waiting info' = waiting (waiting_append fp w info) →
  ∀ i0 fp0,
    enqueued i0 fp0 (s_loud s ++ l) =
    notified i0 fp0 (s_loud s ++ l) ++
    queue (<[i := info']> (s_infos s)) i0 fp0.
Proof.
  intros Hinv Hi Hn He info' Hw i0 fp0.
  pose proof (Hinv i0 fp0) as Hq.
  unfold enqueued, notified in *. rewrite !omap_app, Hn, He, app_nil_r.
  rewrite queue_insert by by eapply lookup_lt_Some.
  rewrite Hq. rewrite Hw, waiting_append_queue.
  destruct (decide (i = i0)) as [->|Hne].
  - unfold queue. rewrite Hi, <- app_assoc. f_equal. f_equal.
    destruct (decide (fp0 = fp)) as [->|Hfp].
    + by rewrite bool_decide_eq_true_2.
    + rewrite bool_decide_eq_false_2; [done|]. intros [_ ?]. congruence.
  - rewrite bool_decide_eq_false_2; [by rewrite app_nil_r|].
    intros [? _]. congruence.
Qed.

Lemma omap_waiter_notify i fp j fp' o (l : list nat) :
  omap (waiter_of i fp) ((λ w, EvNotify j fp' w o) <$> l) = [].
Proof. induction l as [|w l IH]; [done|]. csimpl. by rewrite IH. Qed.

Lemma omap_notified_notify i fp j fp' o (l : list nat) :
  omap (notified_of i fp) ((λ w, EvNotify j fp' w o) <$> l) =
  if bool_decide (j = i ∧ fp' = fp) then l else [].
Proof.
  induction l as [|w l IH]; csimpl; [by case_bool_decide|].
  rewrite IH. by case_bool_decide.
Qed.

Lemma fifo_inv_step s s' : fifo_inv s → sstep s s' → fifo_inv s'.
Proof.
  intros Hinv Hstep.
  inversion Hstep as
    [s0 sp|s0 e He|s0|s0 i1 info1 fp1 cached Hi1 Hc1|s0 i1 info1 fp1 Hi1 Hc1 Hin
    |s0 i1 info1 request Hi1 Hc1 Hin|s0 i1 info1 request Hi1 Hc1 Hin
    |s0 res fp1 i1|s0 k dl Hk Hcd]; subst; unfold fifo_inv; simpl;
    try done.
  - intros i fp. rewrite queue_snoc. apply Hinv.
  - intros i fp. unfold enqueued, notified. rewrite !omap_snoc.
    destruct e; try done; simpl; rewrite !app_nil_r; apply Hinv.
  - intros i fp. unfold enqueued, notified. rewrite !omap_snoc. simpl.
    rewrite !app_nil_r. apply Hinv.
  - eapply fifo_enqueue; try done.
    intros i0 fp0. unfold enqueued. simpl. repeat case_bool_decide; done.
  - eapply fifo_enqueue; try done.
    intros i0 fp0. unfold enqueued. simpl. repeat case_bool_decide; done.
  - eapply fifo_enqueue; try done.
    intros i0 fp0. unfold enqueued. simpl. repeat case_bool_decide; done.
  - unfold s_resolve.
    destruct (s_infos s !! i1) as [info1|] eqn:Hi1; [|done].
    destruct (decide _) as [Hin|]; [|done]. simpl.
    intros i fp. pose proof (Hinv i fp) as Hq.
    unfold enqueued, notified in *. rewrite !omap_app.
    rewrite queue_insert by by eapply lookup_lt_Some.
    rewrite Hq.
    rewrite omap_waiter_notify, omap_notified_notify.
    rewrite app_nil_r, <- app_assoc. f_equal.
    destruct (decide (i1 = i)) as [->|Hne].
    + unfold queue. rewrite Hi1. simpl.
      destruct (decide (fp1 = fp)) as [->|Hfp].
      * rewrite bool_decide_eq_true_2 by done.
        by rewrite lookup_delete_eq, app_nil_r.
      * rewrite bool_decide_eq_false_2 by (intros [_ ?]; congruence).
        by rewrite lookup_delete_ne.
    + by rewrite bool_decide_eq_false_2 by (intros [? _]; congruence).
Qed.

(** ** From the session-level view back to worlds *)

Lemma omap_loud {B} (f : Event → option B) l :
  (∀ e, quiet e = true → f e = None) → omap f (loud l) = omap f l.
Proof.
  intros Hf. induction l as [|e l IH]; [done|].
  unfold loud in *. destruct (quiet e) eqn:Hq.
  - rewrite filter_cons_False by congruence. csimpl. by rewrite IH, (Hf e Hq).
  - rewrite filter_cons_True by done. csimpl. by rewrite IH.
Qed.

Lemma enqueued_loud i fp l : enqueued i fp (loud l) = enqueued i fp l.
Proof. apply omap_loud. by intros []. Qed.

Lemma notified_loud i fp l : notified i fp (loud l) = notified i fp l.
Proof. apply omap_loud. by intros []. Qed.

Lemma is_mtd_loud i fp l : count (is_mtd i fp) (loud l) = count (is_mtd i fp) l.
Proof. apply count_loud. by intros []. Qed.

Lemma is_download_loud i fp l :
  count (is_download i fp) (loud l) = count (is_download i fp) l.
Proof. apply count_loud. by intros []. Qed.

Lemma is_submit_loud i fp l :
  count (is_submit i fp) (loud l) = count (is_submit i fp) l.
Proof. apply count_loud. by intros []. Qed.

Lemma delivered_loud i fp o e l :
  e ∈ l → delivered i fp o e → e ∈ loud l.
Proof.
  intros He Hd. apply list_elem_of_filter. split; [|done].
  by destruct Hd as [[w ->]| ->].
Qed.

Lemma flight_inv_run inputs : flight_inv (shadow (run inputs)).
Proof.
  apply session_invariant.
  - intros i fp. unfold seen. simpl. repeat split; done.
  - apply flight_inv_step.
Qed.

Lemma outcome_inv_run inputs : outcome_inv (shadow (run inputs)).
Proof.
  apply session_invariant.
  - split; [by constructor|]. simpl. intros i fp o e He.
    by apply elem_of_nil in He.
  - apply outcome_inv_step.
Qed.

Lemma fifo_inv_run inputs : fifo_inv (shadow (run inputs)).
Proof.
  apply session_invariant.
  - intros i fp. unfold queue. simpl. done.
  - apply fifo_inv_step.
Qed.



(** ** After a key has resolved *)

Lemma fetches_step s s' i info fp o :
  sstep s s' →
  s_infos s !! i = Some info → downloaded info !! fp = Some o →
  count (is_mtd i fp) (s_loud s') = count (is_mtd i fp) (s_loud s) ∧
  count (is_download i fp) (s_loud s') = count (is_download i fp) (s_loud s).
Proof.
  intros Hstep Hi Hc.
  inversion Hstep as
    [s0 sp|s0 e He|s0|s0 i1 info1 fp1 cached Hi1 Hc1|s0 i1 info1 fp1 Hi1 Hc1 Hin
    |s0 i1 info1 request Hi1 Hc1 Hin|s0 i1 info1 request Hi1 Hc1 Hin
    |s0 res fp1 i1|s0 k dl Hk Hcd]; subst; simpl; try done.
  - rewrite !count_app, !count_cons, !count_nil.
    destruct e; try done; simpl; lia.
  - rewrite !count_app, !count_cons, !count_nil. simpl. lia.
  - rewrite !count_app, !count_cons, !count_nil. simpl. lia.
  - rewrite !count_app, !count_cons, !count_nil. simpl.
    rewrite fingerprint_detach.
    rewrite bool_decide_eq_false_2; [lia|]. intros [-> <-]. congruence.
  - rewrite !count_app, !count_cons, !count_nil. simpl.
    rewrite fingerprint_detach, fingerprint_fetch_request.
    rewrite bool_decide_eq_false_2; [lia|]. intros [-> <-]. congruence.
  - unfold s_resolve. destruct (s_infos s !! i1) as [info1|]; [|done].
    destruct (decide _); [|done]. simpl. rewrite !count_app.
    set (l := (λ w, EvNotify i1 fp1 w (sanitize res)) <$> _).
    assert (∀ P, (∀ w o, P (EvNotify i1 fp1 w o) = false) → count P l = 0)
      as Hl.
    { intros P HP. apply count_none, Forall_fmap, Forall_true.
      intros w. apply HP. }
    rewrite !Hl by done. lia.
Qed.

Lemma cached_steps s s' i info fp o :
  ssteps s s' → Forall info_inv (s_infos s) →
  s_infos s !! i = Some info → downloaded info !! fp = Some o →
  (∃ info', s_infos s' !! i = Some info' ∧ downloaded info' !! fp = Some o) ∧
  count (is_mtd i fp) (s_loud s') = count (is_mtd i fp) (s_loud s) ∧
  count (is_download i fp) (s_loud s') = count (is_download i fp) (s_loud s).
Proof.
  intros Hsteps. revert info.
  induction Hsteps as [s|s s1 s2 Hstep Hsteps IH]; intros info Hinv Hi Hc.
  { eauto. }
  destruct (cached_step s s1 i info fp o Hinv Hstep Hi Hc) as (info1 & Hi1 & Hc1).
  destruct (fetches_step s s1 i info fp o Hstep Hi Hc) as [HM HD].
  destruct (IH info1 (info_inv_step s s1 Hinv Hstep) Hi1 Hc1) as (? & HM' & HD').
  split; [done|]. split; congruence.
Qed.

(** C2: once a key has an outcome in the cache of a session, then after
    any further inputs it is still cached with that outcome, and neither
    [media_to_download] nor the download collaborator has been called again
    for it; a [_process_request] for the key then returns a deferred that
    already holds the result of the caller's callbacks on the cached
    outcome (a cached failure goes to the errback and, without one, comes
    back as it is), changes neither the session state nor the downloads,
    and logs only the delivery and those callbacks. *)
Theorem cache_correctness inputs more i info fp outcome request :
  infos (run inputs) !! i = Some info →
  downloaded info !! fp = Some outcome →
  request_fingerprint request = fp →
  let σ := run (inputs ++ more) in
  let σ' := (_process_request request i σ).2 in
  let d := (_process_request request i σ).1.2 in
  (∃ info', infos σ !! i = Some info' ∧
            downloaded info' !! fp = Some outcome) ∧
  count (is_mtd i fp) (log σ) = count (is_mtd i fp) (log (run inputs)) ∧
  count (is_download i fp) (log σ) =
    count (is_download i fp) (log (run inputs)) ∧
  deferreds σ' !! d =
    Some (mkDeferred true
            (pair_result (cb_of request) (eb_of request) outcome) []) ∧
  (isFailure outcome = true → errback request = None →
   pair_result (cb_of request) (eb_of request) outcome = outcome) ∧
  infos σ' = infos σ ∧ downloads σ' = downloads σ ∧
  log σ' =
    log σ ++ EvCached i fp outcome ::
      pair_events (cb_of request) (eb_of request) outcome.
Proof.
  intros Hi Hc Hfp σ σ' d.
  pose proof (ssteps_run inputs more) as Hsteps.
  rewrite <- !shadow_run in Hsteps.
  destruct (cached_steps _ _ i info fp outcome Hsteps (infos_inv_run inputs)
              Hi Hc) as ((info' & Hi' & Hc') & HM & HD).
  simpl in *. rewrite !is_mtd_loud in HM. rewrite !is_download_loud in HD.
  fold σ in Hi', HM, HD.
  split; [eauto|]. split; [done|]. split; [done|].
  subst σ' d. rewrite <- Hfp in Hc'.
  rewrite (process_request_cached request i σ info' outcome Hi' Hc'). simpl.
  rewrite Hfp. split; [apply lookup_snoc|]. split; [|done].
  intros Hf Heb. unfold pair_result, eb_of. by rewrite Hf, Heb.
Qed.

(** C9: [open_spider] makes a new [SpiderInfo] the current one: an object
    that did not exist before, with empty [downloading], [downloaded] and
    [waiting], for which nothing was ever submitted or fetched; and any key
    that is later in flight or cached in it has had its own
    [media_to_download] call in that session. *)
Theorem session_isolation inputs sp :
  let σ := run (inputs ++ [InOpenSpider sp]) in
  ∃ i,
    spiderinfo σ = Some i ∧
    infos (run inputs) !! i = None ∧
    infos σ !! i = Some (SpiderInfo_init sp) ∧
    (∀ fp, count (is_mtd i fp) (log σ) = 0 ∧
           count (is_submit i fp) (log σ) = 0) ∧
    ∀ more info fp,
      infos (run (inputs ++ [InOpenSpider sp] ++ more)) !! i = Some info →
      known info fp = true →
      count (is_mtd i fp) (log (run (inputs ++ [InOpenSpider sp] ++ more))) = 1.
Proof.
  intros σ. exists (length (infos (run inputs))). subst σ.
  rewrite run_snoc. simpl.
  split; [done|]. split; [by apply lookup_ge_None_2|].
  split; [by rewrite list_lookup_middle|]. split.
  - intros fp.
    pose proof (flight_inv_run inputs (length (infos (run inputs))) fp)
      as (HM & HS & _).
    simpl in *. rewrite is_mtd_loud in HM. rewrite is_submit_loud in HS.
    assert (seen (infos (run inputs)) (length (infos (run inputs))) fp = false)
      as Hs.
    { rewrite seen_known, lookup_ge_None_2; [done|lia]. }
    rewrite Hs in *. auto.
  - intros more info fp Hi Hk.
    pose proof (flight_inv_run (inputs ++ [InOpenSpider sp] ++ more)
                  (length (infos (run inputs))) fp) as (HM & _ & _).
    simpl in HM. rewrite is_mtd_loud in HM.
    by rewrite seen_known, Hi in HM; simpl in HM; rewrite Hk in HM.
Qed.

(** ** A new key *)

(** C8: for a key that is neither cached nor in flight, [_process_request]
    calls [media_to_download] and continues with what it gave (an exception
    counts as the failure built from it).  When that is [None], the
    download collaborator is called, its deferred is recorded with the rest
    of the chain, and the key stays in flight.  When it is anything else,
    no download is started and no download event is logged: the outcome
    (sanitized, when a failure) is cached, the key leaves [downloading] and
    [waiting], every queued waiter is notified with it and the returned
    deferred has fired. *)
Theorem pre_fetch_short_circuit request i σ info :
  infos σ !! i = Some info →
  downloaded info !! request_fingerprint request = None →
  request_fingerprint request ∉ downloading info →
  let fp := request_fingerprint request in
  let wad := length (deferreds σ) in
  let σ' := (_process_request request i σ).2 in
  match hook_result request info σ with
  | VNone =>
      (∃ info', infos σ' !! i = Some info' ∧ fp ∈ downloading info' ∧
                downloaded info' !! fp = None) ∧
      downloads σ' =
        downloads σ ++
        [mkDownload (fetch_request request) i false
           (Some (chain_of request i σ))] ∧
      loud (log σ') =
        loud (log σ) ++
        [EvWaiting i fp wad; EvMediaToDownload (detach request) i;
         EvDownload (bool_decide (is_Some download_func))
           (fetch_request request) i]
  | v =>
      (∃ info', infos σ' !! i = Some info' ∧ (fp ∉ downloading info') ∧
                downloaded info' !! fp = Some (sanitize v) ∧
                waiting info' !! fp = None) ∧
      downloads σ' = downloads σ ∧
      (loud (log σ') =
         loud (log σ) ++
         [EvWaiting i fp wad; EvMediaToDownload (detach request) i] ++
         ((λ w, EvNotify i fp w (sanitize v)) <$> queue_of request info σ)) ∧
      Forall (λ w, w < length (deferreds σ') → is_called σ' w)
        (queue_of request info σ) ∧
      is_called σ' (_process_request request i σ).1.2
  end.
Proof.
  intros Hi Hc Hin fp wad σ'.
  assert (∀ v, hook_result request info σ = v → v ≠ VNone →
    (∃ info', infos σ' !! i = Some info' ∧ (fp ∉ downloading info') ∧
              downloaded info' !! fp = Some (sanitize v) ∧
              waiting info' !! fp = None) ∧
    downloads σ' = downloads σ ∧
    (loud (log σ') =
       loud (log σ) ++
       [EvWaiting i fp wad; EvMediaToDownload (detach request) i] ++
       ((λ w, EvNotify i fp w (sanitize v)) <$> queue_of request info σ)) ∧
    Forall (λ w, w < length (deferreds σ') → is_called σ' w)
      (queue_of request info σ) ∧
    is_called σ' (_process_request request i σ).1.2) as Hshort.
  { intros v Hv Hne. subst σ'.
    rewrite (process_request_short request i σ info Hi Hc Hin) by congruence.
    simpl. rewrite Hv.
    destruct (short_circuit_resolved request i σ info Hi Hc Hin)
      as (Hinfos & Hdl & _ & _ & Hloud & Hcalled & Hd).
    rewrite Hv in *. fold fp wad in Hinfos, Hloud.
    split; [|done].
    rewrite Hinfos. eexists. split.
    { apply list_lookup_insert_eq. by eapply lookup_lt_Some. }
    simpl. split; [|split].
    - intros [_ Hn]%elem_of_difference. apply Hn. by apply elem_of_singleton.
    - apply lookup_insert_eq.
    - apply lookup_delete_eq. }
  destruct (hook_result request info σ) eqn:Hv.
  - subst σ'.
    rewrite (process_request_fetch request i σ info Hi Hc Hin Hv). simpl.
    split; [|split; [done|]].
    + eexists. split.
      { apply list_lookup_insert_eq. by eapply lookup_lt_Some. }
      simpl. split; [|done]. by apply elem_of_union_l, elem_of_singleton.
    + rewrite !loud_app. simpl. by rewrite <- app_assoc.
  - by apply Hshort.
  - by apply Hshort.
Qed.


(** ** The caller's callbacks *)

Lemma fetch_request_detached request :
  callback (fetch_request request) = None ∧
  errback (fetch_request request) = None.
Proof.
  unfold fetch_request, _modify_media_request.
  destruct download_func; [done|]. by destruct handle_httpstatus_list.
Qed.

(** Firing a waiter that holds one pair of callbacks runs that pair. *)
Lemma waiter_fired wad cb eb outcome σ :
  deferreds σ !! wad = Some (mkDeferred false VNone [CbPair cb eb]) →
  log (Deferred_callback wad outcome σ) = log σ ++ pair_events cb eb outcome ∧
  deferreds (Deferred_callback wad outcome σ) !! wad =
    Some (mkDeferred true (pair_result cb eb outcome) []).
Proof.
  intros Hw. unfold Deferred_callback, run_deferred. rewrite Hw. simpl.
  rewrite run_pair_eq. unfold set_result. simpl.
  assert (wad < length (deferreds σ)) as Hlt by by eapply lookup_lt_Some.
  rewrite list_lookup_insert_eq by done. simpl.
  split; [done|]. rewrite list_lookup_insert_eq; [done|].
  by rewrite length_insert.
Qed.

(** The events that hand a request to the fetch collaborator carry no
    callbacks. *)
Definition handed_detached (e : Event) : Prop :=
  match e with
  | EvMediaToDownload r _ | EvDownload _ r _ =>
      callback r = None ∧ errback r = None
  | _ => True
  end.

(** C10: every call of [_process_request] leaves the request without
    callback and errback (its fingerprint unchanged); the requests it hands
    to [media_to_download] and to the download collaborator carry none
    either; the detached pair is run at once on a cached outcome, or sits
    on the waiter the call has queued for the key, also when the key was
    already in flight for another caller; and when such a waiter is fired,
    it is that pair which runs on the outcome. *)
Theorem callback_detachment request i σ info :
  infos σ !! i = Some info →
  let fp := request_fingerprint request in
  let wad := length (deferreds σ) in
  let request' := (_process_request request i σ).1.1 in
  let σ' := (_process_request request i σ).2 in
  callback request' = None ∧ errback request' = None ∧
  request_fingerprint request' = fp ∧
  (∃ new, log σ' = log σ ++ new ∧ Forall handed_detached new) ∧
  Forall (λ dl, callback (d_request dl) = None ∧
                errback (d_request dl) = None)
    (drop (length (downloads σ)) (downloads σ')) ∧
  match downloaded info !! fp with
  | Some cached =>
      log σ' =
        log σ ++ EvCached i fp cached ::
          pair_events (cb_of request) (eb_of request) cached
  | None =>
      if decide (fp ∈ downloading info) then
        deferreds σ' !! wad =
          Some (mkDeferred false VNone
                  [CbPair (cb_of request) (eb_of request)]) ∧
        queue (infos σ') i fp = queue (infos σ) i fp ++ [wad]
      else
        match hook_result request info σ with
        | VNone =>
            deferreds σ' !! wad =
              Some (mkDeferred false VNone
                      [CbPair (cb_of request) (eb_of request)]) ∧
            queue (infos σ') i fp = queue (infos σ) i fp ++ [wad]
        | v =>
            waiting info !! fp = None →
            log σ' =
              log σ ++
              [EvWaiting i fp wad; EvMediaToDownload (detach request) i;
               EvNotify i fp wad (sanitize v)] ++
              pair_events (cb_of request) (eb_of request) (sanitize v)
        end
  end ∧
  ∀ σ2 outcome,
    deferreds σ2 !! wad =
      Some (mkDeferred false VNone [CbPair (cb_of request) (eb_of request)]) →
    log (Deferred_callback wad outcome σ2) =
      log σ2 ++ pair_events (cb_of request) (eb_of request) outcome.
Proof.
  intros Hi fp wad request' σ'.
  assert (i < length (infos σ)) as Hlt by by eapply lookup_lt_Some.
  assert (∀ σ2 outcome,
    deferreds σ2 !! wad =
      Some (mkDeferred false VNone [CbPair (cb_of request) (eb_of request)]) →
    log (Deferred_callback wad outcome σ2) =
      log σ2 ++ pair_events (cb_of request) (eb_of request) outcome) as Hfire.
  { intros σ2 outcome Hw. by apply waiter_fired. }
  assert (∀ l : list Download, drop (length l) l = []) as Hdrop.
  { intros l. by apply drop_all. }
  destruct (downloaded info !! fp) as [cached|] eqn:Hc.
  { subst request' σ'. rewrite (process_request_cached request i σ info cached)
      by done. simpl. rewrite Hdrop.
    repeat split; try done. eexists. split; [done|].
    constructor; [done|]. unfold pair_events.
    destruct (isFailure cached); [destruct (eb_of request)|];
      repeat constructor. }
  destruct (decide (fp ∈ downloading info)) as [Hin|Hin].
  { subst request' σ'. rewrite (process_request_inflight request i σ info)
      by done. simpl. rewrite Hdrop.
    repeat split; try done.
    - eexists. split; [done|]. by repeat constructor.
    - apply lookup_snoc.
    - unfold queue. rewrite list_lookup_insert_eq by done. rewrite Hi. simpl.
      by rewrite lookup_insert_eq. }
  destruct (fetch_request_detached request) as [Hf1 Hf2].
  subst request' σ'.
  rewrite (process_request_new request i σ info) by done.
  assert (∀ v,
    (∃ new,
       log (resume_chain v (chain_of request i σ) (started request i info σ))
       = log σ ++ new ∧ Forall handed_detached new) ∧
    Forall (λ dl, callback (d_request dl) = None ∧
                  errback (d_request dl) = None)
      (drop (length (downloads σ))
         (downloads (resume_chain v (chain_of request i σ)
                       (started request i info σ)))) ∧
    (waiting info !! fp = None →
     log (resume_chain v (chain_of request i σ) (started request i info σ)) =
     log σ ++
     [EvWaiting i fp wad; EvMediaToDownload (detach request) i;
      EvNotify i fp wad (sanitize v)] ++
     pair_events (cb_of request) (eb_of request) (sanitize v))) as Hshort.
  { intros v.
    pose proof (resume_chain_evolves v (chain_of request i σ)
                  (started request i info σ))
      as (_ & _ & Hdl & _ & _ & _ & l & Hlog & Hl).
    simpl in Hdl, Hlog. split; [|split].
    - rewrite Hlog, <- app_assoc. eexists. split; [done|].
      apply Forall_app. split; [by repeat constructor|].
      eapply Forall_impl; [exact Hl|]. by intros [].
    - by rewrite Hdl, Hdrop.
    - intros Hw. by rewrite (short_circuit_world request i σ info v Hi Hw). }
  destruct (hook_result request info σ) eqn:Hv; simpl.
  - rewrite fingerprint_fetch_request, drop_app_length.
    repeat split; try done.
    + rewrite <- app_assoc. eexists. split; [done|]. by repeat constructor.
    + by repeat constructor.
    + apply lookup_snoc2_0.
    + unfold queue. rewrite list_lookup_insert_eq by done. rewrite Hi. simpl.
      by rewrite lookup_insert_eq.
  - destruct (Hshort (VObj payload)) as (? & ? & ?). repeat split; done.
  - destruct (Hshort (VFailure f)) as (? & ? & ?). repeat split; done.
Qed.

(** ** Firing deferreds, exactly *)

(** An uncalled deferred with the given callbacks. *)
Definition pending_def (σ : World) (d : nat) (cbs : list Callback) : Prop :=
  deferreds σ !! d = Some (mkDeferred false VNone cbs).

(** What the completion of a [DeferredList] logs: the call of
    [item_completed] and the errors that logs. *)
Definition completion_events (j : nat) (dl : DeferredList)
    (infos : list SpiderInfo) : list Event :=
  match dl_callback dl with
  | None => []
  | Some cbk =>
      match infos !! cbk.2 with
      | None => []
      | Some info =>
          EvItemCompleted j (resultList dl) cbk.1 cbk.2 ::
          (EvLogError <$> (item_completed (resultList dl) cbk.1 info).1)
      end
  end.

Lemma emit_errors_log msgs σ :
  emit_errors msgs σ =
  mkWorld (spiderinfo σ) (infos σ) (deferreds σ) (dlists σ) (downloads σ)
    (log σ ++ (EvLogError <$> msgs)).
Proof.
  unfold emit_errors. revert σ.
  induction msgs as [|m msgs IH]; intros σ; simpl.
  { destruct σ. simpl. by rewrite app_nil_r. }
  rewrite IH. simpl. by rewrite <- app_assoc.
Qed.

(** The slot record after [_cbDeferred] stored an entry in it. *)
Definition fill (k : nat) (e : bool * PyVal) (dl : DeferredList)
    : DeferredList :=
  {| resultList := <[k := Some e]> (resultList dl);
     finishedCount := S (finishedCount dl);
     dl_called :=
       dl_called dl || (S (finishedCount dl) =? length (resultList dl));
     dl_callback := dl_callback dl |}.

(** What a fill logs: the completion, when this fill completes the list. *)
Definition fill_events (j k : nat) (e : bool * PyVal) (dl : DeferredList)
    (infos : list SpiderInfo) : list Event :=
  if dl_called dl then []
  else if S (finishedCount dl) =? length (resultList dl)
       then completion_events j (fill k e dl) infos
       else [].

Lemma cbDeferred_eq j k v ok σ dl :
  dlists σ !! j = Some dl →
  _cbDeferred j k v ok σ =
  (if ok then v else VNone,
   mkWorld (spiderinfo σ) (infos σ) (deferreds σ)
     (<[j := fill k (ok, v) dl]> (dlists σ)) (downloads σ)
     (log σ ++ fill_events j k (ok, v) dl (infos σ))).
Proof.
  intros Hj. unfold _cbDeferred. rewrite Hj.
  assert (j < length (dlists σ)) as Hlt by by eapply lookup_lt_Some.
  unfold fill_events, fill. cbn [dl_called finishedCount resultList].
  rewrite length_insert.
  set (b := S (finishedCount dl) =? length (resultList dl)).
  destruct (dl_called dl) eqn:Hc.
  { f_equal. unfold set_dlists. cbn. by rewrite app_nil_r. }
  destruct b eqn:Hb.
  2:{ f_equal. unfold set_dlists. cbn. by rewrite app_nil_r. }
  f_equal. unfold DeferredList_callback. cbn [dlists set_dlists].
  rewrite list_lookup_insert_eq by done. cbn [dl_called]. 
  rewrite list_insert_insert_eq.
  unfold completion_events. cbn [dl_callback resultList].
  destruct (dl_callback dl) as [cbk|] eqn:Hcb.
  2:{ unfold set_dlists, set_dl_called. cbn. by rewrite ?app_nil_r. }
  unfold run_item_completed. cbn [infos].
  destruct (infos σ !! cbk.2) as [info|] eqn:Hi.
  2:{ unfold set_dlists, set_dl_called. cbn. by rewrite Hi, ?app_nil_r. }
  unfold set_dlists, set_dl_called. cbn. rewrite Hi.
  rewrite emit_errors_log. cbn. by rewrite <- app_assoc.
Qed.


(** The three ways in which firing changes a world. *)
Definition settle (d : nat) (v : PyVal) (σ : World) : World :=
  set_deferreds (<[d := mkDeferred true v []]> (deferreds σ)) σ.

Definition logs (l : list Event) (σ : World) : World :=
  mkWorld (spiderinfo σ) (infos σ) (deferreds σ) (dlists σ) (downloads σ)
    (log σ ++ l).

Definition filled (j k : nat) (e : bool * PyVal) (dl : DeferredList)
    (σ : World) : World :=
  mkWorld (spiderinfo σ) (infos σ) (deferreds σ)
    (<[j := fill k e dl]> (dlists σ)) (downloads σ)
    (log σ ++ fill_events j k e dl (infos σ)).

(** The entry that [_cbDeferred] stores for the value [v]. *)
Definition entry (v : PyVal) : bool * PyVal := (negb (isFailure v), v).

(** What is left in a deferred whose last callback was a slot. *)
Definition consumed (v : PyVal) : PyVal :=
  if isFailure v then VNone else v.

Lemma fire_pair d cb eb res σ :
  pending_def σ d [CbPair cb eb] →
  Deferred_callback d res σ =
  settle d (pair_result cb eb res) (logs (pair_events cb eb res) σ).
Proof.
  intros Hd. unfold pending_def in Hd.
  unfold Deferred_callback. rewrite Hd. cbn [called].
  unfold run_deferred at 1. rewrite Hd.
  cbn [called callbacks run_callbacks run_callback].
  rewrite run_pair_eq. unfold set_result. simpl.
  assert (d < length (deferreds σ)) as Hlt by by eapply lookup_lt_Some.
  rewrite list_lookup_insert_eq by done. simpl.
  unfold settle, logs, set_deferreds. simpl.
  by rewrite list_insert_insert_eq.
Qed.

Lemma fire_pair_slot d cb eb j k dl res σ :
  pending_def σ d [CbPair cb eb; CbSlot j k] →
  dlists σ !! j = Some dl →
  Deferred_callback d res σ =
  settle d (consumed (pair_result cb eb res))
    (filled j k (entry (pair_result cb eb res)) dl
       (logs (pair_events cb eb res) σ)).
Proof.
  intros Hd Hj. unfold pending_def in Hd.
  unfold Deferred_callback. rewrite Hd. cbn [called].
  unfold run_deferred at 1. rewrite Hd.
  cbn [called callbacks run_callbacks run_callback].
  rewrite run_pair_eq. cbn [fst snd].
  erewrite cbDeferred_eq by exact Hj. unfold set_result. cbn.
  assert (d < length (deferreds σ)) as Hlt by by eapply lookup_lt_Some.
  rewrite list_lookup_insert_eq by done. cbn.
  unfold settle, logs, filled, set_deferreds, consumed, entry. cbn.
  rewrite list_insert_insert_eq.
  by destruct (isFailure (pair_result cb eb res)).
Qed.

Lemma fire_slot d j k dl v σ :
  pending_def σ d [CbSlot j k] →
  dlists σ !! j = Some dl →
  Deferred_callback d v σ =
  settle d (consumed v) (filled j k (entry v) dl σ).
Proof.
  intros Hd Hj. unfold pending_def in Hd.
  unfold Deferred_callback. rewrite Hd. cbn [called].
  unfold run_deferred at 1. rewrite Hd.
  cbn [called callbacks run_callbacks run_callback].
  erewrite cbDeferred_eq by exact Hj. unfold set_result. cbn.
  assert (d < length (deferreds σ)) as Hlt by by eapply lookup_lt_Some.
  rewrite list_lookup_insert_eq by done. cbn.
  unfold settle, filled, set_deferreds, consumed, entry. cbn.
  rewrite list_insert_insert_eq.
  by destruct (isFailure v).
Qed.

Lemma fire_none d v σ :
  pending_def σ d [] → Deferred_callback d v σ = settle d v σ.
Proof.
  intros Hd. unfold pending_def in Hd.
  unfold Deferred_callback. rewrite Hd. cbn [called].
  unfold run_deferred at 1. rewrite Hd.
  cbn [called callbacks run_callbacks run_callback].
  unfold set_result. simpl.
  assert (d < length (deferreds σ)) as Hlt by by eapply lookup_lt_Some.
  rewrite list_lookup_insert_eq by done. simpl.
  unfold settle, set_deferreds. simpl. by rewrite list_insert_insert_eq.
Qed.

(** Adding a slot to a deferred: queued when it is pending, filled at once
    when it has its result. *)
Lemma add_slot_pending d cbs j k σ :
  pending_def σ d cbs →
  addCallbacks d (CbSlot j k) σ =
  set_deferreds
    (<[d := mkDeferred false VNone (cbs ++ [CbSlot j k])]> (deferreds σ)) σ.
Proof. intros Hd. unfold addCallbacks. by rewrite Hd. Qed.

Lemma add_slot_called d v j k dl σ :
  deferreds σ !! d = Some (mkDeferred true v []) →
  dlists σ !! j = Some dl →
  addCallbacks d (CbSlot j k) σ =
  settle d (consumed v) (filled j k (entry v) dl σ).
Proof.
  intros Hd Hj. unfold addCallbacks. rewrite Hd.
  cbn [called result run_callback].
  erewrite cbDeferred_eq by exact Hj. unfold set_result. cbn. rewrite Hd.
  unfold settle, filled, set_deferreds, consumed, entry. cbn.
  by destruct (isFailure v).
Qed.

(** ** Items and their result lists

    The invariant that ties every slot of every [DeferredList] to the
    request it stands for is stated over a table of the calls of
    [process_item] that got as far as building their list (a history
    variable: it is not part of the world).  Entry [j] of the table
    describes the list [j]: the item, the session, the requests in the
    order of submission, the deferreds [_process_request] returned for
    them, how many of these have their slot callback, and whether
    [item_completed] has been added. *)

Record Task := mkTask {
  t_item : string;
  t_info : nat;
  t_requests : list Request;
  t_ds : list nat;
  t_attached : nat;
  t_hooked : bool
}.

(** A key that has just been stored in the cache by a chain that had paused
    on a download, with what is still to be fired for it: the waiters not
    yet notified, the first waiter [a_wad] with its callbacks, and the
    deferred [a_dfd] the chain returns. *)
Record Agenda := mkAgenda {
  a_info : nat;
  a_fp : string;
  a_res : PyVal;
  a_rest : list nat;
  a_wad : nat;
  a_dfd : nat;
  a_cb : Callable;
  a_eb : option Callable
}.

(** The entry of a result list for request [r] when its key resolved with
    [o]. *)
Definition entry_of (o : PyVal) (r : Request) : bool * PyVal :=
  entry (pair_result (cb_of r) (eb_of r) o).

Definition completion_of (j : nat) (e : Event)
    : option (list (option (bool * PyVal)) * string * nat) :=
  match e with
  | EvItemCompleted j' results item i =>
      if decide (j' = j) then Some (results, item, i) else None
  | _ => None
  end.

(** The calls of [item_completed] for the list [j], in order. *)
Definition completions (j : nat) (l : list Event)
    : list (list (option (bool * PyVal)) * string * nat) :=
  omap (completion_of j) l.

Definition filled_count (l : list (option (bool * PyVal))) : nat :=
  length (filter is_Some l).

Definition pending_download (σ : World) (kk : nat) (c : Continuation) : Prop :=
  ∃ dl, downloads σ !! kk = Some dl ∧ d_called dl = false ∧
        d_chain dl = Some c.

(** Slot [k] of list [j] stands for request [r] of session [i], for which
    [_process_request] returned [d]. *)
Definition slot_of (G : list Task) (i : nat) (r : Request) (d j k : nat)
    : Prop :=
  ∃ t, G !! j = Some t ∧ t_info t = i ∧ t_requests t !! k = Some r ∧
       t_ds t !! k = Some d.

(** What follows the pair of callbacks of a request for key [fp] on the
    deferred [d]: nothing, or the slot of such a request. *)
Definition tail_ok (G : list Task) (i : nat) (fp : string) (cb : Callable)
    (eb : option Callable) (d : nat) (tl : list Callback) : Prop :=
  tl = [] ∨
  ∃ j k r, tl = [CbSlot j k] ∧ slot_of G i r d j k ∧
           request_fingerprint r = fp ∧ cb_of r = cb ∧ eb_of r = eb.

Definition waiter_ok (G : list Task) (σ : World) (i : nat) (fp : string)
    (w : nat) : Prop :=
  ∃ cb eb tl, pending_def σ w (CbPair cb eb :: tl) ∧ tail_ok G i fp cb eb w tl.

(** A chain that paused on a download: its waiter is the first of the
    queue and has nothing but its pair of callbacks. *)
Definition chain_ok (G : list Task) (σ : World) (c : Continuation) : Prop :=
  ∃ cb eb tl rest,
    queue (infos σ) (c_info c) (c_fp c) = c_wad c :: rest ∧
    pending_def σ (c_wad c) [CbPair cb eb] ∧
    pending_def σ (c_dfd c) tl ∧
    tail_ok G (c_info c) (c_fp c) cb eb (c_dfd c) tl.

(** Where the deferred [d] of an empty slot is: in the queue of its key,
    returned by a chain that paused on a download, or on the agenda. *)
Definition held (A : option Agenda) (σ : World) (i : nat) (r : Request)
    (d j k : nat) : Prop :=
  (d ∈ queue (infos σ) i (request_fingerprint r) ∧
   pending_def σ d [CbPair (cb_of r) (eb_of r); CbSlot j k]) ∨
  (∃ kk w, pending_download σ kk (mkContinuation (request_fingerprint r) i w d)
           ∧ pending_def σ d [CbSlot j k]) ∨
  (∃ a, A = Some a ∧ a_info a = i ∧ a_fp a = request_fingerprint r ∧
        d ∈ a_rest a ∧
        pending_def σ d [CbPair (cb_of r) (eb_of r); CbSlot j k]) ∨
  (∃ a, A = Some a ∧ a_info a = i ∧ a_fp a = request_fingerprint r ∧
        a_dfd a = d ∧ a_cb a = cb_of r ∧ a_eb a = eb_of r ∧
        pending_def σ d [CbSlot j k]).

(** The deferred [d] that [_process_request] returned for [r], before a
    slot is added to it: it has its result, or is a waiter in the queue
    (and not the first waiter of a paused chain), or is returned by a
    paused chain. *)
Definition attachable (σ : World) (i : nat) (r : Request) (d : nat) : Prop :=
  (∃ info o, infos σ !! i = Some info ∧
             downloaded info !! request_fingerprint r = Some o ∧
             deferreds σ !! d =
               Some (mkDeferred true (pair_result (cb_of r) (eb_of r) o) []))
  ∨ (d ∈ queue (infos σ) i (request_fingerprint r) ∧
     pending_def σ d [CbPair (cb_of r) (eb_of r)] ∧
     ∀ kk c, pending_download σ kk c → c_wad c ≠ d)
  ∨ (∃ kk w, pending_download σ kk
               (mkContinuation (request_fingerprint r) i w d) ∧
             pending_def σ d [] ∧
             pending_def σ w [CbPair (cb_of r) (eb_of r)]).

(** The key of [r] has the outcome [o] in session [i]. *)
Definition cached (σ : World) (i : nat) (r : Request) (o : PyVal) : Prop :=
  ∃ info, infos σ !! i = Some info ∧
          downloaded info !! request_fingerprint r = Some o.

(** The state of slot [k] of list [j]: filled with the entry for the
    cached outcome, or empty with its deferred held somewhere, or not yet
    attached. *)
Definition ref_ok (A : option Agenda) (σ : World) (j : nat) (t : Task)
    (k : nat) (r : Request) (d : nat) : Prop :=
  ∃ dl, dlists σ !! j = Some dl ∧
    ((k < t_attached t ∧
      ∃ o, resultList dl !! k = Some (Some (entry_of o r)) ∧
           cached σ (t_info t) r o ∧ is_called σ d) ∨
     (k < t_attached t ∧ resultList dl !! k = Some None ∧
      held A σ (t_info t) r d j k) ∨
     (t_attached t ≤ k ∧ resultList dl !! k = Some None ∧
      attachable σ (t_info t) r d)).

Definition task_ok (σ : World) (j : nat) (t : Task) : Prop :=
  ∃ dl, dlists σ !! j = Some dl ∧
    length (resultList dl) = length (t_requests t) ∧
    length (t_ds t) = length (t_requests t) ∧
    NoDup (t_ds t) ∧
    t_attached t ≤ length (t_requests t) ∧
    t_info t < length (infos σ) ∧
    finishedCount dl = filled_count (resultList dl) ∧
    (dl_called dl = true ↔ finishedCount dl = length (resultList dl)) ∧
    (t_hooked t = false → dl_callback dl = None) ∧
    (t_hooked t = true → dl_called dl = false →
     dl_callback dl = Some (t_item t, t_info t)) ∧
    completions j (log σ) =
      if t_hooked t && dl_called dl
      then [(resultList dl, t_item t, t_info t)] else [].

(** Every task has all its slots and its callback. *)
Definition closed (G : list Task) : Prop :=
  Forall (λ t, t_attached t = length (t_requests t) ∧ t_hooked t = true) G.

Definition agenda_ok (G : list Task) (σ : World) (a : Agenda) : Prop :=
  closed G ∧
  (∃ info, infos σ !! a_info a = Some info ∧
           downloaded info !! a_fp a = Some (a_res a)) ∧
  NoDup (a_rest a) ∧
  (∀ w, w ∈ a_rest a →
        (∀ i fp, w ∉ queue (infos σ) i fp) ∧
        waiter_ok G σ (a_info a) (a_fp a) w) ∧
  (∃ tl, pending_def σ (a_dfd a) tl ∧
         tail_ok G (a_info a) (a_fp a) (a_cb a) (a_eb a) (a_dfd a) tl) ∧
  (∀ kk c, pending_download σ kk c → c_dfd c ≠ a_dfd a) ∧
  ((a_wad a ∈ a_rest a ∧ pending_def σ (a_wad a) [CbPair (a_cb a) (a_eb a)]) ∨
   ((a_wad a ∉ a_rest a) ∧
    deferreds σ !! a_wad a =
      Some (mkDeferred true (pair_result (a_cb a) (a_eb a) (a_res a)) []))).

Record inv (G : list Task) (A : option Agenda) (σ : World) : Prop := {
  inv_infos : Forall info_inv (infos σ);
  inv_len : length G = length (dlists σ);
  inv_fresh : ∀ j, length G ≤ j → completions j (log σ) = [];
  inv_task : ∀ j t, G !! j = Some t → task_ok σ j t;
  inv_ref : ∀ j t k r d,
    G !! j = Some t → t_requests t !! k = Some r → t_ds t !! k = Some d →
    ref_ok A σ j t k r d;
  inv_queue : ∀ i fp w, w ∈ queue (infos σ) i fp → waiter_ok G σ i fp w;
  inv_queue_nodup : ∀ i fp, NoDup (queue (infos σ) i fp);
  inv_queue_disj : ∀ i fp i' fp' w,
    w ∈ queue (infos σ) i fp → w ∈ queue (infos σ) i' fp' →
    i = i' ∧ fp = fp';
  inv_download : ∀ kk c, pending_download σ kk c → chain_ok G σ c;
  inv_download_inj : ∀ kk c kk' c',
    pending_download σ kk c → pending_download σ kk' c' →
    c_dfd c = c_dfd c' ∨ (c_info c = c_info c' ∧ c_fp c = c_fp c') →
    kk = kk';
  inv_download_info : ∀ kk dl,
    downloads σ !! kk = Some dl →
    d_info dl < length (infos σ) ∧ is_Some (d_chain dl);
  inv_agenda : from_option (agenda_ok G σ) True A
}.

(** ** Worlds that only grew *)

(** [σ'] has everything [σ] has: the same lists, the deferreds and
    downloads of [σ] unchanged, the cache and the queues of [σ] extended at
    most, and no further call of [item_completed]. *)
Record extends (σ σ' : World) : Prop := {
  ext_infos : Forall info_inv (infos σ');
  ext_length : length (infos σ) ≤ length (infos σ');
  ext_dlists : dlists σ' = dlists σ;
  ext_deferreds : ∀ d df,
    deferreds σ !! d = Some df → deferreds σ' !! d = Some df;
  ext_downloads : ∀ kk dl,
    downloads σ !! kk = Some dl → downloads σ' !! kk = Some dl;
  ext_downloads_new : ∀ kk c,
    pending_download σ' kk c →
    pending_download σ kk c ∨
    (length (deferreds σ) ≤ c_wad c ∧ length (deferreds σ) ≤ c_dfd c);
  ext_cache : ∀ i info fp o,
    infos σ !! i = Some info → downloaded info !! fp = Some o →
    ∃ info', infos σ' !! i = Some info' ∧ downloaded info' !! fp = Some o;
  ext_queue : ∀ i fp w rest,
    queue (infos σ) i fp = w :: rest →
    ∃ more, queue (infos σ') i fp = w :: rest ++ more;
  ext_log : ∀ j, completions j (log σ') = completions j (log σ)
}.

Lemma extends_pending_def σ σ' d cbs :
  extends σ σ' → pending_def σ d cbs → pending_def σ' d cbs.
Proof. intros He Hd. by apply (ext_deferreds _ _ He). Qed.

Lemma extends_is_called σ σ' d :
  extends σ σ' → is_called σ d → is_called σ' d.
Proof.
  intros He (df & Hd & Hc). exists df. split; [|done].
  by apply (ext_deferreds _ _ He).
Qed.

Lemma extends_pending_download σ σ' kk c :
  extends σ σ' → pending_download σ kk c → pending_download σ' kk c.
Proof.
  intros He (dl & Hk & Hc & Hch). exists dl.
  split; [by apply (ext_downloads _ _ He)|done].
Qed.

Lemma extends_queue_elem σ σ' i fp w :
  extends σ σ' → w ∈ queue (infos σ) i fp → w ∈ queue (infos σ') i fp.
Proof.
  intros He Hw. destruct (queue (infos σ) i fp) as [|w0 rest] eqn:Hq.
  { by apply elem_of_nil in Hw. }
  destruct (ext_queue _ _ He i fp w0 rest Hq) as (more & ->).
  rewrite app_comm_cons. apply elem_of_app. by left.
Qed.

Lemma extends_cached σ σ' i r o :
  extends σ σ' → cached σ i r o → cached σ' i r o.
Proof. intros He (info & Hi & Ho). by eapply (ext_cache _ _ He). Qed.

Lemma extends_waiter_ok G σ σ' i fp w :
  extends σ σ' → waiter_ok G σ i fp w → waiter_ok G σ' i fp w.
Proof.
  intros He (cb & eb & tl & Hd & Ht). exists cb, eb, tl.
  split; [by eapply extends_pending_def|done].
Qed.

Lemma extends_chain_ok G σ σ' c :
  extends σ σ' → chain_ok G σ c → chain_ok G σ' c.
Proof.
  intros He (cb & eb & tl & rest & Hq & Hw & Hd & Ht).
  destruct (ext_queue _ _ He _ _ _ _ Hq) as (more & Hq').
  exists cb, eb, tl, (rest ++ more).
  split; [done|].
  split; [by eapply extends_pending_def|].
  split; [by eapply extends_pending_def|done].
Qed.

Lemma extends_held σ σ' i r d j k :
  extends σ σ' → held None σ i r d j k → held None σ' i r d j k.
Proof.
  intros He [[Hq Hd]|[(kk & w & Hp & Hd)|[(a & ? & _)|(a & ? & _)]]];
    try done.
  - left. split; [by eapply extends_queue_elem|by eapply extends_pending_def].
  - right. left. exists kk, w.
    split; [by eapply extends_pending_download|by eapply extends_pending_def].
Qed.

Lemma extends_attachable σ σ' i r d :
  extends σ σ' → attachable σ i r d → attachable σ' i r d.
Proof.
  intros He [(info & o & Hi & Ho & Hd)|[(Hq & Hd & Hn)|(kk & w & Hp & Hd & Hw)]].
  - left. destruct (ext_cache _ _ He i info _ o Hi Ho) as (info' & Hi' & Ho').
    exists info', o. split; [done|]. split; [done|].
    by apply (ext_deferreds _ _ He).
  - right. left. split; [by eapply extends_queue_elem|].
    split; [by eapply extends_pending_def|].
    intros kk c Hp.
    destruct (ext_downloads_new _ _ He kk c Hp) as [Hold|[Hnew _]].
    + by eapply Hn.
    + apply lookup_lt_Some in Hd. lia.
  - right. right. exists kk, w.
    split; [by eapply extends_pending_download|].
    split; by eapply extends_pending_def.
Qed.

Lemma extends_ref_ok σ σ' j t k r d :
  extends σ σ' → ref_ok None σ j t k r d → ref_ok None σ' j t k r d.
Proof.
  intros He (dl & Hj & Hc). exists dl.
  split; [by rewrite (ext_dlists _ _ He)|].
  destruct Hc as [(Hk & o & Hr & Hca & Hcd)|[(Hk & Hr & Hh)|(Hk & Hr & Ha)]].
  - left. split; [done|]. exists o. split; [done|].
    split; [by eapply extends_cached|by eapply extends_is_called].
  - right. left. split; [done|]. split; [done|]. by eapply extends_held.
  - right. right. split; [done|]. split; [done|].
    by eapply extends_attachable.
Qed.

Lemma extends_task_ok σ σ' j t :
  extends σ σ' → task_ok σ j t → task_ok σ' j t.
Proof.
  intros He (dl & Hj & H1 & H2 & H3 & H4 & H5 & H6 & H7 & H8 & H9 & H10).
  exists dl. rewrite (ext_dlists _ _ He), (ext_log _ _ He).
  pose proof (ext_length _ _ He). repeat split; try done; try lia.
  - by apply H7.
  - by apply H7.
Qed.

(** The invariant carries over to a world that grew, when its queues and
    its paused chains are in order. *)
Lemma inv_grow G σ σ' :
  inv G None σ → extends σ σ' →
  (∀ i fp w, w ∈ queue (infos σ') i fp → waiter_ok G σ' i fp w) →
  (∀ i fp, NoDup (queue (infos σ') i fp)) →
  (∀ i fp i' fp' w,
     w ∈ queue (infos σ') i fp → w ∈ queue (infos σ') i' fp' →
     i = i' ∧ fp = fp') →
  (∀ kk c, pending_download σ' kk c → chain_ok G σ' c) →
  (∀ kk c kk' c',
     pending_download σ' kk c → pending_download σ' kk' c' →
     c_dfd c = c_dfd c' ∨ (c_info c = c_info c' ∧ c_fp c = c_fp c') →
     kk = kk') →
  (∀ kk dl, downloads σ' !! kk = Some dl →
     d_info dl < length (infos σ') ∧ is_Some (d_chain dl)) →
  inv G None σ'.
Proof.
  intros Hinv He Hq Hnd Hdj Hdl Hin Hdi. constructor; try done.
  - apply (ext_infos _ _ He).
  - rewrite (ext_dlists _ _ He). apply (inv_len _ _ _ Hinv).
  - intros j Hj. rewrite (ext_log _ _ He). by apply (inv_fresh _ _ _ Hinv).
  - intros j t Hj. eapply extends_task_ok; [done|].
    by apply (inv_task _ _ _ Hinv).
  - intros j t k r d Hj Hr Hd. eapply extends_ref_ok; [done|].
    by apply (inv_ref _ _ _ Hinv).
Qed.

(** ** Calls of [item_completed] in a log *)

Lemma completions_app j l1 l2 :
  completions j (l1 ++ l2) = completions j l1 ++ completions j l2.
Proof. apply omap_app. Qed.

Lemma completions_none j l :
  Forall (λ e, completion_of j e = None) l → completions j l = [].
Proof.
  induction 1 as [|e l He _ IH]; [done|].
  unfold completions in *. csimpl. by rewrite He, IH.
Qed.

Lemma completions_skip j e l :
  completion_of j e = None → completions j (e :: l) = completions j l.
Proof. intros He. unfold completions. csimpl. by rewrite He. Qed.

Lemma completions_pair_events j cb eb r :
  completions j (pair_events cb eb r) = [].
Proof.
  unfold pair_events. destruct (isFailure r); [destruct eb|]; done.
Qed.

Lemma completions_errors j msgs : completions j (EvLogError <$> msgs) = [].
Proof. induction msgs as [|m msgs IH]; [done|]. by csimpl. Qed.

(** ** Growing a world *)

Lemma pending_download_app σ σ' newdl kk c :
  downloads σ' = downloads σ ++ newdl →
  pending_download σ' kk c →
  pending_download σ kk c ∨
  ∃ dl, newdl !! (kk - length (downloads σ)) = Some dl ∧
        length (downloads σ) ≤ kk ∧ d_called dl = false ∧
        d_chain dl = Some c.
Proof.
  intros Hd (dl & Hk & Hc & Hch). rewrite Hd in Hk.
  apply lookup_app_Some in Hk as [Hk|[Hge Hk]].
  - left. by exists dl.
  - right. by exists dl.
Qed.

Lemma extends_intro σ σ' i info info' new newdl l :
  Forall info_inv (infos σ) →
  infos σ !! i = Some info →
  info_inv info' →
  infos σ' = <[i := info']> (infos σ) →
  downloaded info ⊆ downloaded info' →
  (∀ fp w rest, default [] (waiting info !! fp) = w :: rest →
     ∃ more, default [] (waiting info' !! fp) = w :: rest ++ more) →
  deferreds σ' = deferreds σ ++ new →
  dlists σ' = dlists σ →
  downloads σ' = downloads σ ++ newdl →
  (∀ dl c, dl ∈ newdl → d_chain dl = Some c →
     length (deferreds σ) ≤ c_wad c ∧ length (deferreds σ) ≤ c_dfd c) →
  log σ' = log σ ++ l →
  (∀ j, completions j l = []) →
  extends σ σ'.
Proof.
  intros Hinv Hi Hinfo' Hinfos Hsub Hq Hdef Hdl Hdown Hnew Hlog Hl.
  assert (i < length (infos σ)) as Hlt by by eapply lookup_lt_Some.
  constructor.
  - rewrite Hinfos. by apply Forall_insert.
  - rewrite Hinfos, length_insert. lia.
  - done.
  - intros d df Hd. rewrite Hdef. by apply lookup_app_l_Some.
  - intros kk dl Hk. rewrite Hdown. by apply lookup_app_l_Some.
  - intros kk c Hp.
    destruct (pending_download_app _ _ _ _ _ Hdown Hp)
      as [?|(dl & Hk & _ & _ & Hc)]; [by left|right].
    eapply Hnew; [|done]. by eapply list_elem_of_lookup_2.
  - intros i0 info0 fp o Hi0 Ho. rewrite Hinfos.
    destruct (decide (i = i0)) as [->|Hne].
    + rewrite list_lookup_insert_eq by done. exists info'. split; [done|].
      assert (info0 = info) as -> by congruence.
      by eapply lookup_weaken.
    + rewrite list_lookup_insert_ne by done. eauto.
  - intros i0 fp w rest Hq0. rewrite Hinfos, queue_insert by done.
    destruct (decide (i = i0)) as [->|Hne].
    + unfold queue in Hq0. rewrite Hi in Hq0. by apply Hq.
    + exists []. by rewrite app_nil_r.
  - intros j. by rewrite Hlog, completions_app, Hl, app_nil_r.
Qed.

(** The same session states and downloads. *)
Lemma inv_grow_same G σ σ' :
  inv G None σ → extends σ σ' →
  (∀ i fp, queue (infos σ') i fp = queue (infos σ) i fp) →
  downloads σ' = downloads σ →
  inv G None σ'.
Proof.
  intros Hinv He Hq Hd.
  assert (∀ kk c, pending_download σ' kk c → pending_download σ kk c) as Hp.
  { intros kk c. unfold pending_download. by rewrite Hd. }
  apply (inv_grow G σ σ' Hinv He).
  - intros i fp w. rewrite Hq. intros Hw. eapply extends_waiter_ok; [done|].
    by apply (inv_queue _ _ _ Hinv).
  - intros i fp. rewrite Hq. apply (inv_queue_nodup _ _ _ Hinv).
  - intros i fp i' fp' w. rewrite !Hq. apply (inv_queue_disj _ _ _ Hinv).
  - intros kk c Hc. eapply extends_chain_ok; [done|].
    eapply (inv_download _ _ _ Hinv). by apply Hp.
  - intros kk c kk' c' Hc Hc'. eapply (inv_download_inj _ _ _ Hinv); eauto.
  - intros kk dl Hk. rewrite Hd in Hk.
    destruct (inv_download_info _ _ _ Hinv kk dl Hk) as [Hlt Hch].
    split; [|done]. pose proof (ext_length _ _ He). lia.
Qed.

(** One more waiter in one queue. *)
Lemma grow_enqueue G σ σ' i fp :
  inv G None σ → extends σ σ' →
  (∀ i' fp', queue (infos σ') i' fp' =
     queue (infos σ) i' fp' ++
     (if decide (i' = i ∧ fp' = fp) then [length (deferreds σ)] else [])) →
  waiter_ok G σ' i fp (length (deferreds σ)) →
  (∀ i fp w, w ∈ queue (infos σ') i fp → waiter_ok G σ' i fp w) ∧
  (∀ i fp, NoDup (queue (infos σ') i fp)) ∧
  (∀ i fp i' fp' w,
     w ∈ queue (infos σ') i fp → w ∈ queue (infos σ') i' fp' →
     i = i' ∧ fp = fp').
Proof.
  intros Hinv He Hq Hnew.
  assert (∀ i' fp' w, w ∈ queue (infos σ) i' fp' → w < length (deferreds σ))
    as Hold.
  { intros i' fp' w Hw.
    destruct (inv_queue _ _ _ Hinv _ _ _ Hw) as (cb & eb & tl & Hd & _).
    by eapply lookup_lt_Some. }
  assert (∀ i' fp' w, w ∈ queue (infos σ') i' fp' →
            w ∈ queue (infos σ) i' fp' ∨
            (w = length (deferreds σ) ∧ i' = i ∧ fp' = fp)) as Hcase.
  { intros i' fp' w. rewrite Hq. intros [Hw|Hw]%elem_of_app; [by left|right].
    destruct (decide _) as [[-> ->]|]; [|by apply elem_of_nil in Hw].
    by apply list_elem_of_singleton in Hw. }
  split; [|split].
  - intros i' fp' w [Hw|(-> & -> & ->)]%Hcase; [|done].
    eapply extends_waiter_ok; [done|]. by apply (inv_queue _ _ _ Hinv).
  - intros i' fp'. rewrite Hq. apply NoDup_app.
    split; [apply (inv_queue_nodup _ _ _ Hinv)|]. split.
    + intros w Hw Hw'. apply Hold in Hw.
      destruct (decide _); [|by apply elem_of_nil in Hw'].
      apply list_elem_of_singleton in Hw'. lia.
    + destruct (decide _); [apply NoDup_singleton|apply NoDup_nil_2].
  - intros i1 fp1 i2 fp2 w [Hw|(-> & -> & ->)]%Hcase
      [Hw'|(Hw' & -> & ->)]%Hcase; try done.
    + by eapply (inv_queue_disj _ _ _ Hinv).
    + apply Hold in Hw. lia.
    + apply Hold in Hw'. lia.
Qed.

Lemma grow_downloads_same G σ σ' :
  inv G None σ → extends σ σ' → downloads σ' = downloads σ →
  (∀ kk c, pending_download σ' kk c → chain_ok G σ' c) ∧
  (∀ kk c kk' c',
     pending_download σ' kk c → pending_download σ' kk' c' →
     c_dfd c = c_dfd c' ∨ (c_info c = c_info c' ∧ c_fp c = c_fp c') →
     kk = kk') ∧
  (∀ kk dl, downloads σ' !! kk = Some dl →
     d_info dl < length (infos σ') ∧ is_Some (d_chain dl)).
Proof.
  intros Hinv He Hd.
  assert (∀ kk c, pending_download σ' kk c → pending_download σ kk c) as Hp.
  { intros kk c. unfold pending_download. by rewrite Hd. }
  split; [|split].
  - intros kk c Hc. eapply extends_chain_ok; [done|].
    eapply (inv_download _ _ _ Hinv). by apply Hp.
  - intros kk c kk' c' Hc Hc'. eapply (inv_download_inj _ _ _ Hinv); eauto.
  - intros kk dl Hk. rewrite Hd in Hk.
    destruct (inv_download_info _ _ _ Hinv kk dl Hk) as [Hlt Hch].
    split; [|done]. pose proof (ext_length _ _ He). lia.
Qed.

Lemma inv_info_lookup G A σ i info :
  inv G A σ → infos σ !! i = Some info → info_inv info.
Proof.
  intros Hinv Hi. eapply Forall_lookup_1; [|done]. apply (inv_infos _ _ _ Hinv).
Qed.

Lemma insert_same_infos σ i info :
  infos σ !! i = Some info → infos σ = <[i := info]> (infos σ).
Proof. intros Hi. by rewrite list_insert_id. Qed.

(** ** [_process_request] keeps the invariant *)

Lemma inv_process_request_cached G r i σ info o :
  inv G None σ → infos σ !! i = Some info →
  downloaded info !! request_fingerprint r = Some o →
  let σ' := (_process_request r i σ).2 in
  let d := (_process_request r i σ).1.2 in
  inv G None σ' ∧ extends σ σ' ∧ attachable σ' i r d ∧
  length (deferreds σ) ≤ d < length (deferreds σ').
Proof.
  intros Hinv Hi Ho. cbv zeta.
  rewrite (process_request_cached r i σ info o Hi Ho). cbn [fst snd].
  set (σ' := mkWorld _ _ _ _ _ _).
  assert (extends σ σ') as He.
  { eapply (extends_intro σ σ' i info info); try done.
    - apply (inv_infos _ _ _ Hinv).
    - by eapply inv_info_lookup.
    - exact (insert_same_infos σ i info Hi).
    - intros fp w rest ->. exists []. by rewrite app_nil_r.
    - by instantiate (1 := []); rewrite app_nil_r.
    - by intros dl c ?%elem_of_nil.
    - intros j. rewrite completions_skip by done.
      apply completions_pair_events. }
  split; [by apply (inv_grow_same G σ σ')|]. split; [done|]. split.
  - left. exists info, o. split; [done|]. split; [done|]. apply lookup_snoc.
  - simpl. rewrite length_app. simpl. lia.
Qed.

Lemma inv_process_request_inflight G r i σ info :
  inv G None σ → infos σ !! i = Some info →
  downloaded info !! request_fingerprint r = None →
  request_fingerprint r ∈ downloading info →
  let σ' := (_process_request r i σ).2 in
  let d := (_process_request r i σ).1.2 in
  inv G None σ' ∧ extends σ σ' ∧ attachable σ' i r d ∧
  length (deferreds σ) ≤ d < length (deferreds σ').
Proof.
  intros Hinv Hi Ho Hin. cbv zeta.
  rewrite (process_request_inflight r i σ info Hi Ho Hin). cbn [fst snd].
  set (fp := request_fingerprint r). set (wad := length (deferreds σ)).
  set (σ' := mkWorld _ _ _ _ _ _).
  assert (i < length (infos σ)) as Hlt by by eapply lookup_lt_Some.
  assert (extends σ σ') as He.
  { eapply (extends_intro σ σ' i info (waiting_append fp wad info)); try done.
    - apply (inv_infos _ _ _ Hinv).
    - apply info_inv_waiting_append; [by eapply inv_info_lookup|done].
    - intros fp' w rest Hq. rewrite waiting_append_queue, Hq.
      by eexists.
    - by instantiate (1 := []); rewrite app_nil_r.
    - by intros dl c ?%elem_of_nil. }
  assert (pending_def σ' wad [CbPair (cb_of r) (eb_of r)]) as Hwad.
  { apply lookup_snoc. }
  assert (∀ i' fp', queue (infos σ') i' fp' =
            queue (infos σ) i' fp' ++
            (if decide (i' = i ∧ fp' = fp) then [wad] else [])) as Hq.
  { intros i' fp'. simpl. rewrite queue_insert by done.
    destruct (decide (i = i')) as [<-|Hne].
    - rewrite waiting_append_queue. unfold queue. rewrite Hi.
      f_equal. destruct (decide (fp' = fp)) as [->|?].
      + by rewrite decide_True.
      + rewrite decide_False; [done|]. by intros [_ ?].
    - rewrite decide_False; [by rewrite app_nil_r|]. intros [? _]. congruence. }
  assert (waiter_ok G σ' i fp wad) as Hok.
  { exists (cb_of r), (eb_of r), []. split; [done|by left]. }
  destruct (grow_enqueue G σ σ' i fp Hinv He Hq Hok) as (Q1 & Q2 & Q3).
  destruct (grow_downloads_same G σ σ' Hinv He eq_refl) as (D1 & D2 & D3).
  split; [by apply (inv_grow G σ σ')|]. split; [done|]. split.
  - right. left. split; [|split; [done|]].
    + rewrite Hq, decide_True by done. apply elem_of_app. right.
      by apply list_elem_of_singleton.
    + intros kk c Hc.
      destruct (inv_download _ _ _ Hinv kk c Hc)
        as (cb & eb & tl & rest & _ & Hw & _).
      apply lookup_lt_Some in Hw. unfold wad. lia.
  - simpl. rewrite length_app. simpl. unfold wad. lia.
Qed.

Lemma inv_no_queue G σ i info fp :
  inv G None σ → infos σ !! i = Some info → fp ∉ downloading info →
  waiting info !! fp = None.
Proof.
  intros Hinv Hi Hin. destruct (waiting info !! fp) eqn:Hw; [|done].
  destruct (inv_info_lookup _ _ _ _ _ Hinv Hi) as [_ Hq].
  exfalso. apply Hin, Hq. by rewrite Hw.
Qed.

Lemma start_queue fp w info fp0 :
  default [] (waiting (downloading_add fp (waiting_append fp w info)) !! fp0) =
  default [] (waiting info !! fp0) ++ (if decide (fp0 = fp) then [w] else []).
Proof. apply waiting_append_queue. Qed.

Lemma inv_process_request_fetch G r i σ info :
  inv G None σ → infos σ !! i = Some info →
  downloaded info !! request_fingerprint r = None →
  request_fingerprint r ∉ downloading info →
  hook_result r info σ = VNone →
  let σ' := (_process_request r i σ).2 in
  let d := (_process_request r i σ).1.2 in
  inv G None σ' ∧ extends σ σ' ∧ attachable σ' i r d ∧
  length (deferreds σ) ≤ d < length (deferreds σ').
Proof.
  intros Hinv Hi Ho Hin Hh. cbv zeta.
  rewrite (process_request_fetch r i σ info Hi Ho Hin Hh). cbn [fst snd].
  pose proof (inv_no_queue G σ i info _ Hinv Hi Hin) as Hw.
  set (fp := request_fingerprint r) in *.
  set (wad := length (deferreds σ)).
  set (c := chain_of r i σ).
  set (σ' := mkWorld _ _ _ _ _ _).
  assert (i < length (infos σ)) as Hlt by by eapply lookup_lt_Some.
  assert (extends σ σ') as He.
  { eapply (extends_intro σ σ' i info
              (downloading_add fp (waiting_append fp wad info))); try done.
    - apply (inv_infos _ _ _ Hinv).
    - apply info_inv_start; [by eapply inv_info_lookup|done].
    - intros fp' w rest Hq. rewrite start_queue, Hq. by eexists.
    - intros dl c' ->%list_elem_of_singleton [= <-]. simpl. lia.
    - simpl. by rewrite <- app_assoc.
    - done. }
  assert (pending_def σ' wad [CbPair (cb_of r) (eb_of r)]) as Hwad.
  { apply lookup_snoc2_0. }
  assert (pending_def σ' (S wad) []) as Hdfd.
  { apply lookup_snoc2_1. }
  assert (∀ i' fp', queue (infos σ') i' fp' =
            queue (infos σ) i' fp' ++
            (if decide (i' = i ∧ fp' = fp) then [wad] else [])) as Hq.
  { intros i' fp'. unfold σ', started. cbn [infos].
    rewrite queue_insert by done.
    destruct (decide (i = i')) as [<-|Hne].
    - fold fp wad. rewrite start_queue. unfold queue. rewrite Hi.
      f_equal. destruct (decide (fp' = fp)) as [->|?].
      + by rewrite decide_True.
      + rewrite decide_False; [done|]. by intros [_ ?].
    - rewrite decide_False; [by rewrite app_nil_r|]. intros [? _]. congruence. }
  assert (queue (infos σ) i fp = []) as Hq0.
  { unfold queue. by rewrite Hi, Hw. }
  assert (waiter_ok G σ' i fp wad) as Hok.
  { exists (cb_of r), (eb_of r), []. split; [done|by left]. }
  destruct (grow_enqueue G σ σ' i fp Hinv He Hq Hok) as (Q1 & Q2 & Q3).
  assert (pending_download σ' (length (downloads σ)) c) as Hnew.
  { eexists. split; [apply lookup_snoc|done]. }
  assert (∀ kk c', pending_download σ' kk c' →
            pending_download σ kk c' ∨ (kk = length (downloads σ) ∧ c' = c))
    as Hcase.
  { intros kk c' Hp.
    destruct (pending_download_app σ σ' _ kk c' eq_refl Hp)
      as [?|(dl & Hk & Hge & _ & Hc)]; [by left|right].
    assert (kk - length (downloads σ) = 0) as Hz.
    { apply lookup_lt_Some in Hk. simpl in Hk. lia. }
    rewrite Hz in Hk. injection Hk as <-. simpl in Hc.
    split; [lia|congruence]. }
  assert (∀ kk c', pending_download σ kk c' →
            c_dfd c' < wad ∧ ¬ (c_info c' = i ∧ c_fp c' = fp)) as Hold.
  { intros kk c' Hp.
    destruct (inv_download _ _ _ Hinv kk c' Hp)
      as (cb & eb & tl & rest & Hqc & _ & Hd & _).
    split; [by eapply lookup_lt_Some|].
    intros [Hci Hcf]. rewrite Hci, Hcf in Hqc. congruence. }
  split; [|split; [done|split]].
  - apply (inv_grow G σ σ'); try done.
    + intros kk c' [Hp|[-> ->]]%Hcase.
      * eapply extends_chain_ok; [done|].
        by apply (inv_download _ _ _ Hinv kk).
      * exists (cb_of r), (eb_of r), [], []. simpl.
        split; [|split; [done|split; [done|by left]]].
        fold fp. by rewrite Hq, Hq0, decide_True.
    + intros kk1 c1 kk2 c2 [Hp1|[-> ->]]%Hcase [Hp2|[-> ->]]%Hcase Hsame;
        try done.
      * by eapply (inv_download_inj _ _ _ Hinv).
      * exfalso. destruct (Hold _ _ Hp1) as [Hlt1 Hne1].
        destruct Hsame as [Hs|Hs]; [simpl in Hs; lia|by apply Hne1].
      * exfalso. destruct (Hold _ _ Hp2) as [Hlt2 Hne2].
        destruct Hsame as [Hs|[Hs1 Hs2]]; [simpl in Hs; lia|].
        by apply Hne2.
    + intros kk dl [Hk|[_ Hk]]%lookup_app_Some.
      * destruct (inv_download_info _ _ _ Hinv kk dl Hk) as [Hl1 Hch].
        split; [|done]. pose proof (ext_length _ _ He). lia.
      * apply list_lookup_singleton_Some in Hk as [_ <-]. simpl.
        split; [by rewrite length_insert|by eexists].
  - right. right. exists (length (downloads σ)), wad. done.
  - simpl. rewrite length_app. simpl. lia.
Qed.

Lemma inv_process_request_short G r i σ info :
  inv G None σ → infos σ !! i = Some info →
  downloaded info !! request_fingerprint r = None →
  request_fingerprint r ∉ downloading info →
  hook_result r info σ ≠ VNone →
  let σ' := (_process_request r i σ).2 in
  let d := (_process_request r i σ).1.2 in
  inv G None σ' ∧ extends σ σ' ∧ attachable σ' i r d ∧
  length (deferreds σ) ≤ d < length (deferreds σ').
Proof.
  intros Hinv Hi Ho Hin Hh. cbv zeta.
  rewrite (process_request_short r i σ info Hi Ho Hin Hh). cbn [fst snd].
  pose proof (inv_no_queue G σ i info _ Hinv Hi Hin) as Hw.
  rewrite (short_circuit_world r i σ info _ Hi Hw).
  set (v := hook_result r info σ).
  set (fp := request_fingerprint r) in *.
  set (wad := length (deferreds σ)).
  set (info' := resolve_info v fp _).
  set (σ' := mkWorld _ _ _ _ _ _).
  assert (i < length (infos σ)) as Hlt by by eapply lookup_lt_Some.
  assert (∀ fp', default [] (waiting info' !! fp') =
                 default [] (waiting info !! fp')) as Hwq.
  { intros fp'. simpl. destruct (decide (fp = fp')) as [<-|Hne].
    - by rewrite lookup_delete_eq, Hw.
    - by rewrite lookup_delete_ne, lookup_insert_ne. }
  assert (extends σ σ') as He.
  { eapply (extends_intro σ σ' i info info'); try done.
    - apply (inv_infos _ _ _ Hinv).
    - apply info_inv_resolve, info_inv_start; [by eapply inv_info_lookup|done].
    - simpl. by apply insert_subseteq.
    - intros fp' w rest Hq. rewrite Hwq, Hq. exists []. by rewrite app_nil_r.
    - by instantiate (1 := []); rewrite app_nil_r.
    - by intros dl c ?%elem_of_nil.
    - intros j. by rewrite completions_app, completions_pair_events. }
  split; [|split; [done|split]].
  - apply (inv_grow_same G σ σ'); try done.
    intros i' fp'. simpl. rewrite queue_insert by done.
    destruct (decide (i = i')) as [<-|Hne]; [|done].
    rewrite Hwq. unfold queue. by rewrite Hi.
  - left. exists info', (sanitize v). split; [|split].
    + simpl. by apply list_lookup_insert_eq.
    + simpl. apply lookup_insert_eq.
    + apply lookup_snoc2_1.
  - simpl. rewrite length_app. simpl. lia.
Qed.

Lemma inv__process_request G r i σ :
  inv G None σ → i < length (infos σ) →
  let σ' := (_process_request r i σ).2 in
  let d := (_process_request r i σ).1.2 in
  inv G None σ' ∧ extends σ σ' ∧ attachable σ' i r d ∧
  length (deferreds σ) ≤ d < length (deferreds σ').
Proof.
  intros Hinv [info Hi]%lookup_lt_is_Some_2.
  destruct (downloaded info !! request_fingerprint r) as [o|] eqn:Ho.
  { by eapply inv_process_request_cached. }
  destruct (decide (request_fingerprint r ∈ downloading info)) as [Hin|Hin].
  { by eapply inv_process_request_inflight. }
  destruct (hook_result r info σ) eqn:Hh.
  - by eapply inv_process_request_fetch.
  - eapply inv_process_request_short; try done. by rewrite Hh.
  - eapply inv_process_request_short; try done. by rewrite Hh.
Qed.

(** ** The list comprehension *)

Lemma extends_refl σ : Forall info_inv (infos σ) → extends σ σ.
Proof.
  intros Hinv. constructor; try done.
  - by left.
  - eauto.
  - intros i fp w rest ->. exists []. by rewrite app_nil_r.
Qed.

Lemma extends_deferreds_length σ σ' :
  extends σ σ' → length (deferreds σ) ≤ length (deferreds σ').
Proof.
  intros He. destruct (deferreds σ) as [|df l] eqn:Hd using rev_ind.
  { simpl. lia. }
  clear IHl. assert (deferreds σ !! length l = Some df) as Hl.
  { rewrite Hd. apply lookup_snoc. }
  apply (ext_deferreds _ _ He), lookup_lt_Some in Hl.
  rewrite length_app. simpl. lia.
Qed.

Lemma extends_trans σ1 σ2 σ3 :
  extends σ1 σ2 → extends σ2 σ3 → extends σ1 σ3.
Proof.
  intros H1 H2. constructor.
  - apply (ext_infos _ _ H2).
  - pose proof (ext_length _ _ H1). pose proof (ext_length _ _ H2). lia.
  - by rewrite (ext_dlists _ _ H2), (ext_dlists _ _ H1).
  - intros d df Hd. by apply (ext_deferreds _ _ H2), (ext_deferreds _ _ H1).
  - intros kk dl Hd. by apply (ext_downloads _ _ H2), (ext_downloads _ _ H1).
  - intros kk c Hp. pose proof (extends_deferreds_length _ _ H1).
    destruct (ext_downloads_new _ _ H2 kk c Hp) as [Hp2|Hnew]; [|right; lia].
    apply (ext_downloads_new _ _ H1 kk c Hp2).
  - intros i info fp o Hi Ho.
    destruct (ext_cache _ _ H1 _ _ _ _ Hi Ho) as (info2 & Hi2 & Ho2).
    apply (ext_cache _ _ H2 _ _ _ _ Hi2 Ho2).
  - intros i fp w rest Hq.
    destruct (ext_queue _ _ H1 _ _ _ _ Hq) as (more & Hq2).
    destruct (ext_queue _ _ H2 _ _ _ _ Hq2) as (more' & Hq3).
    exists (more ++ more'). by rewrite app_assoc.
  - intros j. by rewrite (ext_log _ _ H2), (ext_log _ _ H1).
Qed.

Lemma inv_process_requests G rs i σ :
  inv G None σ → i < length (infos σ) →
  let ds := (process_requests rs i σ).1 in
  let σ' := (process_requests rs i σ).2 in
  inv G None σ' ∧ extends σ σ' ∧ length ds = length rs ∧
  (∀ k r d, rs !! k = Some r → ds !! k = Some d → attachable σ' i r d) ∧
  Forall (λ d, length (deferreds σ) ≤ d < length (deferreds σ')) ds ∧
  NoDup ds.
Proof.
  revert σ. induction rs as [|r rs IH]; intros σ Hinv Hi; cbv zeta.
  { simpl. split; [done|]. split; [apply extends_refl, (inv_infos _ _ _ Hinv)|].
    split; [done|]. split; [by intros k r d ?|]. split; constructor. }
  simpl.
  pose proof (inv__process_request G r i σ Hinv Hi) as (I1 & E1 & A1 & L1).
  destruct (_process_request r i σ) as [[r' d] σ1]. cbn [fst snd] in *.
  assert (i < length (infos σ1)) as Hi1.
  { pose proof (ext_length _ _ E1). lia. }
  pose proof (IH σ1 I1 Hi1) as (I2 & E2 & Hlen & A2 & L2 & N2).
  destruct (process_requests rs i σ1) as [ds σ2]. cbn [fst snd] in *.
  pose proof (extends_deferreds_length _ _ E2) as Hle.
  split; [done|]. split; [by eapply extends_trans|].
  split; [simpl; lia|]. split; [|split].
  - intros [|k] r0 d0; simpl.
    + intros [= <-] [= <-]. by eapply extends_attachable.
    + apply A2.
  - constructor; [lia|]. eapply Forall_impl; [exact L2|]. simpl. lia.
  - constructor; [|done]. intros Hd.
    rewrite Forall_forall in L2. apply L2 in Hd. lia.
Qed.

(** ** Counting the filled slots *)

Lemma filled_count_cons x l :
  filled_count (x :: l) =
  (if x is Some _ then 1 else 0) + filled_count l.
Proof.
  unfold filled_count. destruct x as [e|].
  - by rewrite filter_cons_True by done.
  - rewrite filter_cons_False; [done|]. by intros [? ?].
Qed.

Lemma filled_count_le l : filled_count l ≤ length l.
Proof.
  induction l as [|x l IH]; [done|]. rewrite filled_count_cons. simpl.
  destruct x; simpl; lia.
Qed.

Lemma filled_count_hole l k :
  l !! k = Some None → filled_count l < length l.
Proof.
  revert k. induction l as [|x l IH]; intros k Hk; [done|].
  rewrite filled_count_cons. simpl. destruct k as [|k]; simpl in Hk.
  - injection Hk as ->. pose proof (filled_count_le l). simpl. lia.
  - apply IH in Hk. destruct x; simpl; lia.
Qed.

Lemma filled_count_insert l k e :
  l !! k = Some None →
  filled_count (<[k := Some e]> l) = S (filled_count l).
Proof.
  revert k. induction l as [|x l IH]; intros k Hk; [done|].
  destruct k as [|k]; simpl in *.
  - injection Hk as ->. by rewrite !filled_count_cons.
  - rewrite !filled_count_cons, IH by done. lia.
Qed.

Lemma filled_count_replicate n : filled_count (replicate n None) = 0.
Proof.
  induction n as [|n IH]; [done|]. simpl. by rewrite filled_count_cons, IH.
Qed.

Lemma filled_count_full l k :
  filled_count l = length l → k < length l → ∃ e, l !! k = Some (Some e).
Proof.
  intros Hf Hk. apply lookup_lt_is_Some_2 in Hk as [[e|] Hk]; [by exists e|].
  apply filled_count_hole in Hk. lia.
Qed.

(** ** What a completion logs *)

Lemma completions_completion_events j j' dl infos :
  completions j' (completion_events j dl infos) =
  match dl_callback dl with
  | Some cbk =>
      if decide (j = j') then
        match infos !! cbk.2 with
        | Some _ => [(resultList dl, cbk.1, cbk.2)]
        | None => []
        end
      else []
  | None => []
  end.
Proof.
  unfold completion_events. destruct (dl_callback dl) as [cbk|]; [|done].
  destruct (infos !! cbk.2) as [info|]; [|by destruct (decide _)].
  unfold completions. csimpl.
  fold (completions j' (EvLogError <$> (item_completed (resultList dl) cbk.1 info).1)).
  rewrite completions_errors. by destruct (decide _).
Qed.

Lemma completions_fill_events_ne j j' k e dl infos :
  j ≠ j' → completions j' (fill_events j k e dl infos) = [].
Proof.
  intros Hne. unfold fill_events. destruct (dl_called dl); [done|].
  destruct (_ =? _); [|done]. rewrite completions_completion_events.
  destruct (dl_callback _); [|done]. by rewrite decide_False.
Qed.

(** ** Worlds that differ in some deferreds and one list *)

(** [σ'] is [σ] except for the deferreds in [D], the list [j0] and what the
    log says about that list. *)
Record touched (D : list nat) (j0 : option nat) (σ σ' : World) : Prop := {
  tch_infos : infos σ' = infos σ;
  tch_downloads : downloads σ' = downloads σ;
  tch_deferreds : ∀ d, d ∉ D → deferreds σ' !! d = deferreds σ !! d;
  tch_dlists_length : length (dlists σ') = length (dlists σ);
  tch_dlists : ∀ j, j0 ≠ Some j → dlists σ' !! j = dlists σ !! j;
  tch_log : ∀ j, j0 ≠ Some j →
    completions j (log σ') = completions j (log σ)
}.

Lemma touched_trans D j0 σ1 σ2 σ3 :
  touched D j0 σ1 σ2 → touched D j0 σ2 σ3 → touched D j0 σ1 σ3.
Proof.
  intros H1 H2. constructor.
  - by rewrite (tch_infos _ _ _ _ H2), (tch_infos _ _ _ _ H1).
  - by rewrite (tch_downloads _ _ _ _ H2), (tch_downloads _ _ _ _ H1).
  - intros d Hd.
    by rewrite (tch_deferreds _ _ _ _ H2), (tch_deferreds _ _ _ _ H1).
  - by rewrite (tch_dlists_length _ _ _ _ H2), (tch_dlists_length _ _ _ _ H1).
  - intros j Hj. by rewrite (tch_dlists _ _ _ _ H2), (tch_dlists _ _ _ _ H1).
  - intros j Hj. by rewrite (tch_log _ _ _ _ H2), (tch_log _ _ _ _ H1).
Qed.

Lemma touched_weaken D D' j0 j0' σ σ' :
  D ⊆ D' → (j0 = None ∨ j0 = j0') →
  touched D j0 σ σ' → touched D' j0' σ σ'.
Proof.
  intros HD Hj Ht. constructor.
  - apply (tch_infos _ _ _ _ Ht).
  - apply (tch_downloads _ _ _ _ Ht).
  - intros d Hd. apply (tch_deferreds _ _ _ _ Ht). intros Hin. by apply Hd, HD.
  - apply (tch_dlists_length _ _ _ _ Ht).
  - intros j Hne. apply (tch_dlists _ _ _ _ Ht). by destruct Hj as [->| ->].
  - intros j Hne. apply (tch_log _ _ _ _ Ht). by destruct Hj as [->| ->].
Qed.

Lemma touched_logs D l σ :
  (∀ j, completions j l = []) → touched D None σ (logs l σ).
Proof.
  intros Hl. constructor; try done.
  intros j _. simpl. by rewrite completions_app, Hl, app_nil_r.
Qed.

Lemma touched_emit D e σ :
  (∀ j, completion_of j e = None) → touched D None σ (emit e σ).
Proof.
  intros He. constructor; try done.
  intros j _. simpl. rewrite completions_app. unfold completions at 2.
  csimpl. by rewrite He, app_nil_r.
Qed.

Lemma touched_set_deferred d df σ :
  touched [d] None σ (set_deferreds (<[d := df]> (deferreds σ)) σ).
Proof.
  constructor; try done. intros d' Hd. simpl.
  apply list_lookup_insert_ne. intros ->. apply Hd. by left.
Qed.

Lemma touched_settle d v σ : touched [d] None σ (settle d v σ).
Proof. apply touched_set_deferred. Qed.

Lemma touched_set_result d v σ : touched [d] None σ (set_result d v σ).
Proof.
  unfold set_result. destruct (deferreds σ !! d); [|by constructor].
  apply touched_set_deferred.
Qed.

Lemma touched_filled D j k e dl σ :
  touched D (Some j) σ (filled j k e dl σ).
Proof.
  constructor; try done.
  - simpl. apply length_insert.
  - intros j' Hne. simpl. apply list_lookup_insert_ne. congruence.
  - intros j' Hne. simpl. rewrite completions_app.
    rewrite completions_fill_events_ne by congruence. by rewrite app_nil_r.
Qed.

Lemma touched_pending_def D j0 σ σ' d cbs :
  touched D j0 σ σ' →
  d ∉ D → pending_def σ d cbs → pending_def σ' d cbs.
Proof.
  intros Ht Hd Hp. unfold pending_def. by rewrite (tch_deferreds _ _ _ _ Ht).
Qed.

Lemma touched_is_called D j0 σ σ' d :
  touched D j0 σ σ' → d ∉ D → is_called σ d → is_called σ' d.
Proof.
  intros Ht Hd (df & Hl & Hc). exists df.
  by rewrite (tch_deferreds _ _ _ _ Ht).
Qed.

Lemma touched_pending_download D j0 σ σ' kk c :
  touched D j0 σ σ' →
  pending_download σ' kk c ↔ pending_download σ kk c.
Proof.
  intros Ht. unfold pending_download. by rewrite (tch_downloads _ _ _ _ Ht).
Qed.

Lemma touched_queue D j0 σ σ' i fp :
  touched D j0 σ σ' → queue (infos σ') i fp = queue (infos σ) i fp.
Proof. intros Ht. by rewrite (tch_infos _ _ _ _ Ht). Qed.

Lemma touched_cached D j0 σ σ' i r o :
  touched D j0 σ σ' → cached σ i r o → cached σ' i r o.
Proof. intros Ht. unfold cached. by rewrite (tch_infos _ _ _ _ Ht). Qed.

Lemma touched_waiter_ok D j0 σ σ' G G' i fp w :
  touched D j0 σ σ' →
  (∀ i r d j k, slot_of G i r d j k → slot_of G' i r d j k) →
  w ∉ D → waiter_ok G σ i fp w → waiter_ok G' σ' i fp w.
Proof.
  intros Ht HG Hw (cb & eb & tl & Hd & Htl). exists cb, eb, tl.
  split; [by eapply touched_pending_def|].
  destruct Htl as [->|(j & k & r & -> & Hs & ?)]; [by left|right].
  exists j, k, r. split; [done|]. split; [by apply HG|done].
Qed.

Lemma touched_chain_ok D j0 σ σ' G G' c :
  touched D j0 σ σ' →
  (∀ i r d j k, slot_of G i r d j k → slot_of G' i r d j k) →
  c_wad c ∉ D → c_dfd c ∉ D → chain_ok G σ c → chain_ok G' σ' c.
Proof.
  intros Ht HG Hw Hd (cb & eb & tl & rest & Hq & Hpw & Hpd & Htl).
  exists cb, eb, tl, rest. rewrite (touched_queue _ _ _ _ _ _ Ht).
  split; [done|]. split; [by eapply touched_pending_def|].
  split; [by eapply touched_pending_def|].
  destruct Htl as [->|(j & k & r & -> & Hs & ?)]; [by left|right].
  exists j, k, r. split; [done|]. split; [by apply HG|done].
Qed.

Lemma touched_held D j0 σ σ' A i r d j k :
  touched D j0 σ σ' →
  d ∉ D → held A σ i r d j k → held A σ' i r d j k.
Proof.
  intros Ht Hd [[Hq Hp]|[(kk & w & Hpd & Hp)|[(a & HA & ? & ? & ? & Hp)|
    (a & HA & ? & ? & ? & ? & ? & Hp)]]].
  - left. rewrite (touched_queue _ _ _ _ _ _ Ht). split; [done|by eapply touched_pending_def].
  - right. left. exists kk, w. rewrite (touched_pending_download _ _ _ _ _ _ Ht).
    split; [done|by eapply touched_pending_def].
  - right. right. left. exists a. repeat split; try done.
    by eapply touched_pending_def.
  - right. right. right. exists a. repeat split; try done.
    by eapply touched_pending_def.
Qed.

Lemma touched_attachable D j0 σ σ' i r d :
  touched D j0 σ σ' →
  d ∉ D → (∀ kk c, pending_download σ kk c → c_wad c ∉ D) →
  attachable σ i r d → attachable σ' i r d.
Proof.
  intros Ht Hd Hw [(info & o & Hi & Ho & Hl)|[(Hq & Hp & Hn)|
    (kk & w & Hpd & Hp & Hpw)]].
  - left. exists info, o. rewrite (tch_infos _ _ _ _ Ht).
    split; [done|]. split; [done|]. by rewrite (tch_deferreds _ _ _ _ Ht).
  - right. left. rewrite (touched_queue _ _ _ _ _ _ Ht).
    split; [done|]. split; [by eapply touched_pending_def|].
    intros kk c Hc. apply Hn with kk. by apply (touched_pending_download _ _ _ _ _ _ Ht).
  - right. right. exists kk, w. rewrite (touched_pending_download _ _ _ _ _ _ Ht).
    split; [done|]. split; [by eapply touched_pending_def|].
    eapply touched_pending_def; [done| |done]. apply (Hw kk _ Hpd).
Qed.

Lemma touched_task_ok D j0 σ σ' j t :
  touched D j0 σ σ' →
  j0 ≠ Some j → task_ok σ j t → task_ok σ' j t.
Proof.
  intros Ht Hj (dl & Hl & Hrest). exists dl.
  rewrite (tch_dlists _ _ _ _ Ht), (tch_log _ _ _ _ Ht) by done.
  by rewrite (tch_infos _ _ _ _ Ht).
Qed.

Lemma held_pending A σ i r d j k :
  held A σ i r d j k → ∃ cbs, pending_def σ d cbs ∧ CbSlot j k ∈ cbs.
Proof.
  intros [[Hq Hp]|[(kk & w & Hpd & Hp)|[(a & HA & ? & ? & ? & Hp)|
    (a & HA & ? & ? & ? & ? & ? & Hp)]]]; eexists; (split; [exact Hp|]);
    set_solver.
Qed.

Lemma pending_not_called σ d cbs : pending_def σ d cbs → ¬ is_called σ d.
Proof. intros Hp (df & Hd & Hc). unfold pending_def in Hp. by simplify_eq. Qed.

Lemma touched_ref_ok D j0 σ σ' A j t k r d :
  touched D j0 σ σ' →
  d ∉ D ∨ (is_called σ d ∧ is_called σ' d ∧ k < t_attached t) →
  (∀ kk c, pending_download σ kk c → c_wad c ∉ D) →
  (∀ dl, dlists σ !! j = Some dl →
     ∃ dl', dlists σ' !! j = Some dl' ∧
            resultList dl' !! k = resultList dl !! k) →
  ref_ok A σ j t k r d → ref_ok A σ' j t k r d.
Proof.
  intros Ht Hd Hw Hdl (dl & Hl & Hc).
  destruct (Hdl dl Hl) as (dl' & Hl' & Hk). exists dl'. split; [done|].
  rewrite Hk.
  destruct Hc as [(? & o & ? & ? & ?)|[(? & ? & Hh)|(? & ? & ?)]].
  - left. split; [done|]. exists o. split; [done|].
    split; [by eapply touched_cached|].
    destruct Hd as [Hd|(_ & Hd & _)]; [by eapply touched_is_called|done].
  - right. left. split; [done|]. split; [done|].
    destruct Hd as [Hd|(Hd & _ & _)]; [by eapply touched_held|].
    destruct (held_pending _ _ _ _ _ _ _ Hh) as (cbs & Hp & _).
    by apply pending_not_called in Hp.
  - right. right. split; [done|]. split; [done|].
    destruct Hd as [Hd|(_ & _ & Hd)]; [by eapply touched_attachable|lia].
Qed.

(** The invariant after such a change: what concerns the touched objects
    has to be shown, the rest carries over. *)
Lemma inv_touch G G' A A' D j0 σ σ' :
  inv G A σ → touched D j0 σ σ' →
  length G' = length G →
  (∀ i r d j k, slot_of G i r d j k → slot_of G' i r d j k) →
  (∀ j, j0 = Some j → j < length G) →
  (∀ j t, G' !! j = Some t → task_ok σ' j t) →
  (∀ j t k r d,
     G' !! j = Some t → t_requests t !! k = Some r → t_ds t !! k = Some d →
     ref_ok A' σ' j t k r d) →
  (∀ i fp w, w ∈ queue (infos σ) i fp → w ∈ D → waiter_ok G' σ' i fp w) →
  (∀ kk c, pending_download σ kk c → c_wad c ∈ D ∨ c_dfd c ∈ D →
     chain_ok G' σ' c) →
  from_option (agenda_ok G' σ') True A' →
  inv G' A' σ'.
Proof.
  intros Hinv Ht Hlen HG Hj0 Htask Href Hq Hdl Hag. constructor; try done.
  - rewrite (tch_infos _ _ _ _ Ht). apply (inv_infos _ _ _ Hinv).
  - rewrite Hlen, (tch_dlists_length _ _ _ _ Ht). apply (inv_len _ _ _ Hinv).
  - intros j Hj. rewrite (tch_log _ _ _ _ Ht).
    + apply (inv_fresh _ _ _ Hinv). lia.
    + intros ->. specialize (Hj0 j eq_refl). lia.
  - intros i fp w. rewrite (touched_queue _ _ _ _ _ _ Ht). intros Hw.
    destruct (decide (w ∈ D)) as [Hin|Hin]; [by apply Hq|].
    eapply touched_waiter_ok; try done. by apply (inv_queue _ _ _ Hinv).
  - intros i fp. rewrite (touched_queue _ _ _ _ _ _ Ht).
    apply (inv_queue_nodup _ _ _ Hinv).
  - intros i fp i' fp' w. rewrite !(touched_queue _ _ _ _ _ _ Ht).
    apply (inv_queue_disj _ _ _ Hinv).
  - intros kk c Hc%(touched_pending_download _ _ _ _ _ _ Ht).
    destruct (decide (c_wad c ∈ D)) as [Hin|Hin]; [by eapply Hdl; eauto|].
    destruct (decide (c_dfd c ∈ D)) as [Hin'|Hin']; [by eapply Hdl; eauto|].
    eapply touched_chain_ok; try done. by apply (inv_download _ _ _ Hinv kk).
  - intros kk c kk' c' Hc%(touched_pending_download _ _ _ _ _ _ Ht)
      Hc'%(touched_pending_download _ _ _ _ _ _ Ht).
    by apply (inv_download_inj _ _ _ Hinv).
  - rewrite (tch_downloads _ _ _ _ Ht), (tch_infos _ _ _ _ Ht).
    apply (inv_download_info _ _ _ Hinv).
Qed.

(** ** Changes of the table *)

(** One more slot callback added; [item_completed] added. *)
Definition attach (t : Task) : Task :=
  mkTask (t_item t) (t_info t) (t_requests t) (t_ds t) (S (t_attached t))
    (t_hooked t).

Definition hook (t : Task) : Task :=
  mkTask (t_item t) (t_info t) (t_requests t) (t_ds t) (t_attached t) true.

Definition attach_all (t : Task) : Task :=
  mkTask (t_item t) (t_info t) (t_requests t) (t_ds t)
    (length (t_requests t)) (t_hooked t).

Lemma slot_of_insert G j0 t0 t' i r d j k :
  G !! j0 = Some t0 → t_info t' = t_info t0 →
  t_requests t' = t_requests t0 → t_ds t' = t_ds t0 →
  slot_of G i r d j k → slot_of (<[j0 := t']> G) i r d j k.
Proof.
  intros H0 Hi Hr Hd (t & Hj & Hti & Hrk & Hdk).
  destruct (decide (j0 = j)) as [->|Hne].
  - exists t'. rewrite list_lookup_insert_eq by by eapply lookup_lt_Some.
    assert (t = t0) as -> by congruence. by rewrite Hi, Hr, Hd.
  - exists t. by rewrite list_lookup_insert_ne.
Qed.

Lemma slot_of_app G t i r d j k :
  slot_of G i r d j k → slot_of (G ++ [t]) i r d j k.
Proof.
  intros (t0 & Hj & ?). exists t0. split; [|done]. by apply lookup_app_l_Some.
Qed.

Lemma task_ok_same σ j t t' :
  task_ok σ j t → t_item t' = t_item t → t_info t' = t_info t →
  t_requests t' = t_requests t → t_ds t' = t_ds t →
  t_attached t' ≤ length (t_requests t) → t_hooked t' = t_hooked t →
  task_ok σ j t'.
Proof.
  intros (dl & Hl & H1 & H2 & H3 & H4 & Hrest) E1 E2 E3 E4 E5 E6. exists dl.
  rewrite E1, E2, E3, E4, E6. by repeat (split; [done|]).
Qed.

Lemma task_ok_attach σ j t :
  task_ok σ j t → t_attached t < length (t_requests t) →
  task_ok σ j (attach t).
Proof. intros Hok Hlt. eapply task_ok_same; [done|..]; simpl; try done. Qed.

Lemma ref_ok_same A σ j t t' k r d :
  ref_ok A σ j t k r d → t_info t' = t_info t →
  (k < t_attached t ↔ k < t_attached t') →
  ref_ok A σ j t' k r d.
Proof.
  intros (dl & Hl & Hc) E1 E2. exists dl. split; [done|]. rewrite E1.
  destruct Hc as [(? & ?)|[(? & ?)|(? & ?)]].
  - left. split; [by apply E2|done].
  - right. left. split; [by apply E2|done].
  - right. right. split; [|done].
    destruct (decide (k < t_attached t')) as [Hlt|]; [|lia].
    apply E2 in Hlt. lia.
Qed.

(** ** Filling a slot *)

Lemma fill_task_ok σ σ' j t k e dl :
  task_ok σ j t → dlists σ !! j = Some dl → resultList dl !! k = Some None →
  dlists σ' !! j = Some (fill k e dl) → infos σ' = infos σ →
  completions j (log σ') =
    completions j (log σ) ++
    completions j (fill_events j k e dl (infos σ)) →
  task_ok σ' j t.
Proof.
  intros (dl0 & Hl0 & H1 & H2 & H3 & H4 & H5 & H6 & H7 & H8 & H9 & H10)
    Hl Hk Hl' Hi Hlog.
  assert (dl0 = dl) as -> by congruence.
  pose proof (filled_count_hole _ _ Hk) as Hlt.
  assert (dl_called dl = false) as Hc.
  { destruct (dl_called dl) eqn:E; [|done]. destruct H7 as [H7 _].
    specialize (H7 eq_refl). lia. }
  exists (fill k e dl). split; [done|].
  unfold fill. cbn [resultList finishedCount dl_called dl_callback].
  rewrite length_insert, filled_count_insert by done. rewrite Hi, Hc.
  cbn [orb].
  split; [done|]. split; [done|]. split; [done|]. split; [done|].
  split; [done|]. split; [by rewrite H6|]. split; [apply Nat.eqb_eq|].
  split; [done|]. split.
  { intros Hh _. by apply H9. }
  rewrite Hlog, H10, Hc, andb_false_r. cbn [app]. unfold fill_events.
  rewrite Hc.
  destruct (S (finishedCount dl) =? length (resultList dl)) eqn:E.
  - rewrite completions_completion_events. cbn [dl_callback fill resultList].
    destruct (t_hooked t) eqn:Hh.
    + rewrite H9 by done. cbn [fst snd andb]. rewrite decide_True by done.
      destruct (infos σ !! t_info t) eqn:Hinfo; [done|].
      apply lookup_ge_None in Hinfo. lia.
    + by rewrite H8.
  - by rewrite andb_false_r.
Qed.

Lemma touched_agenda_ok D j0 σ σ' G G' a :
  touched D j0 σ σ' →
  (∀ i r d j k, slot_of G i r d j k → slot_of G' i r d j k) →
  closed G' →
  (∀ w, w ∈ a_rest a → w ∉ D) → a_dfd a ∉ D → a_wad a ∉ D →
  agenda_ok G σ a → agenda_ok G' σ' a.
Proof.
  intros Ht HG Hcl Hrest Hdfd Hwad (_ & Hca & Hnd & Hw & Hd & Hdl & Hch).
  split; [done|]. rewrite (tch_infos _ _ _ _ Ht).
  split; [done|]. split; [done|]. split; [|split; [|split]].
  - intros w Hin. destruct (Hw w Hin) as [Hq Hok]. split; [done|].
    eapply touched_waiter_ok; eauto.
  - destruct Hd as (tl & Hp & Htl). exists tl.
    split; [by eapply touched_pending_def|].
    destruct Htl as [->|(j & k & r & -> & Hs & ?)]; [by left|right].
    exists j, k, r. split; [done|]. split; [by apply HG|done].
  - intros kk c Hc. apply (Hdl kk).
    by apply (touched_pending_download _ _ _ _ _ _ Ht).
  - destruct Hch as [[Hin Hp]|[Hin Hl]]; [left|right].
    + split; [done|by eapply touched_pending_def].
    + split; [done|]. by rewrite (tch_deferreds _ _ _ _ Ht).
Qed.

(** Changes that touch no deferred and no list keep the invariant. *)
Lemma inv_quiet G A σ σ' : inv G A σ → touched [] None σ σ' → inv G A σ'.
Proof.
  intros Hinv Ht.
  apply (inv_touch G G A A [] None σ σ' Hinv Ht); try done.
  - intros j t Hj. eapply touched_task_ok; [done..|].
    by apply (inv_task _ _ _ Hinv).
  - intros j t k r d Hj Hr Hd. eapply touched_ref_ok; [done|..].
    + left. apply not_elem_of_nil.
    + intros kk c _. apply not_elem_of_nil.
    + intros dl Hl. exists dl. by rewrite (tch_dlists _ _ _ _ Ht).
    + by apply (inv_ref _ _ _ Hinv).
  - by intros i fp w _ ?%elem_of_nil.
  - intros kk c _ [?%elem_of_nil|?%elem_of_nil]; done.
  - pose proof (inv_agenda _ _ _ Hinv) as Hag.
    destruct A as [a|]; [|done]. simpl in *.
    eapply touched_agenda_ok; try done; try apply not_elem_of_nil.
    + by destruct Hag.
    + intros w _. apply not_elem_of_nil.
Qed.

Lemma inv_emit G A e σ :
  inv G A σ → (∀ j, completion_of j e = None) → inv G A (emit e σ).
Proof. intros Hinv He. eapply inv_quiet; [done|]. by apply touched_emit. Qed.

(** ** Adding a slot callback *)

(** The deferred of an attached slot is not a pending deferred that has no
    callback for this slot. *)
Lemma ref_deferred_ne A σ j t k r d d0 cbs :
  ref_ok A σ j t k r d → k < t_attached t →
  pending_def σ d0 cbs → CbSlot j k ∉ cbs → d ≠ d0.
Proof.
  intros (dl & Hl & [(? & o & ? & ? & Hc)|[(? & ? & Hh)|(? & ? & ?)]])
    Hk Hp Hn; [| |lia].
  - intros ->. by apply pending_not_called in Hp.
  - intros ->. destruct (held_pending _ _ _ _ _ _ _ Hh) as (cbs' & Hp' & Hin).
    unfold pending_def in *. by simplify_eq.
Qed.

Lemma lookup_insert_task (G : list Task) j t t' j' :
  j < length G →
  <[j := t]> G !! j' = Some t' →
  (j' = j ∧ t' = t) ∨ (j' ≠ j ∧ G !! j' = Some t').
Proof.
  intros Hlt. destruct (decide (j = j')) as [<-|Hne].
  - rewrite list_lookup_insert_eq by done. intros [= <-]. by left.
  - rewrite list_lookup_insert_ne by done. by right.
Qed.

Lemma inv_attach_called G σ j t r d dl info o :
  inv G None σ → G !! j = Some t →
  t_requests t !! t_attached t = Some r → t_ds t !! t_attached t = Some d →
  (∀ j' t', G !! j' = Some t' → j' ≠ j →
     t_attached t' = length (t_requests t')) →
  dlists σ !! j = Some dl → resultList dl !! t_attached t = Some None →
  infos σ !! t_info t = Some info →
  downloaded info !! request_fingerprint r = Some o →
  deferreds σ !! d =
    Some (mkDeferred true (pair_result (cb_of r) (eb_of r) o) []) →
  inv (<[j := attach t]> G) None (addCallbacks d (CbSlot j (t_attached t)) σ).
Proof.
  intros Hinv Hj Hr Hd Hcl Hl Hhole Hi Ho Hdef.
  set (k := t_attached t) in *.
  pose proof (inv_task _ _ _ Hinv j t Hj) as Htask.
  assert (j < length G) as Hjlt by by eapply lookup_lt_Some.
  assert (j < length (dlists σ)) as Hjlt' by by eapply lookup_lt_Some.
  assert (d < length (deferreds σ)) as Hdlt by by eapply lookup_lt_Some.
  assert (k < length (resultList dl)) as Hklt by by eapply lookup_lt_Some.
  assert (∀ k' d', t_ds t !! k' = Some d' → k' ≠ k → d' ≠ d) as Hnd.
  { intros k' d' Hk' Hne ->.
    destruct Htask as (? & ? & ? & ? & Hnodup & _).
    by eapply Hne, NoDup_lookup. }
  rewrite (add_slot_called d _ j k dl σ Hdef Hl).
  set (v := pair_result (cb_of r) (eb_of r) o).
  set (σ' := settle d (consumed v) (filled j k (entry v) dl σ)).
  assert (touched [d] (Some j) σ σ') as Ht.
  { eapply touched_trans; [apply touched_filled|].
    eapply touched_weaken; [..|apply touched_settle]; [done|by left]. }
  assert (is_called σ d) as Hcd by by eexists.
  assert (is_called σ' d) as Hcd'.
  { eexists. split; [by apply list_lookup_insert_eq|done]. }
  assert (∀ kk c, pending_download σ kk c → (c_wad c ∉ [d]) ∧ (c_dfd c ∉ [d]))
    as Hnow.
  { intros kk c Hc.
    destruct (inv_download _ _ _ Hinv kk c Hc)
      as (cb & eb & tl & rest & _ & Hpw & Hpd & _).
    split; intros Heq%list_elem_of_singleton; rewrite Heq in *;
      [exact (pending_not_called _ _ _ Hpw Hcd)
      |exact (pending_not_called _ _ _ Hpd Hcd)]. }
  assert (dlists σ' !! j = Some (fill k (entry v) dl)) as Hl'.
  { by apply list_lookup_insert_eq. }
  apply (inv_touch G _ None None [d] (Some j) σ σ' Hinv Ht); try done.
  - apply length_insert.
  - intros. by eapply slot_of_insert.
  - by intros ? [= <-].
  - intros j' t' Hj0.
    destruct (lookup_insert_task G j _ t' j' Hjlt Hj0)
      as [[-> ->]|[Hne Hj']]; clear Hj0.
    + apply task_ok_attach.
      * eapply (fill_task_ok σ σ' j t k (entry v) dl); try done.
        simpl. by rewrite completions_app.
      * by eapply lookup_lt_Some.
    + eapply touched_task_ok; [done|congruence|].
      by apply (inv_task _ _ _ Hinv).
  - intros j' t' k' r' d' Hj0 Hr' Hd'.
    destruct (lookup_insert_task G j _ t' j' Hjlt Hj0)
      as [[-> ->]|[Hne Hj']]; clear Hj0; simpl in Hr', Hd'.
    + destruct (decide (k' = k)) as [->|Hk'].
      * assert (r' = r) as -> by congruence.
        assert (d' = d) as -> by congruence.
        exists (fill k (entry v) dl). split; [done|]. left.
        split; [simpl; lia|]. exists o.
        split; [by apply list_lookup_insert_eq|]. split; [|done].
        exists info. by rewrite (tch_infos _ _ _ _ Ht).
      * eapply (ref_ok_same None σ' j t); [|done|simpl; fold k; lia].
        eapply touched_ref_ok; [done|..].
        -- left. intros ->%list_elem_of_singleton. by eapply Hnd.
        -- intros kk c Hc. by apply (Hnow kk c).
        -- intros dl0 Hl0. assert (dl0 = dl) as -> by congruence.
           eexists. split; [done|]. simpl. by apply list_lookup_insert_ne.
        -- by apply (inv_ref _ _ _ Hinv).
    + assert (k' < t_attached t') as Hk'.
      { rewrite (Hcl j' t') by done. by eapply lookup_lt_Some. }
      eapply touched_ref_ok; [done|..].
      * destruct (decide (d' = d)) as [->|Hne']; [by right|left].
        by intros ->%list_elem_of_singleton.
      * intros kk c Hc. by apply (Hnow kk c).
      * intros dl0 Hl0. exists dl0. split; [|done].
        rewrite (tch_dlists _ _ _ _ Ht); [done|congruence].
      * by apply (inv_ref _ _ _ Hinv).
  - intros i fp w Hw ->%list_elem_of_singleton. exfalso.
    destruct (inv_queue _ _ _ Hinv _ _ _ Hw) as (cb & eb & tl & Hp & _).
    exact (pending_not_called _ _ _ Hp Hcd).
  - intros kk c Hc Hor. exfalso. destruct (Hnow kk c Hc). by destruct Hor.
Qed.

Lemma inv_attach_pending G σ j t r d dl cbs :
  inv G None σ → G !! j = Some t →
  t_requests t !! t_attached t = Some r → t_ds t !! t_attached t = Some d →
  (∀ j' t', G !! j' = Some t' → j' ≠ j →
     t_attached t' = length (t_requests t')) →
  dlists σ !! j = Some dl → resultList dl !! t_attached t = Some None →
  pending_def σ d cbs → (∀ j k, CbSlot j k ∉ cbs) →
  (∀ kk c, pending_download σ kk c → c_wad c ≠ d) →
  let σ' :=
    set_deferreds
      (<[d := mkDeferred false VNone (cbs ++ [CbSlot j (t_attached t)])]>
         (deferreds σ)) σ in
  held None σ' (t_info t) r d j (t_attached t) →
  (∀ i fp, d ∈ queue (infos σ) i fp →
     waiter_ok (<[j := attach t]> G) σ' i fp d) →
  (∀ kk c, pending_download σ kk c → c_dfd c = d →
     chain_ok (<[j := attach t]> G) σ' c) →
  inv (<[j := attach t]> G) None σ'.
Proof.
  intros Hinv Hj Hr Hd Hcl Hl Hhole Hp Hcbs Hnw σ' Hheld Hq Hdl.
  set (k := t_attached t) in *.
  pose proof (inv_task _ _ _ Hinv j t Hj) as Htask.
  assert (j < length G) as Hjlt by by eapply lookup_lt_Some.
  assert (∀ k' d', t_ds t !! k' = Some d' → k' ≠ k → d' ≠ d) as Hnd.
  { intros k' d' Hk' Hne ->.
    destruct Htask as (? & ? & ? & ? & Hnodup & _).
    by eapply Hne, NoDup_lookup. }
  assert (touched [d] None σ σ') as Ht by apply touched_set_deferred.
  assert (∀ kk c, pending_download σ kk c → c_wad c ∉ [d]) as Hnw'.
  { intros kk c Hc ?%list_elem_of_singleton. by eapply Hnw. }
  apply (inv_touch G _ None None [d] None σ σ' Hinv Ht); try done.
  - apply length_insert.
  - intros. by eapply slot_of_insert.
  - intros j' t' Hj0.
    destruct (lookup_insert_task G j _ t' j' Hjlt Hj0)
      as [[-> ->]|[Hne Hj']]; clear Hj0.
    + apply task_ok_attach; [|by eapply lookup_lt_Some].
      eapply touched_task_ok; [done..|]. by apply (inv_task _ _ _ Hinv).
    + eapply touched_task_ok; [done..|]. by apply (inv_task _ _ _ Hinv).
  - intros j' t' k' r' d' Hj0 Hr' Hd'.
    destruct (lookup_insert_task G j _ t' j' Hjlt Hj0)
      as [[-> ->]|[Hne Hj']]; clear Hj0; simpl in Hr', Hd'.
    + destruct (decide (k' = k)) as [->|Hk'].
      * assert (r' = r) as -> by congruence.
        assert (d' = d) as -> by congruence.
        exists dl. split; [done|]. right. left.
        split; [simpl; lia|]. by split.
      * eapply (ref_ok_same None σ' j t); [|done|simpl; fold k; lia].
        eapply touched_ref_ok; [done|..]; try done.
        -- left. intros ->%list_elem_of_singleton. by eapply Hnd.
        -- intros dl0 Hl0. by exists dl0.
        -- by apply (inv_ref _ _ _ Hinv).
    + assert (k' < t_attached t') as Hk'.
      { rewrite (Hcl j' t') by done. by eapply lookup_lt_Some. }
      pose proof (inv_ref _ _ _ Hinv j' t' k' r' d' Hj' Hr' Hd') as Hrf.
      eapply touched_ref_ok; [done|..]; try done.
      * left. intros ->%list_elem_of_singleton.
        by eapply (ref_deferred_ne None σ j' t' k' r' d d cbs).
      * intros dl0 Hl0. by exists dl0.
  - intros i fp w Hw ->%list_elem_of_singleton. by apply Hq.
  - intros kk c Hc [Hor%list_elem_of_singleton|Hor%list_elem_of_singleton];
      [|by eapply Hdl].
    exfalso. by eapply Hnw.
Qed.

Lemma inv_attach G σ j t r d :
  inv G None σ → G !! j = Some t →
  t_requests t !! t_attached t = Some r → t_ds t !! t_attached t = Some d →
  (∀ j' t', G !! j' = Some t' → j' ≠ j →
     t_attached t' = length (t_requests t')) →
  inv (<[j := attach t]> G) None (addCallbacks d (CbSlot j (t_attached t)) σ).
Proof.
  intros Hinv Hj Hr Hd Hcl.
  destruct (inv_ref _ _ _ Hinv j t _ r d Hj Hr Hd)
    as (dl & Hl & [(Hlt & _)|[(Hlt & _)|(_ & Hhole & Hatt)]]); [lia..|].
  assert (j < length G) as Hjlt by by eapply lookup_lt_Some.
  assert (slot_of (<[j := attach t]> G) (t_info t) r d j (t_attached t))
    as Hslot.
  { exists (attach t). split; [by apply list_lookup_insert_eq|done]. }
  destruct Hatt as [(info & o & Hi & Ho & Hdef)|[(Hq & Hp & Hnw)|
    (kk & w & Hpd & Hp & Hpw)]].
  - by eapply inv_attach_called.
  - rewrite (add_slot_pending d _ j _ σ Hp).
    assert (d < length (deferreds σ)) as Hdlt by by eapply lookup_lt_Some.
    eapply (inv_attach_pending G σ j t r d dl); try done.
    + intros j0 k0 [=]%list_elem_of_singleton.
    + left. split; [done|]. by apply list_lookup_insert_eq.
    + intros i fp Hin.
      destruct (inv_queue_disj _ _ _ Hinv _ _ _ _ _ Hq Hin) as [<- <-].
      exists (cb_of r), (eb_of r), [CbSlot j (t_attached t)].
      split; [by apply list_lookup_insert_eq|]. right.
      by exists j, (t_attached t), r.
    + intros kk c Hc Heq. exfalso.
      destruct (inv_download _ _ _ Hinv kk c Hc)
        as (cb & eb & tl & rest & _ & _ & Hpd & Htl).
      rewrite Heq in Hpd. unfold pending_def in *.
      destruct Htl as [->|(? & ? & ? & -> & _)]; by simplify_eq.
  - rewrite (add_slot_pending d _ j _ σ Hp).
    assert (d < length (deferreds σ)) as Hdlt by by eapply lookup_lt_Some.
    assert (w ≠ d) as Hwd.
    { intros ->. unfold pending_def in *. by simplify_eq. }
    eapply (inv_attach_pending G σ j t r d dl); try done.
    + intros j0 k0 ?%elem_of_nil. done.
    + intros kk' c Hc Heq.
      destruct (inv_download _ _ _ Hinv kk' c Hc)
        as (cb & eb & tl & rest & _ & Hpw' & _).
      rewrite Heq in Hpw'. unfold pending_def in *. by simplify_eq.
    + right. left. exists kk, w. split; [done|].
      by apply list_lookup_insert_eq.
    + intros i fp Hin. exfalso.
      destruct (inv_queue _ _ _ Hinv _ _ _ Hin) as (cb & eb & tl & Hp' & _).
      unfold pending_def in *. by simplify_eq.
    + intros kk' c Hc Heq.
      assert (kk' = kk) as ->.
      { eapply (inv_download_inj _ _ _ Hinv); [exact Hc|exact Hpd|by left]. }
      assert (c = mkContinuation (request_fingerprint r) (t_info t) w d) as ->.
      { destruct Hc as (dl1 & ? & ? & ?), Hpd as (dl2 & ? & ? & ?).
        congruence. }
      destruct (inv_download _ _ _ Hinv kk _ Hc)
        as (cb & eb & tl & rest & Hqc & Hpw' & Hpd' & Htl).
      simpl in *.
      assert (cb = cb_of r ∧ eb = eb_of r) as [-> ->].
      { unfold pending_def in *. by simplify_eq. }
      exists (cb_of r), (eb_of r), [CbSlot j (t_attached t)], rest.
      split; [done|]. simpl. split; [|split].
      * unfold pending_def. simpl. by rewrite list_lookup_insert_ne.
      * by apply list_lookup_insert_eq.
      * right. by exists j, (t_attached t), r.
Qed.

(** ** Building the list of an item *)

(** The list just created, before any slot callback is added. *)
Definition new_list (n : nat) : DeferredList :=
  {| resultList := replicate n None; finishedCount := 0;
     dl_called := bool_decide (n = 0); dl_callback := None |}.

Lemma DeferredList_new_eq ds σ :
  DeferredList_new ds σ =
  (length (dlists σ),
   add_slots (length (dlists σ)) 0 ds
     (set_dlists (dlists σ ++ [new_list (length ds)]) σ)).
Proof.
  unfold DeferredList_new. f_equal. f_equal.
  destruct ds as [|d ds]; [|done]. simpl.
  unfold DeferredList_callback. simpl. rewrite lookup_snoc. simpl.
  by rewrite insert_snoc.
Qed.

Lemma inv_new_list G σ item i rs ds :
  inv G None σ → i < length (infos σ) → length ds = length rs → NoDup ds →
  (∀ k r d, rs !! k = Some r → ds !! k = Some d → attachable σ i r d) →
  inv (G ++ [mkTask item i rs ds 0 false]) None
    (set_dlists (dlists σ ++ [new_list (length ds)]) σ).
Proof.
  intros Hinv Hi Hlen Hnd Hatt.
  set (t := mkTask item i rs ds 0 false).
  set (σ' := set_dlists _ σ).
  pose proof (inv_len _ _ _ Hinv) as HlenG.
  assert (∀ j t', (G ++ [t]) !! j = Some t' →
            G !! j = Some t' ∨ (j = length G ∧ t' = t)) as Hcase.
  { intros j t' [?|[? Hj]]%lookup_app_Some; [by left|right].
    apply list_lookup_singleton_Some in Hj as [Hj <-]. split; [lia|done]. }
  constructor; try done.
  - apply (inv_infos _ _ _ Hinv).
  - simpl. rewrite !length_app. simpl. lia.
  - intros j Hj. apply (inv_fresh _ _ _ Hinv). rewrite length_app in Hj. lia.
  - intros j t' [Hj|[-> ->]]%Hcase.
    + destruct (inv_task _ _ _ Hinv j t' Hj) as (dl & Hl & Hrest).
      exists dl. split; [|done]. simpl. by apply lookup_app_l_Some.
    + exists (new_list (length ds)). split.
      { simpl. rewrite HlenG. apply lookup_snoc. }
      simpl. rewrite length_replicate, filled_count_replicate.
      repeat split; try done; try lia.
      * intros ?%bool_decide_eq_true. lia.
      * intros ?. apply bool_decide_eq_true. lia.
      * by apply (inv_fresh _ _ _ Hinv).
  - intros j t' k r d [Hj|[-> ->]]%Hcase Hr Hd.
    + destruct (inv_ref _ _ _ Hinv j t' k r d Hj Hr Hd) as (dl & Hl & Hrest).
      exists dl. split; [|done]. simpl. by apply lookup_app_l_Some.
    + exists (new_list (length ds)). split.
      { simpl. rewrite HlenG. apply lookup_snoc. }
      right. right. simpl in *. split; [lia|]. split; [|by eapply Hatt].
      apply lookup_replicate_2. by eapply lookup_lt_Some.
  - intros i' fp w Hw.
    destruct (inv_queue _ _ _ Hinv _ _ _ Hw) as (cb & eb & tl & Hp & Htl).
    exists cb, eb, tl. split; [done|].
    destruct Htl as [->|(j & k & r & -> & Hs & ?)]; [by left|right].
    exists j, k, r. split; [done|]. split; [by apply slot_of_app|done].
  - apply (inv_queue_nodup _ _ _ Hinv).
  - apply (inv_queue_disj _ _ _ Hinv).
  - intros kk c Hc.
    destruct (inv_download _ _ _ Hinv kk c Hc)
      as (cb & eb & tl & rest & Hq & Hpw & Hpd & Htl).
    exists cb, eb, tl, rest. repeat (split; [done|]).
    destruct Htl as [->|(j & k & r & -> & Hs & ?)]; [by left|right].
    exists j, k, r. split; [done|]. split; [by apply slot_of_app|done].
  - apply (inv_download_inj _ _ _ Hinv).
  - apply (inv_download_info _ _ _ Hinv).
Qed.

Lemma inv_add_slots ds' : ∀ G σ j t,
  inv G None σ → G !! j = Some t →
  drop (t_attached t) (t_ds t) = ds' →
  (∀ j' t', G !! j' = Some t' → j' ≠ j →
     t_attached t' = length (t_requests t')) →
  inv (<[j := attach_all t]> G) None (add_slots j (t_attached t) ds' σ).
Proof.
  induction ds' as [|d rest IH]; intros G σ j t Hinv Hj Hdrop Hcl.
  - simpl.
    destruct (inv_task _ _ _ Hinv j t Hj) as (dl & _ & _ & Hlen & _ & Hle & _).
    assert (length (t_ds t) ≤ t_attached t) as Hge.
    { pose proof (length_drop (t_ds t) (t_attached t)) as Hd.
      rewrite Hdrop in Hd. simpl in Hd. lia. }
    assert (attach_all t = t) as ->.
    { destruct t. unfold attach_all. simpl in *. f_equal. lia. }
    by rewrite list_insert_id.
  - simpl.
    assert (t_ds t !! t_attached t = Some d) as Hd.
    { rewrite <- (Nat.add_0_r (t_attached t)), <- lookup_drop. by rewrite Hdrop. }
    destruct (inv_task _ _ _ Hinv j t Hj) as (dl & _ & _ & Hlen & _).
    assert (is_Some (t_requests t !! t_attached t)) as [r Hr].
    { apply lookup_lt_is_Some_2. apply lookup_lt_Some in Hd. lia. }
    assert (j < length G) as Hjlt by by eapply lookup_lt_Some.
    pose proof (inv_attach G σ j t r d Hinv Hj Hr Hd Hcl) as Hinv1.
    specialize (IH (<[j := attach t]> G) _ j (attach t) Hinv1).
    simpl in IH. rewrite list_insert_insert_eq in IH. apply IH.
    + by apply list_lookup_insert_eq.
    + erewrite drop_S in Hdrop by done. by injection Hdrop.
    + intros j' t' Hj' Hne. rewrite list_lookup_insert_ne in Hj' by done.
      by apply (Hcl j' t').
Qed.

Lemma inv_hook G σ j t :
  inv G None σ → G !! j = Some t → t_hooked t = false →
  inv (<[j := hook t]> G) None
    (add_item_completed j (t_item t) (t_info t) σ).
Proof.
  intros Hinv Hj Hh.
  destruct (inv_task _ _ _ Hinv j t Hj)
    as (dl & Hl & H1 & H2 & H3 & H4 & H5 & H6 & H7 & H8 & H9 & H10).
  assert (∃ info, infos σ !! t_info t = Some info) as [info Hi].
  { by apply lookup_lt_is_Some_2. }
  assert (j < length G) as Hjlt by by eapply lookup_lt_Some.
  assert (j < length (dlists σ)) as Hjlt' by by eapply lookup_lt_Some.
  rewrite Hh in H10. cbn [andb] in H10.
  set (σ' := add_item_completed _ _ _ σ).
  assert (touched [] (Some j) σ σ' ∧ task_ok σ' j (hook t) ∧
          ∀ k, ∃ dl', dlists σ' !! j = Some dl' ∧
                      resultList dl' !! k = resultList dl !! k)
    as (Ht & Htask & Hdl).
  { unfold σ', add_item_completed. rewrite Hl.
    destruct (dl_called dl) eqn:Hc.
    - unfold run_item_completed. cbn [fst snd]. simpl infos. rewrite Hi.
      rewrite emit_errors_log. split; [|split].
      + constructor; try done. intros j' Hne. simpl.
        rewrite !completions_app, completions_errors, app_nil_r.
        unfold completions at 2. csimpl. rewrite decide_False by congruence.
        by rewrite app_nil_r.
      + exists dl. split; [done|]. simpl. rewrite Hc.
        repeat split; try done; try apply H7.
        rewrite !completions_app, completions_errors, app_nil_r, H10.
        unfold completions. csimpl. by rewrite decide_True.
      + intros k. by exists dl.
    - split; [|split].
      + constructor; try done.
        * simpl. apply length_insert.
        * intros j' Hne. simpl. apply list_lookup_insert_ne. congruence.
      + eexists. split; [simpl; by apply list_lookup_insert_eq|]. simpl.
        by repeat split; try done; try apply H7.
      + intros k. eexists. split; [simpl; by apply list_lookup_insert_eq|].
        done. }
  apply (inv_touch G _ None None [] (Some j) σ σ' Hinv Ht); try done.
  - apply length_insert.
  - intros. by eapply slot_of_insert.
  - by intros ? [= <-].
  - intros j' t' Hj0.
    destruct (lookup_insert_task G j _ t' j' Hjlt Hj0)
      as [[-> ->]|[Hne Hj']]; clear Hj0; [done|].
    eapply touched_task_ok; [done|congruence|].
    by apply (inv_task _ _ _ Hinv).
  - intros j' t' k' r' d' Hj0 Hr' Hd'.
    destruct (lookup_insert_task G j _ t' j' Hjlt Hj0)
      as [[-> ->]|[Hne Hj']]; clear Hj0; simpl in Hr', Hd'.
    + eapply (ref_ok_same None σ' j t); [|done|done].
      eapply touched_ref_ok; [done|..].
      * left. apply not_elem_of_nil.
      * intros kk c _. apply not_elem_of_nil.
      * intros dl0 Hl0. assert (dl0 = dl) as -> by congruence. apply Hdl.
      * by apply (inv_ref _ _ _ Hinv).
    + eapply touched_ref_ok; [done|..].
      * left. apply not_elem_of_nil.
      * intros kk c _. apply not_elem_of_nil.
      * intros dl0 Hl0. exists dl0. split; [|done].
        rewrite (tch_dlists _ _ _ _ Ht); [done|congruence].
      * by apply (inv_ref _ _ _ Hinv).
  - by intros i fp w _ ?%elem_of_nil.
  - intros kk c _ [?%elem_of_nil|?%elem_of_nil]; done.
Qed.

(** The entry of the table for a call of [process_item] that got its
    requests. *)
Definition task_of (item : string) (i : nat) (rs : list Request) (σ : World)
    : Task :=
  mkTask item i rs
    (process_requests rs i (emit (EvGetMediaRequests item i) σ)).1
    (length rs) true.

Lemma closed_app G t :
  closed G → t_attached t = length (t_requests t) → t_hooked t = true →
  closed (G ++ [t]).
Proof.
  intros Hc H1 H2. apply Forall_app. split; [done|]. by constructor.
Qed.

Lemma closed_lookup G j t :
  closed G → G !! j = Some t →
  t_attached t = length (t_requests t) ∧ t_hooked t = true.
Proof. intros Hc Hj. by eapply (Forall_lookup_1 _ _ _ _ Hc). Qed.

Lemma inv_process_item_returns G item σ i info x :
  inv G None σ → closed G →
  spiderinfo σ = Some i → infos σ !! i = Some info →
  get_media_requests item info = GReturns x →
  (process_item item σ).1 = PDeferred (length (dlists σ)) ∧
  inv (G ++ [task_of item i (arg_to_iter x) σ]) None (process_item item σ).2 ∧
  closed (G ++ [task_of item i (arg_to_iter x) σ]).
Proof.
  intros Hinv Hcl Hsp Hi Hget. unfold process_item. rewrite Hsp, Hi, Hget.
  set (rs := arg_to_iter x).
  set (σ0 := emit (EvGetMediaRequests item i) σ).
  assert (inv G None σ0) as Hinv0 by by apply inv_emit.
  assert (i < length (infos σ0)) as Hlt by by eapply lookup_lt_Some.
  pose proof (inv_process_requests G rs i σ0 Hinv0 Hlt)
    as (Hinv1 & He & Hlen & Hatt & Hfresh & Hnd).
  unfold task_of. fold rs σ0.
  destruct (process_requests rs i σ0) as [ds σ1]. cbn [fst snd] in *.
  rewrite DeferredList_new_eq.
  assert (dlists σ1 = dlists σ) as Hdl by apply (ext_dlists _ _ He).
  rewrite Hdl. split; [done|].
  set (j := length (dlists σ)).
  assert (j = length G) as Hj.
  { unfold j. by rewrite (inv_len _ _ _ Hinv). }
  set (t0 := mkTask item i rs ds 0 false).
  assert (i < length (infos σ1)) as Hlt1.
  { pose proof (ext_length _ _ He). simpl in *. lia. }
  pose proof (inv_new_list G σ1 item i rs ds Hinv1 Hlt1 Hlen Hnd Hatt) as Hinv2.
  fold t0 in Hinv2. rewrite Hdl in Hinv2.
  assert ((G ++ [t0]) !! j = Some t0) as Hj0.
  { rewrite Hj. apply lookup_snoc. }
  assert (∀ t', ∀ j' t'', <[j := t']> (G ++ [t0]) !! j' = Some t'' →
            j' ≠ j → t_attached t'' = length (t_requests t'')) as Hothers.
  { intros t' j' t'' Hj' Hne. rewrite list_lookup_insert_ne in Hj' by done.
    apply lookup_app_Some in Hj' as [Hj'|[Hge Hj']].
    - by eapply closed_lookup.
    - apply list_lookup_singleton_Some in Hj' as [? _]. lia. }
  pose proof (inv_add_slots ds (G ++ [t0]) _ j t0 Hinv2 Hj0 eq_refl) as Hinv3.
  simpl in Hinv3.
  assert (∀ j' t', (G ++ [t0]) !! j' = Some t' → j' ≠ j →
            t_attached t' = length (t_requests t')) as Hcl0.
  { intros j' t' Hj' Hne. apply (Hothers t0 j' t'); [|done].
    by rewrite list_insert_id. }
  specialize (Hinv3 Hcl0).
  pose proof (inv_hook _ _ j (attach_all t0) Hinv3) as Hinv4.
  rewrite list_insert_insert_eq in Hinv4.
  assert (<[j := hook (attach_all t0)]> (G ++ [t0]) =
          G ++ [mkTask item i rs ds (length rs) true]) as HG.
  { rewrite Hj. apply insert_snoc. }
  rewrite HG in Hinv4. split.
  - apply Hinv4; [|done]. apply list_lookup_insert_eq.
    rewrite length_app. simpl. lia.
  - by apply closed_app.
Qed.

(** ** A download completes *)

Lemma cache_eq res fp i σ info wads :
  infos σ !! i = Some info → fp ∈ downloading info →
  waiting info !! fp = Some wads →
  _cache_result_and_execute_waiters res fp i σ =
  (None,
   foldl (chain_result_to i fp (sanitize res))
     (set_infos (<[i := resolve_info res fp info]> (infos σ)) σ) wads).
Proof.
  intros Hi Hin Hw. unfold _cache_result_and_execute_waiters.
  rewrite Hi, decide_True by done. simpl. by rewrite Hw.
Qed.

Lemma slot_of_inj G i r d j k i' r' d' :
  slot_of G i r d j k → slot_of G i' r' d' j k → i = i' ∧ r = r' ∧ d = d'.
Proof. intros (t & ? & ? & ? & ?) (t' & ? & ? & ? & ?). by simplify_eq. Qed.

(** The world in which the drain starts: the download is marked, the
    handler's call is logged, the key is moved to the cache. *)
Definition drain_start (k : nat) (dl : Download) (e : Event) (c : Continuation)
    (info : SpiderInfo) (res : PyVal) (σ : World) : World :=
  set_infos (<[c_info c := resolve_info res (c_fp c) info]> (infos σ))
    (emit e
       (set_downloads
          (<[k := mkDownload (d_request dl) (d_info dl) true (d_chain dl)]>
             (downloads σ)) σ)).

Lemma inv_begin G σ k dl c e info res :
  inv G None σ → closed G →
  downloads σ !! k = Some dl → d_called dl = false → d_chain dl = Some c →
  (∀ j, completion_of j e = None) →
  infos σ !! c_info c = Some info →
  ∃ cb eb rest,
    waiting info !! c_fp c = Some (c_wad c :: rest) ∧
    c_fp c ∈ downloading info ∧
    inv G (Some (mkAgenda (c_info c) (c_fp c) (sanitize res) (c_wad c :: rest)
                   (c_wad c) (c_dfd c) cb eb))
      (drain_start k dl e c info res σ).
Proof.
  intros Hinv Hcl Hk Hcalled Hchain He Hi.
  assert (pending_download σ k c) as Hpd by by exists dl.
  destruct (inv_download _ _ _ Hinv k c Hpd)
    as (cb & eb & tl & rest & Hq & Hpw & Hpdfd & Htl).
  exists cb, eb, rest.
  assert (waiting info !! (c_fp c) = Some (c_wad c :: rest)) as Hw.
  { unfold queue in Hq. rewrite Hi in Hq.
    destruct (waiting info !! (c_fp c)) as [l|]; simpl in Hq; by simplify_eq. }
  pose proof (inv_info_lookup _ _ _ _ _ Hinv Hi) as [Hinfo1 Hinfo2].
  assert ((c_fp c) ∈ downloading info) as Hin.
  { apply Hinfo2. by rewrite Hw. }
  split; [done|]. split; [done|].
  set (σc := drain_start k dl e c info res σ).
  assert ((c_info c) < length (infos σ)) as Hilt by by eapply lookup_lt_Some.
  assert (k < length (downloads σ)) as Hklt by by eapply lookup_lt_Some.
  assert (queue (infos σc) (c_info c) (c_fp c) = []) as Hq0.
  { unfold σc, drain_start. simpl. rewrite queue_insert by done.
    rewrite decide_True by done. simpl. by rewrite lookup_delete_eq. }
  assert (∀ i' fp', ¬ (i' = (c_info c) ∧ fp' = (c_fp c)) →
            queue (infos σc) i' fp' = queue (infos σ) i' fp') as Hqo.
  { intros i' fp' Hne. unfold σc, drain_start. simpl.
    rewrite queue_insert by done. destruct (decide ((c_info c) = i')) as [<-|]; [|done].
    simpl. rewrite lookup_delete_ne by (intros <-; by apply Hne).
    unfold queue. by rewrite Hi. }
  assert (∀ i' fp' w, w ∈ queue (infos σc) i' fp' →
            ¬ (i' = (c_info c) ∧ fp' = (c_fp c)) ∧ w ∈ queue (infos σ) i' fp') as Hqe.
  { intros i' fp' w Hw'.
    destruct (decide (i' = (c_info c) ∧ fp' = (c_fp c))) as [[-> ->]|Hne].
    - rewrite Hq0 in Hw'. by apply elem_of_nil in Hw'.
    - split; [done|]. by rewrite <- Hqo. }
  assert (∀ kk c', pending_download σc kk c' ↔
            kk ≠ k ∧ pending_download σ kk c') as Hpc.
  { intros kk c'. unfold pending_download, σc, drain_start. simpl.
    destruct (decide (kk = k)) as [->|Hne].
    - rewrite list_lookup_insert_eq by done. split.
      + intros (dl' & [= <-] & Hf & _). done.
      + by intros [? _].
    - rewrite list_lookup_insert_ne by done. split; [by intros ?|by intros [_ ?]]. }
  assert (∀ i' r o, cached σ i' r o → cached σc i' r o) as Hca.
  { intros i' r o (info' & Hi' & Ho). unfold cached, σc, drain_start. simpl.
    destruct (decide ((c_info c) = i')) as [<-|Hne].
    - rewrite list_lookup_insert_eq by done. eexists. split; [done|]. simpl.
      assert (info' = info) as -> by congruence.
      rewrite lookup_insert_ne; [done|]. intros Heq. rewrite <- Heq in Ho.
      apply Hinfo1 in Hin. congruence.
    - rewrite list_lookup_insert_ne by done. eauto. }
  assert (∀ j, completions j (log σc) = completions j (log σ)) as Hlog.
  { intros j. unfold σc, drain_start. simpl. rewrite completions_app.
    unfold completions at 2. csimpl. by rewrite He, app_nil_r. }
  constructor.
  - unfold σc, drain_start. simpl. apply Forall_insert.
    + apply (inv_infos _ _ _ Hinv).
    + by apply info_inv_resolve.
  - apply (inv_len _ _ _ Hinv).
  - intros j Hj. rewrite Hlog. by apply (inv_fresh _ _ _ Hinv).
  - intros j t Hj. destruct (inv_task _ _ _ Hinv j t Hj) as (dl0 & Hl & Hrest).
    exists dl0. split; [done|]. rewrite Hlog.
    unfold σc, drain_start. simpl. by rewrite length_insert.
  - intros j t k' r d Hj Hr Hd.
    destruct (inv_ref _ _ _ Hinv j t k' r d Hj Hr Hd) as (dl0 & Hl & Hc).
    exists dl0. split; [done|].
    destruct Hc as [(? & o & ? & ? & ?)|[(? & ? & Hh)|(Hge & _)]].
    + left. split; [done|]. exists o. split; [done|]. split; [by apply Hca|done].
    + right. left. split; [done|]. split; [done|].
      destruct Hh as [[Hqd Hp]|[(kk & w & Hpk & Hp)|[(a & ? & _)|(a & ? & _)]]];
        try done.
      * destruct (decide (t_info t = (c_info c) ∧ request_fingerprint r = (c_fp c)))
          as [[Hti Hfp]|Hne].
        -- right. right. left. eexists. split; [done|]. simpl.
           split; [done|]. split; [done|]. split; [|done].
           by rewrite Hti, Hfp, Hq in Hqd.
        -- left. split; [|done]. by rewrite Hqo.
      * destruct (decide (kk = k)) as [->|Hne].
        -- assert (c = mkContinuation (request_fingerprint r) (t_info t) w d)
             as Hceq.
           { destruct Hpk as (dl1 & ? & ? & ?). congruence. }
           right. right. right. eexists. split; [done|]. simpl.
           assert (tl = [CbSlot j k']) as ->.
           { rewrite Hceq in Hpdfd. simpl in Hpdfd. unfold pending_def in *.
             by simplify_eq. }
           destruct Htl as [?|(j1 & k1 & r1 & [= <- <-] & Hs & ? & ? & ?)];
             [done|].
           assert (slot_of G (t_info t) r d j k') as Hs' by by exists t.
           destruct (slot_of_inj _ _ _ _ _ _ _ _ _ Hs Hs') as (_ & -> & _).
           rewrite Hceq. simpl. by repeat split.
        -- right. left. exists kk, w. split; [|done]. by apply Hpc.
    + exfalso. destruct (closed_lookup _ _ _ Hcl Hj) as [Ha _].
      apply lookup_lt_Some in Hr. lia.
  - intros i' fp' w [_ Hw']%Hqe. by apply (inv_queue _ _ _ Hinv).
  - intros i' fp'.
    destruct (decide (i' = (c_info c) ∧ fp' = (c_fp c))) as [[-> ->]|Hne].
    + rewrite Hq0. apply NoDup_nil_2.
    + rewrite Hqo by done. apply (inv_queue_nodup _ _ _ Hinv).
  - intros i1 fp1 i2 fp2 w [_ H1]%Hqe [_ H2]%Hqe.
    by eapply (inv_queue_disj _ _ _ Hinv).
  - intros kk c' [Hne Hc']%Hpc.
    destruct (inv_download _ _ _ Hinv kk c' Hc')
      as (cb' & eb' & tl' & rest' & Hq' & ?).
    exists cb', eb', tl', rest'. split; [|done]. rewrite Hqo; [done|].
    intros [Hci Hcf]. apply Hne.
    eapply (inv_download_inj _ _ _ Hinv); [exact Hc'|exact Hpd|by right].
  - intros kk1 c1 kk2 c2 [_ H1]%Hpc [_ H2]%Hpc.
    by apply (inv_download_inj _ _ _ Hinv).
  - intros kk dl0 Hkk. unfold σc, drain_start in *. simpl in *.
    rewrite length_insert.
    destruct (decide (kk = k)) as [->|Hne].
    + rewrite list_lookup_insert_eq in Hkk by done. injection Hkk as <-.
      simpl. apply (inv_download_info _ _ _ Hinv k dl Hk).
    + rewrite list_lookup_insert_ne in Hkk by done.
      by apply (inv_download_info _ _ _ Hinv kk).
  - simpl. split; [done|]. split; [|split; [|split; [|split; [|split]]]].
    + unfold σc, drain_start. simpl. eexists.
      split; [by apply list_lookup_insert_eq|]. simpl. apply lookup_insert_eq.
    + rewrite <- Hq. apply (inv_queue_nodup _ _ _ Hinv).
    + intros w Hw'. rewrite <- Hq in Hw'. split.
      * intros i' fp' [Hne Hw'']%Hqe. apply Hne.
        by eapply (inv_queue_disj _ _ _ Hinv).
      * by apply (inv_queue _ _ _ Hinv).
    + by exists tl.
    + intros kk c' [Hne Hc']%Hpc Heq. apply Hne.
      eapply (inv_download_inj _ _ _ Hinv); [exact Hc'|exact Hpd|by left].
    + left. split; [by left|done].
Qed.

(** ** Notifying the waiters *)

Definition agenda_next (a : Agenda) (rest : list nat) : Agenda :=
  mkAgenda (a_info a) (a_fp a) (a_res a) rest (a_wad a) (a_dfd a) (a_cb a)
    (a_eb a).

Lemma held_agenda_next a rest w σ i r d j k :
  a_rest a = w :: rest → d ≠ w →
  held (Some a) σ i r d j k → held (Some (agenda_next a rest)) σ i r d j k.
Proof.
  intros Ha Hne [H1|[H2|[(a0 & [= <-] & ? & ? & Hin & ?)|(a0 & [= <-] & ?)]]].
  - by left.
  - by right; left.
  - right; right; left. eexists. split; [done|]. simpl.
    repeat split; try done. rewrite Ha in Hin.
    by apply elem_of_cons in Hin as [->|].
  - right; right; right. eexists. by split.
Qed.

Lemma held_agenda_end a σ i r d j k :
  a_rest a = [] → d ≠ a_dfd a →
  held (Some a) σ i r d j k → held None σ i r d j k.
Proof.
  intros Ha Hne [H1|[H2|[(a0 & [= <-] & ? & ? & Hin & ?)|
    (a0 & [= <-] & ? & ? & ? & ?)]]].
  - by left.
  - by right; left.
  - rewrite Ha in Hin. by apply elem_of_nil in Hin.
  - done.
Qed.

Lemma ref_ok_agenda A A' σ j t k r d :
  (held A σ (t_info t) r d j k → held A' σ (t_info t) r d j k) →
  ref_ok A σ j t k r d → ref_ok A' σ j t k r d.
Proof.
  intros Hh (dl & Hl & Hc). exists dl. split; [done|].
  destruct Hc as [?|[(? & ? & ?)|?]]; [by left| |by right; right].
  right. left. split; [done|]. split; [done|]. by apply Hh.
Qed.

Lemma tail_no_pair G i fp cb eb d tl cb' eb' tl' :
  tail_ok G i fp cb eb d tl → tl ≠ CbPair cb' eb' :: tl'.
Proof. by intros [->|(? & ? & ? & -> & _)]. Qed.

Lemma inv_drain_touch G a w rest j0 σ σ' v :
  inv G (Some a) σ → a_rest a = w :: rest →
  touched [w] j0 σ σ' → (∀ j, j0 = Some j → j < length G) →
  deferreds σ' !! w = Some (mkDeferred true v []) →
  (a_wad a = w → v = pair_result (a_cb a) (a_eb a) (a_res a)) →
  (∀ j t, G !! j = Some t → task_ok σ' j t) →
  (∀ j t k r d,
     G !! j = Some t → t_requests t !! k = Some r → t_ds t !! k = Some d →
     ref_ok (Some (agenda_next a rest)) σ' j t k r d) →
  inv G (Some (agenda_next a rest)) σ'.
Proof.
  intros Hinv Ha Ht Hj0 Hw' Hv Htask Href.
  pose proof (inv_agenda _ _ _ Hinv) as Hag. simpl in Hag.
  destruct Hag as (Hcl & Hca & Hnd & Hws & Hdfd & Hdl & Hch).
  rewrite Ha in Hnd, Hws. apply NoDup_cons in Hnd as [Hnin Hnd].
  destruct (Hws w) as [Hnq (cb & eb & tl & Hpw & Htl)]; [by left|].
  apply (inv_touch G G (Some a) _ [w] j0 σ σ' Hinv Ht); try done.
  - intros i fp w0 Hin ->%list_elem_of_singleton. exfalso. by eapply Hnq.
  - intros kk c Hc Hor. exfalso.
    destruct (inv_download _ _ _ Hinv kk c Hc)
      as (cb' & eb' & tl' & rest' & Hq' & Hpw' & Hpd' & Htl').
    destruct Hor as [Hor%list_elem_of_singleton|Hor%list_elem_of_singleton].
    + apply (Hnq (c_info c) (c_fp c)). rewrite Hq', Hor. by left.
    + rewrite Hor in Hpd'. unfold pending_def in *.
      eapply tail_no_pair; [exact Htl'|]. by simplify_eq.
  - unfold agenda_next, agenda_ok. simpl.
    split; [done|]. rewrite (tch_infos _ _ _ _ Ht).
    split; [done|]. split; [done|]. split; [|split; [|split]].
    + intros w0 Hin. destruct (Hws w0) as [Hq0 Hok]; [by right|].
      split; [done|]. eapply touched_waiter_ok; try done.
      intros ->%list_elem_of_singleton. done.
    + destruct Hdfd as (tl0 & Hp0 & Htl0). exists tl0. split; [|done].
      eapply touched_pending_def; [done| |done].
      intros Heq%list_elem_of_singleton. simpl in Heq. rewrite Heq in Hp0.
      unfold pending_def in *. eapply tail_no_pair; [exact Htl0|].
      by simplify_eq.
    + intros kk c Hc. apply (Hdl kk).
      by apply (touched_pending_download _ _ _ _ _ _ Ht).
    + destruct (decide (a_wad a = w)) as [Heq|Hne].
      * right. rewrite Heq. split; [done|]. by rewrite Hw', Hv.
      * destruct Hch as [[Hin Hp]|[Hin Hl]]; [left|right].
        -- rewrite Ha in Hin. apply elem_of_cons in Hin as [?|Hin]; [done|].
           split; [done|]. eapply touched_pending_def; [done| |done].
           by intros ?%list_elem_of_singleton.
        -- rewrite Ha in Hin. split.
           ++ intros Hin'. apply Hin. by right.
           ++ rewrite (tch_deferreds _ _ _ _ Ht); [done|].
              by intros ?%list_elem_of_singleton.
Qed.

Lemma closed_attached G j t k r :
  closed G → G !! j = Some t → t_requests t !! k = Some r →
  k < t_attached t.
Proof.
  intros Hcl Hj Hr. destruct (closed_lookup _ _ _ Hcl Hj) as [-> _].
  by eapply lookup_lt_Some.
Qed.

(** An empty slot whose callback sits on a pending deferred. *)
Lemma slot_hole G A σ i r d j k cbs :
  inv G A σ → closed G → slot_of G i r d j k →
  pending_def σ d cbs →
  ∃ t dl, G !! j = Some t ∧ t_info t = i ∧ t_requests t !! k = Some r ∧
          t_ds t !! k = Some d ∧ dlists σ !! j = Some dl ∧
          resultList dl !! k = Some None.
Proof.
  intros Hinv Hcl (t & Hj & Hi & Hr & Hd) Hp.
  destruct (inv_ref _ _ _ Hinv j t k r d Hj Hr Hd)
    as (dl & Hl & [(? & o & ? & ? & Hc)|[(? & ? & _)|(? & _)]]).
  - by apply pending_not_called in Hp.
  - by exists t, dl.
  - pose proof (closed_attached _ _ _ _ _ Hcl Hj Hr). lia.
Qed.

Lemma inv_drain_step G a w rest σ :
  inv G (Some a) σ → a_rest a = w :: rest →
  inv G (Some (agenda_next a rest))
    (chain_result_to (a_info a) (a_fp a) (a_res a) σ w).
Proof.
  intros Hinv Ha.
  pose proof (inv_agenda _ _ _ Hinv) as Hag. simpl in Hag.
  destruct Hag as (Hcl & Hca & Hnd & Hws & Hdfd & Hdl & Hch).
  destruct (Hws w) as [Hnq (cb & eb & tl & Hpw & Htl)].
  { rewrite Ha. by left. }
  unfold chain_result_to.
  set (e := EvNotify (a_info a) (a_fp a) w (a_res a)).
  set (σe := emit e σ).
  assert (touched [w] None σ σe) as Hte by by apply touched_emit.
  assert (pending_def σe w (CbPair cb eb :: tl)) as Hpe by done.
  assert (∀ kk c, pending_download σ kk c → c_wad c ∉ [w]) as Hnw.
  { intros kk c Hc Heq%list_elem_of_singleton.
    destruct (inv_download _ _ _ Hinv kk c Hc) as (? & ? & ? & ? & Hq' & _).
    apply (Hnq (c_info c) (c_fp c)). rewrite Hq', Heq. by left. }
  set (v := pair_result cb eb (a_res a)).
  destruct Htl as [->|(j & k & r & -> & Hs & Hfp & Hcb & Heb)].
  - rewrite (fire_pair w cb eb (a_res a) σe Hpe).
    fold v. set (σ' := settle w v _).
    assert (touched [w] None σ σ') as Ht.
    { eapply touched_trans; [exact Hte|].
      eapply touched_trans; [|apply touched_settle].
      apply touched_logs. intros j. apply completions_pair_events. }
    eapply (inv_drain_touch G a w rest None σ σ' v); try done.
    + apply list_lookup_insert_eq. by eapply lookup_lt_Some.
    + intros Heq. destruct Hch as [[_ Hp]|[Hin _]].
      * rewrite Heq in Hp. unfold pending_def in *. subst v. congruence.
      * exfalso. apply Hin. rewrite Heq, Ha. by left.
    + intros j t Hj. eapply touched_task_ok; [done..|].
      by apply (inv_task _ _ _ Hinv).
    + intros j t k r d Hj Hr Hd.
      pose proof (inv_ref _ _ _ Hinv j t k r d Hj Hr Hd) as Hrf.
      assert (d ≠ w) as Hne.
      { eapply ref_deferred_ne; [exact Hrf|by eapply closed_attached|exact Hpw|].
        by intros [=]%list_elem_of_singleton. }
      eapply ref_ok_agenda; [by apply (held_agenda_next a rest w)|].
      eapply touched_ref_ok; [exact Ht|..]; try done.
      * left. by intros ?%list_elem_of_singleton.
      * intros dl Hl. by exists dl.
  - destruct (slot_hole G _ σ _ r w j k _ Hinv Hcl Hs Hpw)
      as (t & dl & Hj & Hti & Hr & Hd & Hl & Hhole).
    assert (dlists σe !! j = Some dl) as Hle by done.
    rewrite (fire_pair_slot w cb eb j k dl (a_res a) σe Hpe Hle).
    fold v. set (σ' := settle w (consumed v) _).
    assert (j < length (dlists σ)) as Hjlt by by eapply lookup_lt_Some.
    assert (w < length (deferreds σ)) as Hwlt by by eapply lookup_lt_Some.
    assert (touched [w] (Some j) σ σ') as Ht.
    { eapply touched_trans; [eapply touched_weaken; [..|exact Hte]|];
        [done|by left|].
      eapply touched_trans;
        [eapply touched_weaken; [..|apply touched_logs]|];
        [done|by left|intros j'; apply completions_pair_events|].
      eapply touched_trans; [apply touched_filled|].
      eapply touched_weaken; [..|apply touched_settle]; [done|by left]. }
    eapply (inv_drain_touch G a w rest (Some j) σ σ' (consumed v)); try done.
    + intros ? [= <-]. by eapply lookup_lt_Some.
    + by apply list_lookup_insert_eq.
    + intros Heq. exfalso. destruct Hch as [[_ Hp]|[Hin _]].
      * rewrite Heq in Hp. unfold pending_def in *. by simplify_eq.
      * apply Hin. rewrite Heq, Ha. by left.
    + intros j' t' Hj'. destruct (decide (j' = j)) as [->|Hne].
      * assert (t' = t) as -> by congruence.
        eapply (fill_task_ok σ σ' j t k (entry v) dl); try done.
        -- by apply (inv_task _ _ _ Hinv).
        -- by apply list_lookup_insert_eq.
        -- simpl. rewrite !completions_app, completions_pair_events.
           unfold completions at 2. csimpl. by rewrite !app_nil_r.
      * eapply touched_task_ok; [exact Ht|congruence|].
        by apply (inv_task _ _ _ Hinv).
    + intros j' t' k' r' d' Hj' Hr' Hd'.
      destruct (decide (j' = j ∧ k' = k)) as [[-> ->]|Hne].
      * assert (t' = t) as -> by congruence.
        assert (r' = r) as -> by congruence.
        assert (d' = w) as -> by congruence.
        exists (fill k (entry v) dl). split; [by apply list_lookup_insert_eq|].
        left. split; [by eapply closed_attached|]. exists (a_res a).
        split; [|split].
        -- simpl. unfold entry_of, v. rewrite Hcb, Heb.
           apply list_lookup_insert_eq. by eapply lookup_lt_Some.
        -- unfold cached. by rewrite (tch_infos _ _ _ _ Ht), Hti, Hfp.
        -- eexists. split; [by apply list_lookup_insert_eq|done].
      * pose proof (inv_ref _ _ _ Hinv j' t' k' r' d' Hj' Hr' Hd') as Hrf.
        assert (d' ≠ w) as Hne'.
        { eapply ref_deferred_ne;
            [exact Hrf|by eapply closed_attached|exact Hpw|].
          intros [[=]|[[= -> ->]|[]%elem_of_nil]%elem_of_cons]%elem_of_cons.
          by apply Hne. }
        eapply ref_ok_agenda; [by apply (held_agenda_next a rest w)|].
        eapply touched_ref_ok; [exact Ht|..]; try done.
        -- left. by intros ?%list_elem_of_singleton.
        -- intros dl0 Hl0. destruct (decide (j' = j)) as [->|Hnj].
           ++ assert (dl0 = dl) as -> by congruence. eexists.
              split; [by apply list_lookup_insert_eq|]. simpl.
              apply list_lookup_insert_ne. intros <-. by apply Hne.
           ++ exists dl0. split; [|done].
              rewrite (tch_dlists _ _ _ _ Ht); [done|congruence].
Qed.

Lemma agenda_next_id a : agenda_next a (a_rest a) = a.
Proof. by destruct a. Qed.

Lemma inv_drain G wads : ∀ a σ,
  inv G (Some a) σ → a_rest a = wads →
  inv G (Some (agenda_next a []))
    (foldl (chain_result_to (a_info a) (a_fp a) (a_res a)) σ wads).
Proof.
  induction wads as [|w rest IH]; intros a σ Hinv Ha; simpl.
  - by rewrite <- Ha, agenda_next_id.
  - apply (IH (agenda_next a rest)); [|done]. by apply inv_drain_step.
Qed.

(** ** The end of the chain: the returned deferred fires *)

Lemma inv_finish G a σ :
  inv G (Some a) σ → a_rest a = [] →
  inv G None
    (Deferred_callback (a_dfd a) (pair_result (a_cb a) (a_eb a) (a_res a))
       (set_result (a_wad a) VNone σ)).
Proof.
  intros Hinv Ha.
  pose proof (inv_agenda _ _ _ Hinv) as Hag. simpl in Hag.
  destruct Hag as (Hcl & Hca & Hnd & Hws & Hdfd & Hdl & Hch).
  destruct Hch as [[Hin _]|[_ Hwad]].
  { rewrite Ha in Hin. by apply elem_of_nil in Hin. }
  destruct Hdfd as (tl & Hpd & Htl).
  set (v := pair_result (a_cb a) (a_eb a) (a_res a)) in *.
  set (D := [a_wad a; a_dfd a]).
  assert (a_wad a ≠ a_dfd a) as Hne.
  { intros Heq. rewrite Heq in Hwad. unfold pending_def in Hpd.
    by simplify_eq. }
  assert (is_called σ (a_wad a)) as Hcw by by eexists.
  assert (a_wad a < length (deferreds σ)) as Hwlt by by eapply lookup_lt_Some.
  assert (a_dfd a < length (deferreds σ)) as Hdlt by by eapply lookup_lt_Some.
  assert (set_result (a_wad a) VNone σ = settle (a_wad a) VNone σ) as Hσ1.
  { unfold set_result. by rewrite Hwad. }
  rewrite Hσ1. clear Hσ1.
  set (σ1 := settle (a_wad a) VNone σ).
  assert (touched D None σ σ1) as Ht1.
  { eapply touched_weaken; [..|apply touched_settle]; [|by left].
    intros x ->%list_elem_of_singleton. by left. }
  assert (pending_def σ1 (a_dfd a) tl) as Hpd1.
  { unfold pending_def, σ1, settle. simpl.
    by rewrite list_lookup_insert_ne. }
  assert (deferreds σ1 !! a_wad a = Some (mkDeferred true VNone [])) as Hw1.
  { by apply list_lookup_insert_eq. }
  assert (∀ x, x ∈ D → x = a_wad a ∨ x = a_dfd a) as HD.
  { intros x [->|[->|[]%elem_of_nil]%elem_of_cons]%elem_of_cons; auto. }
  assert (∀ i fp w, w ∈ queue (infos σ) i fp → w ∉ D) as Hq.
  { intros i fp w Hw [->| ->]%HD;
      destruct (inv_queue _ _ _ Hinv _ _ _ Hw) as (cb & eb & tl' & Hp & _).
    - by apply pending_not_called in Hp.
    - unfold pending_def in *. eapply tail_no_pair; [exact Htl|].
      by simplify_eq. }
  assert (∀ kk c, pending_download σ kk c →
            (c_wad c ∉ D) ∧ (c_dfd c ∉ D)) as Hd.
  { intros kk c Hc.
    destruct (inv_download _ _ _ Hinv kk c Hc)
      as (cb' & eb' & tl' & rest' & Hq' & Hpw' & Hpd' & Htl').
    split; intros [Heq|Heq]%HD.
    - rewrite Heq in Hpw'. by apply pending_not_called in Hpw'.
    - rewrite Heq in Hpw'. unfold pending_def in *.
      eapply tail_no_pair; [exact Htl|]. by simplify_eq.
    - rewrite Heq in Hpd'. by apply pending_not_called in Hpd'.
    - by apply (Hdl kk c). }
  assert (∀ j0 σ', touched D j0 σ σ' → is_called σ' (a_wad a) →
            ∀ j t k r d,
              G !! j = Some t → t_requests t !! k = Some r →
              t_ds t !! k = Some d → CbSlot j k ∉ tl →
              (∀ dl, dlists σ !! j = Some dl →
                 ∃ dl', dlists σ' !! j = Some dl' ∧
                        resultList dl' !! k = resultList dl !! k) →
              ref_ok None σ' j t k r d) as Href.
  { intros j0 σ' Ht Hcw' j t k r d Hj Hr Hdd Hntl Hdls.
    pose proof (inv_ref _ _ _ Hinv j t k r d Hj Hr Hdd) as Hrf.
    pose proof (closed_attached _ _ _ _ _ Hcl Hj Hr) as Hk.
    assert (d ≠ a_dfd a) as Hnd'.
    { eapply ref_deferred_ne; [exact Hrf|done|exact Hpd|done]. }
    eapply ref_ok_agenda; [by apply (held_agenda_end a)|].
    eapply touched_ref_ok; [exact Ht|..]; try done.
    - destruct (decide (d = a_wad a)) as [->|Hnw];
        [right; split; [exact Hcw|split; [exact Hcw'|exact Hk]]|left].
      by intros [?|?]%HD.
    - intros kk c Hc. by apply (Hd kk c). }
  destruct Htl as [->|(j & k & r & -> & Hs & Hfp & Hcb & Heb)].
  - rewrite (fire_none (a_dfd a) v σ1 Hpd1).
    set (σ' := settle _ v σ1).
    assert (touched D None σ σ') as Ht.
    { eapply touched_trans; [exact Ht1|].
      eapply touched_weaken; [..|apply touched_settle]; [|by left].
      intros x ->%list_elem_of_singleton. right. by left. }
    assert (is_called σ' (a_wad a)) as Hcw'.
    { exists (mkDeferred true VNone []). split; [|done].
      unfold σ', settle. simpl.
      rewrite list_lookup_insert_ne by done. exact Hw1. }
    apply (inv_touch G G (Some a) None D None σ σ' Hinv Ht); try done.
    + intros j t Hj. eapply touched_task_ok; [done..|].
      by apply (inv_task _ _ _ Hinv).
    + intros j t k r d Hj Hr Hdd. eapply (Href None σ'); try done.
      * apply not_elem_of_nil.
      * intros dl Hl. exists dl. split; [|done].
        by rewrite (tch_dlists _ _ _ _ Ht).
    + intros i fp w Hw Hin. exfalso. by eapply Hq.
    + intros kk c Hc Hor. exfalso. destruct (Hd kk c Hc). by destruct Hor.
  - destruct (slot_hole G _ σ _ r (a_dfd a) j k _ Hinv Hcl Hs Hpd)
      as (t & dl & Hj & Hti & Hr & Hdd & Hl & Hhole).
    assert (dlists σ1 !! j = Some dl) as Hl1 by done.
    rewrite (fire_slot (a_dfd a) j k dl v σ1 Hpd1 Hl1).
    set (σ' := settle _ (consumed v) _).
    assert (j < length (dlists σ)) as Hjlt by by eapply lookup_lt_Some.
    assert (touched D (Some j) σ σ') as Ht.
    { eapply touched_trans; [eapply touched_weaken; [..|exact Ht1]|];
        [done|by left|].
      eapply touched_trans; [apply touched_filled|].
      eapply touched_weaken; [..|apply touched_settle]; [|by left].
      intros x ->%list_elem_of_singleton. right. by left. }
    assert (is_called σ' (a_wad a)) as Hcw'.
    { exists (mkDeferred true VNone []). split; [|done].
      unfold σ', settle. simpl.
      rewrite list_lookup_insert_ne by done. exact Hw1. }
    assert (dlists σ' !! j = Some (fill k (entry v) dl)) as Hl'.
    { unfold σ', settle, filled. simpl. by apply list_lookup_insert_eq. }
    apply (inv_touch G G (Some a) None D (Some j) σ σ' Hinv Ht); try done.
    + intros ? [= <-]. by eapply lookup_lt_Some.
    + intros j' t' Hj'. destruct (decide (j' = j)) as [->|Hnj].
      * assert (t' = t) as -> by congruence.
        eapply (fill_task_ok σ σ' j t k (entry v) dl); try done.
        -- by apply (inv_task _ _ _ Hinv).
        -- simpl. by rewrite completions_app.
      * eapply touched_task_ok; [exact Ht|congruence|].
        by apply (inv_task _ _ _ Hinv).
    + intros j' t' k' r' d' Hj' Hr' Hd'.
      destruct (decide (j' = j ∧ k' = k)) as [[-> ->]|Hnjk].
      * assert (t' = t) as -> by congruence.
        assert (r' = r) as -> by congruence.
        assert (d' = a_dfd a) as -> by congruence.
        exists (fill k (entry v) dl). split; [done|].
        left. split; [by eapply closed_attached|]. exists (a_res a).
        split; [|split].
        -- simpl. unfold entry_of. rewrite Hcb, Heb.
           apply list_lookup_insert_eq. by eapply lookup_lt_Some.
        -- unfold cached. by rewrite (tch_infos _ _ _ _ Ht), Hti, Hfp.
        -- exists (mkDeferred true (consumed v) []). split; [|done].
           unfold σ', settle. simpl.
           apply list_lookup_insert_eq. by rewrite length_insert.
      * eapply (Href (Some j) σ'); try done.
        -- intros [= -> ->]%list_elem_of_singleton. by apply Hnjk.
        -- intros dl0 Hl0. destruct (decide (j' = j)) as [->|Hnj].
           ++ assert (dl0 = dl) as -> by congruence. eexists.
              split; [done|]. simpl.
              apply list_lookup_insert_ne. intros <-. by apply Hnjk.
           ++ exists dl0. split; [|done].
              rewrite (tch_dlists _ _ _ _ Ht); [done|congruence].
    + intros i fp w Hw Hin. exfalso. by eapply Hq.
    + intros kk c Hc Hor. exfalso. destruct (Hd kk c Hc). by destruct Hor.
Qed.

Lemma inv_resume_chain G σ k dl c e res :
  inv G None σ → closed G →
  downloads σ !! k = Some dl → d_called dl = false → d_chain dl = Some c →
  (∀ j, completion_of j e = None) →
  inv G None
    (resume_chain res c
       (emit e
          (set_downloads
             (<[k := mkDownload (d_request dl) (d_info dl) true (Some c)]>
                (downloads σ)) σ))).
Proof.
  intros Hinv Hcl Hk Hcalled Hchain He. rewrite <- Hchain.
  assert (pending_download σ k c) as Hpd by by exists dl.
  destruct (inv_download _ _ _ Hinv k c Hpd)
    as (cb0 & eb0 & tl0 & rest0 & Hq & _).
  assert (∃ info, infos σ !! c_info c = Some info) as [info Hi].
  { unfold queue in Hq. destruct (infos σ !! c_info c); [by eexists|done]. }
  destruct (inv_begin G σ k dl c e info res Hinv Hcl Hk Hcalled Hchain He Hi)
    as (cb & eb & rest & Hw & Hin & Hinv1).
  set (σb := emit e _).
  unfold resume_chain.
  rewrite (cache_eq res (c_fp c) (c_info c) σb info (c_wad c :: rest))
    by done.
  change (set_infos _ σb) with (drain_start k dl e c info res σ).
  set (a := mkAgenda _ _ _ _ _ _ _ _) in Hinv1.
  pose proof (inv_drain G _ a _ Hinv1 eq_refl) as Hinv2.
  change (a_info a) with (c_info c) in Hinv2.
  change (a_fp a) with (c_fp c) in Hinv2.
  change (a_res a) with (sanitize res) in Hinv2.
  change (a_rest a) with (c_wad c :: rest) in Hinv2.
  set (σ1 := foldl _ _ _) in *.
  pose proof (inv_agenda _ _ _ Hinv2) as Hag. simpl in Hag.
  destruct Hag as (_ & _ & _ & _ & _ & _ & [[[]%elem_of_nil _]|[_ Hwad]]).
  change (a_wad (agenda_next a [])) with (c_wad c) in Hwad.
  rewrite Hwad. cbn [called result].
  apply (inv_finish G (agenda_next a []) σ1 Hinv2 eq_refl).
Qed.

Lemma inv_download_done G k raw σ :
  inv G None σ → closed G → inv G None (download_done k raw σ).
Proof.
  intros Hinv Hcl. unfold download_done.
  destruct (downloads σ !! k) as [dl|] eqn:Hk; [|done].
  destruct (d_called dl) eqn:Hcalled; [done|].
  destruct (inv_download_info _ _ _ Hinv k dl Hk) as [Hlt [c Hc]].
  apply lookup_lt_is_Some_2 in Hlt as [info Hi].
  cbn [infos set_downloads]. rewrite Hi.
  destruct (isFailure raw); rewrite Hc; by eapply inv_resume_chain.
Qed.

Lemma inv_open_spider G sp σ :
  inv G None σ → inv G None (open_spider sp σ).
Proof.
  intros Hinv. apply (inv_grow_same G σ); try done.
  - constructor; try done; simpl.
    + apply Forall_app. split; [apply (inv_infos _ _ _ Hinv)|].
      constructor; [apply info_inv_init|done].
    + rewrite length_app. lia.
    + intros kk c Hc. by left.
    + intros i info fp o Hi Ho. exists info. split; [|done].
      by apply lookup_app_l_Some.
    + intros i fp w rest Hq. exists []. by rewrite queue_snoc, app_nil_r.
  - intros i fp. simpl. apply queue_snoc.
Qed.

Lemma process_item_raises item σ f :
  (process_item item σ).1 = PRaised f →
  (process_item item σ).2 = σ ∨
  ∃ i, (process_item item σ).2 = emit (EvGetMediaRequests item i) σ.
Proof.
  unfold process_item. destruct (spiderinfo σ) as [i|]; [|by left].
  destruct (infos σ !! i) as [info|]; [|by left].
  destruct (get_media_requests item info); [|by right; exists i].
  destruct (process_requests _ _ _) as [ds σ1].
  by destruct (DeferredList_new ds σ1).
Qed.

(** The items of a table are items for which [get_media_requests]
    returned. *)
Definition submitted (item : string) : Prop :=
  ∃ info x, get_media_requests item info = GReturns x.

Definition origin_ok (G : list Task) : Prop :=
  Forall (λ t, submitted (t_item t)) G.

(** One input: the table stays, or gets the entry of the item. *)
Lemma inv_step G σ inp :
  inv G None σ → closed G → origin_ok G →
  ∃ G', inv G' None (step σ inp) ∧ closed G' ∧ origin_ok G' ∧
        G `prefix_of` G'.
Proof.
  intros Hinv Hcl Hor. destruct inp as [sp|item|k raw]; simpl.
  - exists G. split; [by apply inv_open_spider|done].
  - destruct (spiderinfo σ) as [i|] eqn:Hsp.
    2:{ exists G. unfold process_item. by rewrite Hsp. }
    destruct (infos σ !! i) as [info|] eqn:Hi.
    2:{ exists G. unfold process_item. by rewrite Hsp, Hi. }
    destruct (get_media_requests item info) as [x|f] eqn:Hget.
    + destruct (inv_process_item_returns G item σ i info x Hinv Hcl Hsp Hi Hget)
        as (_ & Hinv' & Hcl').
      eexists. split; [exact Hinv'|]. split; [done|]. split.
      * apply Forall_app. split; [done|]. constructor; [|done].
        by exists info, x.
      * by apply prefix_app_r.
    + exists G. unfold process_item. rewrite Hsp, Hi, Hget. simpl.
      split; [by apply inv_emit|done].
  - exists G. split; [by apply inv_download_done|done].
Qed.

Lemma inv_steps G more : ∀ σ,
  inv G None σ → closed G → origin_ok G →
  ∃ G', inv G' None (foldl step σ more) ∧ closed G' ∧ origin_ok G' ∧
        G `prefix_of` G'.
Proof.
  induction more as [|inp more IH] using rev_ind; intros σ Hinv Hcl Hor.
  - by exists G.
  - rewrite foldl_app. simpl.
    destruct (IH σ Hinv Hcl Hor) as (G1 & Hinv1 & Hcl1 & Hor1 & Hpre1).
    destruct (inv_step G1 _ inp Hinv1 Hcl1 Hor1)
      as (G2 & Hinv2 & Hcl2 & Hor2 & Hpre2).
    exists G2. split; [done|]. split; [done|]. split; [done|]. by etrans.
Qed.

Lemma inv_init : inv [] None World_init.
Proof.
  constructor; try done.
  - intros i fp w Hw. unfold queue in Hw. simpl in Hw.
    by apply elem_of_nil in Hw.
  - intros i fp. unfold queue. simpl. apply NoDup_nil_2.
  - intros i fp i' fp' w Hw. unfold queue in Hw. simpl in Hw.
    by apply elem_of_nil in Hw.
  - by intros kk c (dl & ? & _).
  - by intros kk c kk' c' (dl & ? & _).
Qed.

(** After every history there is a table that describes all lists. *)
Lemma inv_run inputs :
  ∃ G, inv G None (run inputs) ∧ closed G ∧ origin_ok G.
Proof.
  destruct (inv_steps [] inputs World_init inv_init)
    as (G & ? & ? & ? & _); [by constructor..|].
  by exists G.
Qed.

(** ** The join of an item *)

(** A slot is empty only while its key is unresolved. *)
Lemma held_unresolved G σ i r d j k :
  inv G None σ → held None σ i r d j k →
  ∃ info, infos σ !! i = Some info ∧
          downloaded info !! request_fingerprint r = None.
Proof.
  intros Hinv Hh.
  assert (∃ w rest, queue (infos σ) i (request_fingerprint r) = w :: rest)
    as (w & rest & Hq).
  { destruct Hh as [[Hq _]|[(kk & w & Hpd & _)|[(a & ? & _)|(a & ? & _)]]];
      try done.
    - destruct (queue (infos σ) i (request_fingerprint r)) as [|w rest];
        [by apply elem_of_nil in Hq|eauto].
    - destruct (inv_download _ _ _ Hinv kk _ Hpd)
        as (cb & eb & tl & rest & Hq & _).
      simpl in Hq. eauto. }
  unfold queue in Hq. destruct (infos σ !! i) as [info|] eqn:Hi; [|done].
  exists info. split; [done|].
  destruct (inv_info_lookup _ _ _ _ _ Hinv Hi) as [H1 H2]. apply H1, H2.
  destruct (waiting info !! request_fingerprint r); [by eexists|done].
Qed.

Lemma filled_count_all l :
  (∀ k, k < length l → ∃ e, l !! k = Some (Some e)) →
  filled_count l = length l.
Proof.
  induction l as [|x l IH]; [done|]. intros Hall.
  rewrite filled_count_cons.
  destruct (Hall 0) as [e He]; [simpl; lia|]. simpl in He.
  injection He as ->. simpl. f_equal. apply IH. intros k Hk.
  apply (Hall (S k)). simpl. lia.
Qed.

(** The result list of an item whose keys have all resolved: for each
    request, in the order of submission, the outcome cached for its key
    after the callback or the errback of the request has run on it, tagged
    with whether that is a failure. *)
Definition joined (info : SpiderInfo) (requests : list Request)
    : list (option (bool * PyVal)) :=
  (λ r, Some (entry_of
                (default VNone (downloaded info !! request_fingerprint r)) r))
    <$> requests.

Lemma join_state G σ j t :
  inv G None σ → G !! j = Some t →
  t_attached t = length (t_requests t) → t_hooked t = true →
  ∃ info, infos σ !! t_info t = Some info ∧
    ((∀ r, r ∈ t_requests t →
           is_Some (downloaded info !! request_fingerprint r)) →
     completions j (log σ) =
       [(joined info (t_requests t), t_item t, t_info t)]) ∧
    (∀ r, r ∈ t_requests t →
          downloaded info !! request_fingerprint r = None →
     completions j (log σ) = []).
Proof.
  intros Hinv Hj Hatt Hh.
  destruct (inv_task _ _ _ Hinv j t Hj)
    as (dl & Hl & H1 & H2 & H3 & H4 & H5 & H6 & H7 & H8 & H9 & H10).
  apply lookup_lt_is_Some_2 in H5 as [info Hi]. exists info. split; [done|].
  rewrite Hh in H10. simpl in H10.
  assert (∀ k r, t_requests t !! k = Some r →
     (∃ o, resultList dl !! k = Some (Some (entry_of o r)) ∧
           downloaded info !! request_fingerprint r = Some o) ∨
     (resultList dl !! k = Some None ∧
      downloaded info !! request_fingerprint r = None)) as Hslot.
  { intros k r Hr. assert (is_Some (t_ds t !! k)) as [d Hd].
    { apply lookup_lt_is_Some_2. rewrite H2. by eapply lookup_lt_Some. }
    destruct (inv_ref _ _ _ Hinv j t k r d Hj Hr Hd) as (dl' & Hl' & Hc).
    assert (dl' = dl) as -> by congruence.
    destruct Hc as [(_ & o & Hres & (info' & Hi' & Ho) & _)|
      [(_ & Hres & Hheld)|(Hge & _)]].
    - left. exists o. split; [done|]. congruence.
    - right. split; [done|].
      destruct (held_unresolved _ _ _ _ _ _ _ Hinv Hheld) as (info' & Hi' & Ho).
      congruence.
    - apply lookup_lt_Some in Hr. lia. }
  split.
  - intros Hall.
    assert (resultList dl = joined info (t_requests t)) as Hres.
    { apply list_eq. intros k. unfold joined. rewrite list_lookup_fmap.
      destruct (t_requests t !! k) as [r|] eqn:Hr; simpl.
      - destruct (Hslot k r Hr) as [(o & Hres & Ho)|[_ Hn]].
        + by rewrite Hres, Ho.
        + destruct (Hall r) as [o Ho]; [by eapply list_elem_of_lookup_2|].
          congruence.
      - apply lookup_ge_None. rewrite H1. by apply lookup_ge_None. }
    assert (dl_called dl = true) as Hc.
    { apply H7. rewrite H6. apply filled_count_all. intros k Hk.
      apply lookup_lt_is_Some_2 in Hk as [e He]. rewrite He.
      rewrite Hres in He. unfold joined in He.
      rewrite list_lookup_fmap in He.
      destruct (t_requests t !! k); simpl in He; [|done].
      injection He as <-. eauto. }
    by rewrite H10, Hc, Hres.
  - intros r Hin Hn. apply list_elem_of_lookup in Hin as [k Hr].
    destruct (Hslot k r Hr) as [(o & _ & Ho)|[Hres _]]; [congruence|].
    apply filled_count_hole in Hres.
    destruct (dl_called dl) eqn:Hc; [|by rewrite H10].
    destruct H7 as [H7 _]. specialize (H7 eq_refl). lia.
Qed.

(** The item submitted after the history [inputs], seen after the further
    inputs [more]. *)
Lemma join_after inputs more item i info x :
  spiderinfo (run inputs) = Some i →
  infos (run inputs) !! i = Some info →
  get_media_requests item info = GReturns x →
  (process_item item (run inputs)).1 =
    PDeferred (length (dlists (run inputs))) ∧
  ∃ info2,
    infos (run (inputs ++ InProcessItem item :: more)) !! i = Some info2 ∧
    ((∀ r, r ∈ arg_to_iter x →
           is_Some (downloaded info2 !! request_fingerprint r)) →
     completions (length (dlists (run inputs)))
       (log (run (inputs ++ InProcessItem item :: more))) =
       [(joined info2 (arg_to_iter x), item, i)]) ∧
    (∀ r, r ∈ arg_to_iter x →
          downloaded info2 !! request_fingerprint r = None →
     completions (length (dlists (run inputs)))
       (log (run (inputs ++ InProcessItem item :: more))) = []).
Proof.
  intros Hsp Hi Hget.
  destruct (inv_run inputs) as (G & Hinv & Hcl & Hor).
  destruct (inv_process_item_returns G item _ i info x Hinv Hcl Hsp Hi Hget)
    as (Hret & Hinv1 & Hcl1).
  split; [done|].
  assert (run (inputs ++ InProcessItem item :: more) =
          foldl step (process_item item (run inputs)).2 more) as ->.
  { unfold run. by rewrite foldl_app. }
  set (t := task_of item i (arg_to_iter x) (run inputs)) in *.
  destruct (inv_steps _ more _ Hinv1 Hcl1) as (G2 & Hinv2 & Hcl2 & Hor2 & Hpre).
  { apply Forall_app. split; [done|]. constructor; [|done]. by exists info, x. }
  assert (G2 !! length (dlists (run inputs)) = Some t) as Hj.
  { rewrite <- (inv_len _ _ _ Hinv).
    eapply prefix_lookup_Some; [|done]. apply lookup_snoc. }
  destruct (join_state G2 _ _ t Hinv2 Hj eq_refl eq_refl)
    as (info2 & Hi2 & Hall & Hnone).
  by exists info2.
Qed.

(** [item_completed] is only ever called for items for which
    [get_media_requests] returned. *)
Lemma completion_origin inputs j results item i :
  EvItemCompleted j results item i ∈ log (run inputs) → submitted item.
Proof.
  intros He. destruct (inv_run inputs) as (G & Hinv & Hcl & Hor).
  assert ((results, item, i) ∈ completions j (log (run inputs))) as Hc.
  { apply list_elem_of_omap. exists (EvItemCompleted j results item i).
    split; [done|]. simpl. by rewrite decide_True. }
  destruct (decide (j < length G)) as [Hlt|Hge].
  - apply lookup_lt_is_Some_2 in Hlt as [t Hj].
    destruct (inv_task _ _ _ Hinv j t Hj)
      as (dl & _ & _ & _ & _ & _ & _ & _ & _ & _ & _ & H10).
    rewrite H10 in Hc.
    destruct (t_hooked t && dl_called dl); [|by apply elem_of_nil in Hc].
    apply list_elem_of_singleton in Hc. injection Hc as _ -> _.
    by apply (Forall_lookup_1 _ _ _ _ Hor Hj).
  - rewrite (inv_fresh _ _ _ Hinv j) in Hc by lia. by apply elem_of_nil in Hc.
Qed.

Lemma joined_length info requests :
  length (joined info requests) = length requests.
Proof. apply length_fmap. Qed.

Lemma joined_lookup info requests k r :
  requests !! k = Some r →
  joined info requests !! k =
  Some (Some (entry_of
                (default VNone (downloaded info !! request_fingerprint r)) r)).
Proof. intros Hr. unfold joined. by rewrite list_lookup_fmap, Hr. Qed.



End Properties.

(** * A concrete pipeline *)

Module Example.

(** A fingerprint that keeps the method and the URL apart. *)
Definition fingerprint (m u b : string) : string := m +:+ " " +:+ u.

(** User callbacks wrap the payload they are given in their own name. *)
Definition user (name : string) (v : PyVal) : HookRet :=
  match v with
  | VObj s => Returns (VObj (name +:+ "(" +:+ s +:+ ")"))
  | _ => Returns v
  end.

Definition get (u : string) : Request :=
  mkRequest u "GET" "" (Some "cb") None None false.

(** Item [I1] refers to [A] and [B], item [I2] to [B], item [I3] to a
    resource that comes with its result; for any other item the hook
    raises. *)
Definition requests_of (item : string) (info : SpiderInfo) : GetRet :=
  if String.eqb item "I1" then GReturns (MRMany [get "A"; get "B"])
  else if String.eqb item "I2" then GReturns (MROne (get "B"))
  else if String.eqb item "I3" then GReturns (MROne (get "C"))
  else if String.eqb item "I0" then GReturns MRNone
  else GRaises (mkFailure "ValueError" ["get_media_requests"] None None).

Definition embedded (request : Request) (info : SpiderInfo) : HookRet :=
  if String.eqb (url request) "C" then Returns (VObj "c") else Returns VNone.

#[local] Instance pipe : MediaPipeline :=
  {| fingerprint_hash := fingerprint;
     call_user := user;
     download_func := None;
     handle_httpstatus_list := _handle_statuses false;
     media_to_download := embedded;
     get_media_requests := requests_of;
     media_downloaded := Base.media_downloaded;
     media_failed := Base.media_failed;
     item_completed := Base.item_completed true "MediaPipeline" |}.

Definition boom : Failure :=
  mkFailure "TimeoutError" ["frame 1"; "frame 2"] (Some ["caller"])
    (Some "traceback").

(** Two items submitted, both keys in flight, [B] with two waiters. *)
Definition in_flight : World :=
  run [InOpenSpider "spider"; InProcessItem "I1"; InProcessItem "I2"].

Definition in_flight_info : SpiderInfo :=
  {| spider := "spider";
     downloading := {["GET A"; "GET B"]};
     downloaded := ∅;
     waiting := {["GET A" := [0]; "GET B" := [2; 4]]} |}.

Lemma in_flight_lookup : infos in_flight !! 0 = Some in_flight_info.
Proof. vm_compute. reflexivity. Defined.

Lemma failure_sanitization_witness :
  infos in_flight !! 0 = Some in_flight_info ∧
  "GET B" ∈ downloading in_flight_info ∧
  waiting in_flight_info !! "GET B" = Some [2; 4] ∧
  ∃ σ' info' f',
    _cache_result_and_execute_waiters (VFailure boom) "GET B" 0
      in_flight = (None, σ') ∧
    value f' = value boom ∧ frames f' = [] ∧ stack f' = None ∧ tb f' = None ∧
    infos σ' !! 0 = Some info' ∧
    downloaded info' !! "GET B" = Some (VFailure f') ∧
    ("GET B" ∉ downloading info') ∧
    waiting info' !! "GET B" = None ∧
    (loud (log σ') =
       (loud (log in_flight) ++
        ((λ w, EvNotify 0 "GET B" w (VFailure f')) <$> [2; 4]))) ∧
    Forall (λ w, w < length (deferreds in_flight) → is_called σ' w) [2; 4].
Proof.
  assert (infos in_flight !! 0 = Some in_flight_info) as H1
    by (vm_compute; reflexivity).
  assert ("GET B" ∈ downloading in_flight_info) as H2
    by (apply (bool_decide_unpack _); vm_compute; exact I).
  assert (waiting in_flight_info !! "GET B" = Some [2; 4]) as H3
    by (vm_compute; reflexivity).
  split; [exact H1|]. split; [exact H2|]. split; [exact H3|].
  exact (@failure_sanitization pipe boom "GET B" 0 in_flight in_flight_info
           [2; 4] H1 H2 H3).
Defined.


(** Key [A] has resolved. *)
Definition resolved : list Input :=
  [InOpenSpider "spider"; InProcessItem "I1"; InDownloadDone 0 (VObj "a")].

Definition resolved_info : SpiderInfo :=
  {| spider := "spider";
     downloading := {["GET B"]};
     downloaded := {["GET A" := VObj "a"]};
     waiting := {["GET B" := [2]]} |}.

Lemma cache_correctness_witness :
  infos (run resolved) !! 0 = Some resolved_info ∧
  downloaded resolved_info !! "GET A" = Some (VObj "a") ∧
  request_fingerprint (get "A") = "GET A" ∧
  let σ := run (resolved ++ [InProcessItem "I2"]) in
  let σ' := (_process_request (get "A") 0 σ).2 in
  let d := (_process_request (get "A") 0 σ).1.2 in
  (∃ info', infos σ !! 0 = Some info' ∧
            downloaded info' !! "GET A" = Some (VObj "a")) ∧
  count (is_mtd 0 "GET A") (log σ) =
    count (is_mtd 0 "GET A") (log (run resolved)) ∧
  count (is_download 0 "GET A") (log σ) =
    count (is_download 0 "GET A") (log (run resolved)) ∧
  deferreds σ' !! d =
    Some (mkDeferred true
            (pair_result (cb_of (get "A")) (eb_of (get "A")) (VObj "a"))
            []) ∧
  (isFailure (VObj "a") = true → errback (get "A") = None →
   pair_result (cb_of (get "A")) (eb_of (get "A")) (VObj "a") =
   VObj "a") ∧
  infos σ' = infos σ ∧ downloads σ' = downloads σ ∧
  log σ' =
    log σ ++ EvCached 0 "GET A" (VObj "a") ::
      pair_events (cb_of (get "A")) (eb_of (get "A")) (VObj "a").
Proof.
  assert (infos (run resolved) !! 0 = Some resolved_info) as H1
    by (vm_compute; reflexivity).
  assert (downloaded resolved_info !! "GET A" = Some (VObj "a")) as H2
    by (vm_compute; reflexivity).
  assert (request_fingerprint (get "A") = "GET A") as H3
    by reflexivity.
  split; [exact H1|]. split; [exact H2|]. split; [exact H3|].
  exact (@cache_correctness pipe resolved [InProcessItem "I2"] 0
           resolved_info "GET A" (VObj "a") (get "A") H1 H2 H3).
Defined.

(** A session just opened. *)
Definition opened : World := run [InOpenSpider "spider"].

Lemma pre_fetch_short_circuit_witness :
  infos opened !! 0 = Some (SpiderInfo_init "spider") ∧
  downloaded (SpiderInfo_init "spider") !! request_fingerprint (get "C")
    = None ∧
  (request_fingerprint (get "C") ∉
     downloading (SpiderInfo_init "spider")) ∧
  let σ' := (_process_request (get "C") 0 opened).2 in
  (∃ info', infos σ' !! 0 = Some info' ∧ ("GET C" ∉ downloading info') ∧
            downloaded info' !! "GET C" = Some (VObj "c") ∧
            waiting info' !! "GET C" = None) ∧
  downloads σ' = downloads opened ∧
  (loud (log σ') =
     loud (log opened) ++
     [EvWaiting 0 "GET C" 0; EvMediaToDownload (detach (get "C")) 0] ++
     ((λ w, EvNotify 0 "GET C" w (VObj "c")) <$>
        queue_of (get "C") (SpiderInfo_init "spider") opened)) ∧
  Forall (λ w, w < length (deferreds σ') → is_called σ' w)
    (queue_of (get "C") (SpiderInfo_init "spider") opened) ∧
  is_called σ' (_process_request (get "C") 0 opened).1.2.
Proof.
  assert (infos opened !! 0 = Some (SpiderInfo_init "spider")) as H1
    by reflexivity.
  assert (downloaded (SpiderInfo_init "spider") !!
            request_fingerprint (get "C") = None) as H2
    by reflexivity.
  assert (request_fingerprint (get "C") ∉
            downloading (SpiderInfo_init "spider")) as H3
    by (apply (bool_decide_unpack _); vm_compute; exact I).
  split; [exact H1|]. split; [exact H2|]. split; [exact H3|].
  exact (@pre_fetch_short_circuit pipe (get "C") 0 opened
           (SpiderInfo_init "spider") H1 H2 H3).
Defined.

Lemma callback_detachment_witness :
  infos in_flight !! 0 = Some in_flight_info ∧
  let request' := (_process_request (get "B") 0 in_flight).1.1 in
  let σ' := (_process_request (get "B") 0 in_flight).2 in
  callback request' = None ∧ errback request' = None ∧
  request_fingerprint request' = "GET B" ∧
  deferreds σ' !! 5 =
    Some (mkDeferred false VNone [CbPair (UserFn "cb") None]) ∧
  queue (infos σ') 0 "GET B" = [2; 4; 5].
Proof.
  assert (infos in_flight !! 0 = Some in_flight_info) as H1
    by (vm_compute; reflexivity).
  split; [exact H1|].
  pose proof (@callback_detachment pipe (get "B") 0 in_flight in_flight_info
                H1) as (A1 & A2 & A3 & _ & _ & A4 & _).
  split; [exact A1|]. split; [exact A2|]. split; [exact A3|].
  exact A4.
Defined.

(** Item [I1] after both of its downloads: [A] succeeded, [B] failed. *)
Definition both_done : list Input :=
  [InDownloadDone 0 (VObj "a"); InDownloadDone 1 (VFailure boom)].


End Example.

(** * A pipeline with a failing hook *)

Module Raising.

(** The handler for successful downloads rejects [B]. *)
Definition rejecting (response : PyVal) (request : Request)
    (info : SpiderInfo) : HookRet :=
  if String.eqb (url request) "B"
  then Raises (mkFailure "ValueError" ["media_downloaded"] None None)
  else Returns response.

#[local] Instance pipe : MediaPipeline :=
  {| fingerprint_hash := Example.fingerprint;
     call_user := Example.user;
     download_func := None;
     handle_httpstatus_list := _handle_statuses false;
     media_to_download := Example.embedded;
     get_media_requests := Example.requests_of;
     media_downloaded := rejecting;
     media_failed := Base.media_failed;
     item_completed := Base.item_completed true "MediaPipeline" |}.

Definition opened : World := run [InOpenSpider "spider"].

(** Both downloads of item [I1] succeed. *)
Definition fetched : list Input :=
  [InDownloadDone 0 (VObj "a"); InDownloadDone 1 (VObj "b")].



End Raising.

(** * The rest of the class: construction, hooks, downloads and sessions *)

(** ** Construction of a pipeline: settings keys, [__init__],
    [from_crawler] *)

Module Construction.

(** [str.upper()] on a class name: ASCII letters only (class names are
    ASCII identifiers). *)
Definition upper_ascii (c : Ascii.ascii) : Ascii.ascii :=
  let n := Ascii.nat_of_ascii c in
  if (97 <=? n) && (n <=? 122) then Ascii.ascii_of_nat (n - 32) else c.

Fixpoint upper (s : string) : string :=
  match s with
  | EmptyString => EmptyString
  | String c s => String (upper_ascii c) (upper s)
  end.

(** A [scrapy.settings.Settings] object, a collaborator, as the pipeline
    uses it: its truth value [bool(settings)], the truth value of
    [settings.get(name)], and [settings.getbool(name, default)], which
    returns a boolean or raises. *)
Record Settings := mkSettings {
  settings_bool : bool;
  settings_get : string → bool;
  settings_getbool : string → bool → Failure + bool
}.

(** [def _key_for_pipe(self, key, base_class_name=None, settings=None)];
    [class_name] is [self.__class__.__name__]. *)
Definition _key_for_pipe (class_name key : string)
    (base_class_name : option string) (settings : option Settings) : string :=
  let formatted_key := upper class_name +:+ "_" +:+ key in
  if bool_decide (Some class_name = base_class_name)
     || match base_class_name with
        | None => true
        | Some b => bool_decide (b = EmptyString)
        end
     || match settings with
        | None => false
        | Some s => settings_bool s && negb (settings_get s formatted_key)
        end
  then key
  else formatted_key.

(** The attributes of a pipeline object that [__init__] and [from_crawler]
    set. *)
Record Self := mkSelf {
  self_download_func : option string;
  self_allow_redirects : bool;
  self_handle_httpstatus_list : option HttpStatusList;
  self_crawler : option string
}.

Section Init.

(** The type of the dictionaries accepted for [settings], and the
    constructor [Settings(values)] of the collaborator. *)
Variable Dict : Type.
Variable Settings_new : option Dict → Settings.

(** What can be passed for [settings]: [None], a [dict] or a [Settings]
    object. *)
Inductive SettingsArg :=
| ArgNone
| ArgDict (d : Dict)
| ArgSettings (s : Settings).

(** The settings object [__init__] works with. *)
Definition settings_of (settings : SettingsArg) : Settings :=
  match settings with
  | ArgNone => Settings_new None
  | ArgDict d => Settings_new (Some d)
  | ArgSettings s => s
  end.

(** [def __init__(self, download_func=None, settings=None)]: the object it
    sets up, or the exception of [getbool]. *)
Definition __init__ (class_name : string) (download_func : option string)
    (settings : SettingsArg) : Failure + Self :=
  let settings := settings_of settings in
  let resolve key :=
    _key_for_pipe class_name key (Some "MediaPipeline") (Some settings) in
  match settings_getbool settings (resolve "MEDIA_ALLOW_REDIRECTS") false with
  | inl e => inl e
  | inr allow_redirects =>
      inr {| self_download_func := download_func;
             self_allow_redirects := allow_redirects;
             self_handle_httpstatus_list := _handle_statuses allow_redirects;
             self_crawler := None |}
  end.

(** A pipeline class that inherits [__init__]: its name and its
    [from_settings] class method, when it defines one. *)
Record Class := mkClass {
  __name__ : string;
  from_settings : option (Settings → Failure + Self)
}.

Record Crawler := mkCrawler {
  crawler_name : string;
  crawler_settings : Settings
}.

(** [except AttributeError]: exception classes are told apart by name. *)
Definition isAttributeError (e : Failure) : bool :=
  bool_decide (value e = "AttributeError").

Definition set_crawler (crawler : Crawler) (pipe : Self) : Self :=
  {| self_download_func := self_download_func pipe;
     self_allow_redirects := self_allow_redirects pipe;
     self_handle_httpstatus_list := self_handle_httpstatus_list pipe;
     self_crawler := Some (crawler_name crawler) |}.

(** [def from_crawler(cls, crawler)]; looking up a missing [from_settings]
    raises [AttributeError]. *)
Definition from_crawler (cls : Class) (crawler : Crawler) : Failure + Self :=
  let pipe :=
    match from_settings cls with
    | None => __init__ (__name__ cls) None ArgNone
    | Some f =>
        match f (crawler_settings crawler) with
        | inl e =>
            if isAttributeError e then __init__ (__name__ cls) None ArgNone
            else inl e
        | inr pipe => inr pipe
        end
    end in
  match pipe with
  | inl e => inl e
  | inr pipe => inr (set_crawler crawler pipe)
  end.

End Init.

Arguments ArgNone {Dict}.
Arguments ArgDict {Dict} d.
Arguments ArgSettings {Dict} s.

End Construction.

Import Construction.

Lemma upper_ascii_idemp c : upper_ascii (upper_ascii c) = upper_ascii c.
Proof. by destruct c as [[] [] [] [] [] [] [] []]. Qed.

Lemma upper_idemp s : upper (upper s) = upper s.
Proof.
  induction s as [|c s IH]; [done|]. simpl. by rewrite upper_ascii_idemp, IH.
Qed.

Lemma length_append s1 s2 :
  String.length (s1 +:+ s2) = String.length s1 + String.length s2.
Proof. induction s1 as [|c s1 IH]; simpl; [done|]. by rewrite IH. Qed.

Lemma formatted_key_ne class_name key : upper class_name +:+ "_" +:+ key ≠ key.
Proof.
  intros Heq. apply (f_equal String.length) in Heq.
  rewrite !length_append in Heq. simpl in Heq. lia.
Qed.


Section InitFacts.
Variable Dict : Type.
Variable Settings_new : option Dict → Settings.



End InitFacts.

(** ** The hooks of the base class *)

Section Hooks.
Context `{!MediaPipeline}.

(** X4: [_modify_media_request] leaves URL, method, body, callback and
    errback as they are, so the fingerprint of the request does not change.
    With a [handle_httpstatus_list] it stores that list in the meta and
    leaves [handle_httpstatus_all] alone; without one it sets
    [handle_httpstatus_all] and leaves the list alone.  Applying it twice is
    applying it once, and it commutes with detaching the callbacks. *)
Theorem modify_media_request_flags request :
  let request' := _modify_media_request request in
  url request' = url request ∧ method request' = method request ∧
  body request' = body request ∧ callback request' = callback request ∧
  errback request' = errback request ∧
  request_fingerprint request' = request_fingerprint request ∧
  match handle_httpstatus_list with
  | Some l =>
      meta_handle_httpstatus_list request' = Some l ∧
      meta_handle_httpstatus_all request' = meta_handle_httpstatus_all request
  | None =>
      meta_handle_httpstatus_all request' = true ∧
      meta_handle_httpstatus_list request' =
        meta_handle_httpstatus_list request
  end ∧
  _modify_media_request request' = request' ∧
  _modify_media_request (detach request) = detach request'.
Proof.
  unfold _modify_media_request, request_fingerprint, detach.
  destruct handle_httpstatus_list; simpl; done.
Qed.

End Hooks.

(** The entries of a result list that are not ok. *)
Definition failed_entries (entries : list (bool * PyVal))
    : list (bool * PyVal) :=
  filter (λ e, e.1 = false) entries.

Lemma log_failed_filled class_name item entries :
  Base.log_failed class_name item (Some <$> entries) =
  (replicate (length (failed_entries entries))
     (class_name +:+ " found errors processing " +:+ item), None).
Proof.
  induction entries as [|[ok v] entries IH]; [done|].
  csimpl. rewrite IH. unfold failed_entries. destruct ok.
  - by rewrite filter_cons_False by done.
  - by rewrite filter_cons_True by done.
Qed.

(** X9: the [item_completed] of the base class returns the item itself;
    on a complete result list it logs one error per failed entry, naming the
    class and the item, and nothing for the entries that are ok; with
    [LOG_FAILED_RESULTS] off it logs nothing, whatever the results. *)
Theorem base_item_completed class_name entries results item info :
  Base.item_completed true class_name (Some <$> entries) item info =
    (replicate (length (failed_entries entries))
       (class_name +:+ " found errors processing " +:+ item),
     Returns (VObj item)) ∧
  Base.item_completed false class_name results item info =
    ([], Returns (VObj item)).
Proof.
  unfold Base.item_completed. by rewrite log_failed_filled.
Qed.

Section Downloads.
Context `{!MediaPipeline}.

(** ** The downloads of a history *)

(** The call of the download collaborator an event records. *)
Definition started_download (e : Event) : option (bool * Request * nat) :=
  match e with
  | EvDownload by_download_func r i => Some (by_download_func, r, i)
  | _ => None
  end.

(** The call of [media_downloaded] ([false]) or [media_failed] ([true]) an
    event records. *)
Definition post_fetch (e : Event) : option (bool * PyVal * Request * nat) :=
  match e with
  | EvMediaDownloaded raw r i => Some (false, raw, r, i)
  | EvMediaFailed raw r i => Some (true, raw, r, i)
  | _ => None
  end.

(** How a download record shows in the log. *)
Definition download_call (dl : Download) : bool * Request * nat :=
  (bool_decide (is_Some download_func), d_request dl, d_info dl).

Definition completed (dls : list Download) : list Download :=
  filter (λ dl, d_called dl = true) dls.

Definition hook_ok (dls : list Download)
    (c : bool * PyVal * Request * nat) : Prop :=
  isFailure c.1.1.2 = c.1.1.1 ∧
  ∃ k dl, dls !! k = Some dl ∧ d_called dl = true ∧
          d_request dl = c.1.2 ∧ d_info dl = c.2.

Record downloads_inv (s : Session) : Prop := {
  di_started :
    omap started_download (s_loud s) = download_call <$> s_downloads s;
  di_request : ∀ k dl, s_downloads s !! k = Some dl →
    d_info dl < length (s_infos s) ∧
    (∃ r, d_request dl = fetch_request r) ∧
    ∃ c, d_chain dl = Some c ∧ c_info c = d_info dl ∧
         c_fp c = request_fingerprint (d_request dl);
  di_pending : ∀ k dl, s_downloads s !! k = Some dl → d_called dl = false →
    ∃ info, s_infos s !! d_info dl = Some info ∧
            request_fingerprint (d_request dl) ∈ downloading info;
  di_inj : ∀ k k' dl dl',
    s_downloads s !! k = Some dl → s_downloads s !! k' = Some dl' →
    d_called dl = false → d_called dl' = false →
    d_info dl = d_info dl' →
    request_fingerprint (d_request dl) = request_fingerprint (d_request dl') →
    k = k';
  di_hooks : Forall (hook_ok (s_downloads s)) (omap post_fetch (s_loud s));
  di_count :
    length (omap post_fetch (s_loud s)) = length (completed (s_downloads s))
}.

Lemma omap_none {A B} (f : A → option B) l :
  Forall (λ x, f x = None) l → omap f l = [].
Proof. induction 1 as [|x l0 Hx _ IH]; [done|]. csimpl. by rewrite Hx. Qed.

Lemma omap_app_nil {A B} (f : A → option B) l l' :
  Forall (λ x, f x = None) l' → omap f (l ++ l') = omap f l.
Proof. intros Hl. by rewrite omap_app, (omap_none f l'), app_nil_r. Qed.

(** Bookkeeping that starts and completes no download. *)
Lemma downloads_inv_update s s' l :
  downloads_inv s →
  s_downloads s' = s_downloads s →
  s_loud s' = s_loud s ++ l →
  Forall (λ e, started_download e = None ∧ post_fetch e = None) l →
  length (s_infos s) ≤ length (s_infos s') →
  (∀ k dl info, s_downloads s !! k = Some dl → d_called dl = false →
     s_infos s !! d_info dl = Some info →
     request_fingerprint (d_request dl) ∈ downloading info →
     ∃ info', s_infos s' !! d_info dl = Some info' ∧
              request_fingerprint (d_request dl) ∈ downloading info') →
  downloads_inv s'.
Proof.
  intros [H1 H2 H3 H4 H5 H6] Hd Hl Hq Hlen Hkeep.
  assert (omap started_download (s_loud s') =
          omap started_download (s_loud s)) as E1.
  { rewrite Hl. apply omap_app_nil. eapply Forall_impl; [exact Hq|].
    by intros e [? _]. }
  assert (omap post_fetch (s_loud s') = omap post_fetch (s_loud s)) as E2.
  { rewrite Hl. apply omap_app_nil. eapply Forall_impl; [exact Hq|].
    by intros e [_ ?]. }
  constructor; rewrite ?E1, ?E2, ?Hd; try done.
  - intros k dl Hk. destruct (H2 k dl Hk) as (A & B & C).
    split; [lia|done].
  - intros k dl Hk Hc. destruct (H3 k dl Hk Hc) as (info & Hi & Hin).
    by eapply Hkeep.
Qed.

Lemma s_resolve_eq res fp i s info :
  s_infos s !! i = Some info → fp ∈ downloading info →
  s_resolve res fp i s =
  mkSession (s_spiderinfo s) (<[i := resolve_info res fp info]> (s_infos s))
    (s_downloads s) (s_next s)
    (s_loud s ++
     ((λ w, EvNotify i fp w (sanitize res)) <$>
        default [] (waiting info !! fp))).
Proof. intros Hi Hin. unfold s_resolve. by rewrite Hi, decide_True. Qed.

Lemma notify_not_download i fp wads o :
  Forall (λ e, started_download e = None ∧ post_fetch e = None)
    ((λ w, EvNotify i fp w o) <$> wads).
Proof. apply Forall_fmap, Forall_forall. by intros w _. Qed.


Lemma downloads_inv_process_request r i s :
  downloads_inv s → downloads_inv (s_process_request r i s).
Proof.
  intros Hinv. unfold s_process_request.
  destruct (s_infos s !! i) as [info|] eqn:Hi.
  2:{ eapply (downloads_inv_update s _ []); try done.
      - simpl. by rewrite app_nil_r.
      - intros k dl info' Hk Hc Hi' Hin. by exists info'. }
  assert (i < length (s_infos s)) as Hlt by by eapply lookup_lt_Some.
  destruct (downloaded info !! request_fingerprint r) as [cached|] eqn:Hc.
  { eapply (downloads_inv_update s _ [_]); try done.
    - by repeat constructor.
    - intros k dl info' Hk Hcd Hi' Hin. by exists info'. }
  destruct (decide (request_fingerprint r ∈ downloading info)) as [Hin|Hin].
  { eapply (downloads_inv_update s _ [_]); try done.
    - by repeat constructor.
    - simpl. by rewrite length_insert.
    - intros k dl info' Hk Hcd Hi' Hin'. simpl.
      destruct (decide (d_info dl = i)) as [Heq|Hne].
      + rewrite Heq in *. rewrite list_lookup_insert_eq by done.
        eexists. split; [done|]. simpl.
        by assert (info' = info) as -> by congruence.
      + rewrite list_lookup_insert_ne by done. by exists info'. }
  set (fp := request_fingerprint r) in *.
  set (info1 := downloading_add fp (waiting_append fp (s_next s) info)).
  assert (∀ k dl, s_downloads s !! k = Some dl → d_called dl = false →
            d_info dl = i → request_fingerprint (d_request dl) ≠ fp) as Hfresh.
  { intros k dl Hk Hcd Hdi Hfp.
    destruct (di_pending _ Hinv k dl Hk Hcd) as (info' & Hi' & Hin').
    rewrite Hdi, Hi in Hi'. injection Hi' as <-. by rewrite Hfp in Hin'. }
  destruct (as_result (media_to_download (detach r) info1)) eqn:Hv.
  - (* the download starts *)
    destruct Hinv as [H1 H2 H3 H4 H5 H6]. constructor; simpl.
    + rewrite omap_app, fmap_app, <- H1. simpl.
      rewrite (omap_app_nil _ _ [_; _]) by by repeat constructor. done.
    + intros k dl Hk. rewrite length_insert.
      apply lookup_app_Some in Hk as [Hk|[_ Hk]]; [by apply (H2 k)|].
      apply list_lookup_singleton_Some in Hk as [_ <-]. simpl.
      split; [done|]. split; [by exists r|]. eexists. split; [done|].
      simpl. by rewrite fingerprint_fetch_request.
    + intros k dl Hk Hcd.
      apply lookup_app_Some in Hk as [Hk|[_ Hk]].
      * destruct (H3 k dl Hk Hcd) as (info' & Hi' & Hin').
        destruct (decide (d_info dl = i)) as [Heq|Hne].
        -- rewrite Heq in *. rewrite list_lookup_insert_eq by done.
           eexists. split; [done|]. simpl.
           assert (info' = info) as -> by congruence.
           apply elem_of_union. by right.
        -- rewrite list_lookup_insert_ne by done. by exists info'.
      * apply list_lookup_singleton_Some in Hk as [_ <-]. simpl.
        rewrite list_lookup_insert_eq by done. eexists. split; [done|].
        simpl. rewrite fingerprint_fetch_request.
        apply elem_of_union. left. by apply elem_of_singleton.
    + intros k k' dl dl' Hk Hk' Hcd Hcd' Hdi Hfp.
      apply lookup_app_Some in Hk as [Hk|[Hge Hk]];
        apply lookup_app_Some in Hk' as [Hk'|[Hge' Hk']].
      * by eapply H4.
      * apply list_lookup_singleton_Some in Hk' as [_ <-]. simpl in *.
        rewrite fingerprint_fetch_request in Hfp.
        by destruct (Hfresh k dl Hk Hcd Hdi).
      * apply list_lookup_singleton_Some in Hk as [_ <-]. simpl in *.
        rewrite fingerprint_fetch_request in Hfp.
        by destruct (Hfresh k' dl' Hk' Hcd').
      * apply list_lookup_singleton_Some in Hk as [? _].
        apply list_lookup_singleton_Some in Hk' as [? _]. lia.
    + rewrite (omap_app_nil _ _ [_]) by by repeat constructor.
      rewrite (omap_app_nil _ _ [_; _]) by by repeat constructor.
      eapply Forall_impl; [exact H5|]. intros c (? & k & dl & Hk & ?).
      split; [done|]. exists k, dl. split; [|done].
      by apply lookup_app_l_Some.
    + rewrite (omap_app_nil _ _ [_]) by by repeat constructor.
      rewrite (omap_app_nil _ _ [_; _]) by by repeat constructor.
      unfold completed in *. rewrite filter_app, length_app.
      rewrite filter_cons_False by done. rewrite filter_nil. simpl. lia.
  - (* the hook gave the outcome *)
    rewrite (s_resolve_eq _ _ _ _ info1).
    2:{ simpl. by apply list_lookup_insert_eq. }
    2:{ simpl. set_solver. }
    eapply (downloads_inv_update s _ (_ :: _ :: _)); try done.
    + simpl. by rewrite <- app_assoc.
    + constructor; [done|]. constructor; [done|]. apply notify_not_download.
    + simpl. by rewrite !length_insert.
    + intros k dl info' Hk Hcd Hi' Hin'. simpl.
      rewrite list_insert_insert_eq.
      destruct (decide (d_info dl = i)) as [Heq|Hne].
      * rewrite Heq in *. rewrite list_lookup_insert_eq by done.
        eexists. split; [done|]. simpl.
        assert (info' = info) as -> by congruence.
        pose proof (Hfresh k dl Hk Hcd Heq). set_solver.
      * rewrite list_lookup_insert_ne by done. by exists info'.
  - rewrite (s_resolve_eq _ _ _ _ info1).
    2:{ simpl. by apply list_lookup_insert_eq. }
    2:{ simpl. set_solver. }
    eapply (downloads_inv_update s _ (_ :: _ :: _)); try done.
    + simpl. by rewrite <- app_assoc.
    + constructor; [done|]. constructor; [done|]. apply notify_not_download.
    + simpl. by rewrite !length_insert.
    + intros k dl info' Hk Hcd Hi' Hin'. simpl.
      rewrite list_insert_insert_eq.
      destruct (decide (d_info dl = i)) as [Heq|Hne].
      * rewrite Heq in *. rewrite list_lookup_insert_eq by done.
        eexists. split; [done|]. simpl.
        assert (info' = info) as -> by congruence.
        pose proof (Hfresh k dl Hk Hcd Heq). set_solver.
      * rewrite list_lookup_insert_ne by done. by exists info'.
Qed.


Lemma downloads_inv_process_requests rs i s :
  downloads_inv s → downloads_inv (s_process_requests rs i s).
Proof.
  unfold s_process_requests. revert s.
  induction rs as [|r rs IH]; intros s Hinv; simpl; [done|].
  by apply IH, downloads_inv_process_request.
Qed.

Lemma downloads_inv_process_item item s :
  downloads_inv s → downloads_inv (s_process_item item s).
Proof.
  intros Hinv. unfold s_process_item.
  destruct (s_spiderinfo s) as [i|]; [|done].
  destruct (s_infos s !! i) as [info|]; [|done].
  set (s1 := mkSession _ _ _ _ _).
  assert (downloads_inv s1) as Hinv1.
  { eapply (downloads_inv_update s _ [_]); try done.
    - by repeat constructor.
    - intros k dl info' Hk Hcd Hi' Hin. by exists info'. }
  destruct (get_media_requests item info) as [x|f]; [|done].
  by apply downloads_inv_process_requests.
Qed.

Lemma completed_insert dls k dl dl' :
  dls !! k = Some dl → d_called dl = false → d_called dl' = true →
  length (completed (<[k := dl']> dls)) = S (length (completed dls)).
Proof.
  intros Hk Hc Hc'. unfold completed.
  rewrite <- (take_drop_middle dls k dl Hk) at 2.
  rewrite insert_take_drop by by eapply lookup_lt_Some.
  rewrite !filter_app, !length_app.
  rewrite filter_cons_True by done. rewrite filter_cons_False by congruence.
  simpl. lia.
Qed.

Lemma downloads_inv_download_done k raw s :
  downloads_inv s → downloads_inv (s_download_done k raw s).
Proof.
  intros Hinv. unfold s_download_done.
  destruct (s_downloads s !! k) as [dl|] eqn:Hk; [|done].
  destruct (d_called dl) eqn:Hcd; [done|].
  destruct (di_request _ Hinv k dl Hk) as (Hlt & Hr & c & Hc & Hci & Hcf).
  destruct (di_pending _ Hinv k dl Hk Hcd) as (info & Hi & Hin).
  assert (k < length (s_downloads s)) as Hklt by by eapply lookup_lt_Some.
  rewrite Hi, Hc.
  set (dl' := mkDownload _ _ true _).
  set (e := if isFailure raw
            then EvMediaFailed raw (d_request dl) (d_info dl)
            else EvMediaDownloaded raw (d_request dl) (d_info dl)).
  set (res := as_result _).
  rewrite (s_resolve_eq _ _ _ _ info); [|by rewrite Hci|by rewrite Hcf].
  simpl. rewrite Hci, Hcf.
  set (fp := request_fingerprint (d_request dl)).
  destruct Hinv as [H1 H2 H3 H4 H5 H6].
  assert (post_fetch e = Some (isFailure raw, raw, d_request dl, d_info dl))
    as Hpe.
  { unfold e. by destruct (isFailure raw). }
  assert (started_download e = None) as Hse.
  { unfold e. by destruct (isFailure raw). }
  assert (∀ k0 dl0, <[k := dl']> (s_downloads s) !! k0 = Some dl0 →
            ∃ dl1, s_downloads s !! k0 = Some dl1 ∧
              d_request dl0 = d_request dl1 ∧ d_info dl0 = d_info dl1 ∧
              d_chain dl0 = d_chain dl1 ∧
              (d_called dl0 = false → k0 ≠ k ∧ dl0 = dl1)) as Hold.
  { intros k0 dl0 Hk0. destruct (decide (k0 = k)) as [->|Hne].
    - rewrite list_lookup_insert_eq in Hk0 by done. injection Hk0 as <-.
      exists dl. by repeat split.
    - rewrite list_lookup_insert_ne in Hk0 by done. by exists dl0. }
  constructor; simpl.
  - rewrite <- app_assoc, omap_app_nil.
    2:{ constructor; [done|]. eapply Forall_impl; [apply notify_not_download|].
        by intros ? [? _]. }
    rewrite H1. apply list_eq. intros k0. rewrite !list_lookup_fmap.
    destruct (decide (k0 = k)) as [->|Hne].
    + rewrite list_lookup_insert_eq by done. by rewrite Hk.
    + by rewrite list_lookup_insert_ne.
  - intros k0 dl0 Hk0. rewrite length_insert.
    destruct (Hold k0 dl0 Hk0) as (dl1 & Hk1 & -> & -> & -> & _).
    by apply (H2 k0).
  - intros k0 dl0 Hk0 Hcd0.
    destruct (Hold k0 dl0 Hk0) as (dl1 & Hk1 & _ & _ & _ & Hsame).
    destruct (Hsame Hcd0) as [Hne ->].
    destruct (H3 k0 dl1 Hk1 Hcd0) as (info1 & Hi1 & Hin1).
    destruct (decide (d_info dl1 = d_info dl)) as [Heq|Hni].
    + rewrite Heq in *. rewrite list_lookup_insert_eq by done.
      eexists. split; [done|]. simpl.
      assert (info1 = info) as -> by congruence.
      apply elem_of_difference. split; [done|].
      intros Hfp%elem_of_singleton. apply Hne.
      by apply (H4 k0 k dl1 dl).
    + rewrite list_lookup_insert_ne by done. by exists info1.
  - intros k0 k1 dl0 dl1 Hk0 Hk1 Hcd0 Hcd1.
    destruct (Hold k0 dl0 Hk0) as (dl0' & Hk0' & _ & _ & _ & Hs0).
    destruct (Hold k1 dl1 Hk1) as (dl1' & Hk1' & _ & _ & _ & Hs1).
    destruct (Hs0 Hcd0) as [_ ->]. destruct (Hs1 Hcd1) as [_ ->].
    by apply H4.
  - rewrite <- app_assoc, omap_app. csimpl. rewrite Hpe.
    rewrite (omap_none post_fetch (_ <$> _)).
    2:{ eapply Forall_impl; [apply notify_not_download|]. by intros ? [_ ?]. }
    apply Forall_app. split.
    + eapply Forall_impl; [exact H5|].
      intros c0 (? & k0 & dl0 & Hk0 & Hcd0 & ? & ?). split; [done|].
      destruct (decide (k0 = k)) as [->|Hne]; [congruence|].
      exists k0, dl0. by rewrite list_lookup_insert_ne.
    + constructor; [|done]. split; [done|]. exists k, dl'.
      by rewrite list_lookup_insert_eq.
  - rewrite <- app_assoc, omap_app. csimpl. rewrite Hpe.
    rewrite (omap_none post_fetch (_ <$> _)).
    2:{ eapply Forall_impl; [apply notify_not_download|]. by intros ? [_ ?]. }
    rewrite length_app. simpl.
    rewrite (completed_insert _ _ dl) by done. lia.
Qed.

Lemma downloads_inv_step s inp :
  downloads_inv s → downloads_inv (s_step s inp).
Proof.
  intros Hinv. destruct inp as [sp|item|k raw]; simpl.
  - eapply (downloads_inv_update s _ []); try done.
    + simpl. by rewrite app_nil_r.
    + simpl. rewrite length_app. lia.
    + intros k dl info Hk Hcd Hi Hin. exists info. split; [|done].
      by apply lookup_app_l_Some.
  - by apply downloads_inv_process_item.
  - by apply downloads_inv_download_done.
Qed.

Lemma downloads_inv_run inputs : downloads_inv (shadow (run inputs)).
Proof.
  rewrite shadow_run. unfold s_run.
  induction inputs as [|inp inputs IH] using rev_ind.
  - constructor; simpl; try done.
  - rewrite foldl_app. by apply downloads_inv_step.
Qed.

End Downloads.

(** ** Downloads, started and completed *)

Section DownloadFacts.
Context `{!MediaPipeline}.

Lemma started_download_loud l :
  omap started_download (loud l) = omap started_download l.
Proof. apply omap_loud. by intros []. Qed.

Lemma post_fetch_loud l : omap post_fetch (loud l) = omap post_fetch l.
Proof. apply omap_loud. by intros []. Qed.

Lemma completed_length dls : length (completed dls) ≤ length dls.
Proof. apply length_filter. Qed.


(** X6: after every history, [media_downloaded] and [media_failed] have
    been called once per completed download and never more often than the
    download collaborator; [media_failed] is only called with a failure and
    [media_downloaded] only with a value that is not one, and each call carries
    the request and the session of a download that was started and has
    completed. *)
Theorem post_fetch_dispatch inputs :
  let σ := run inputs in
  length (omap post_fetch (log σ)) = length (completed (downloads σ)) ∧
  length (completed (downloads σ)) ≤ length (omap started_download (log σ)) ∧
  ∀ failed raw r i,
    (if failed : bool then EvMediaFailed raw r i
     else EvMediaDownloaded raw r i) ∈ log σ →
    isFailure raw = failed ∧
    EvDownload (bool_decide (is_Some download_func)) r i ∈ log σ ∧
    ∃ k dl, downloads σ !! k = Some dl ∧ d_called dl = true ∧
            d_request dl = r ∧ d_info dl = i.
Proof.
  intros σ. pose proof (downloads_inv_run inputs) as Hinv. fold σ in Hinv.
  pose proof (di_started _ Hinv) as Hs.
  pose proof (di_count _ Hinv) as Hc.
  pose proof (di_hooks _ Hinv) as Hh. simpl in Hs, Hc, Hh.
  rewrite started_download_loud in Hs. rewrite post_fetch_loud in Hc, Hh.
  split; [done|]. split.
  { rewrite Hs, length_fmap. apply completed_length. }
  intros failed raw r i Hin.
  assert ((failed, raw, r, i) ∈ omap post_fetch (log σ)) as Hp.
  { apply list_elem_of_omap. eexists. split; [exact Hin|].
    by destruct failed. }
  rewrite Forall_forall in Hh.
  destruct (Hh _ Hp) as (Hf & k & dl & Hk & Hcd & Hr & Hi). simpl in *.
  split; [done|]. split; [|by exists k, dl].
  assert (download_call dl ∈ omap started_download (log σ)) as Hd.
  { rewrite Hs. apply list_elem_of_fmap. exists dl. split; [done|].
    by eapply list_elem_of_lookup_2. }
  apply list_elem_of_omap in Hd as (e & He & Hed).
  destruct e; try done. simpl in Hed. unfold download_call in Hed.
  injection Hed as -> -> ->. by rewrite <- Hr, <- Hi.
Qed.

(** The session-level view after a pending download has completed. *)
Lemma download_done_shadow inputs k dl raw :
  downloads (run inputs) !! k = Some dl → d_called dl = false →
  ∃ info,
    infos (run inputs) !! d_info dl = Some info ∧
    request_fingerprint (d_request dl) ∈ downloading info ∧
    let fp := request_fingerprint (d_request dl) in
    let handled :=
      as_result (if isFailure raw
                 then media_failed raw (d_request dl) info
                 else media_downloaded raw (d_request dl) info) in
    shadow (run (inputs ++ [InDownloadDone k raw])) =
    mkSession (spiderinfo (run inputs))
      (<[d_info dl := resolve_info handled fp info]> (infos (run inputs)))
      (<[k := mkDownload (d_request dl) (d_info dl) true (d_chain dl)]>
         (downloads (run inputs)))
      (length (deferreds (run inputs)))
      ((loud (log (run inputs)) ++
        [if isFailure raw then EvMediaFailed raw (d_request dl) (d_info dl)
         else EvMediaDownloaded raw (d_request dl) (d_info dl)]) ++
       ((λ w, EvNotify (d_info dl) fp w (sanitize handled)) <$>
          default [] (waiting info !! fp))).
Proof.
  intros Hk Hcd.
  pose proof (downloads_inv_run inputs) as Hinv.
  destruct (di_request _ Hinv k dl Hk) as (Hlt & _ & c & Hc & Hci & Hcf).
  destruct (di_pending _ Hinv k dl Hk Hcd) as (info & Hi & Hin).
  simpl in Hi, Hlt. exists info. split; [done|]. split; [done|].
  rewrite run_snoc. simpl. rewrite shadow_download_done.
  unfold s_download_done. simpl. rewrite Hk, Hcd, Hi, Hc.
  erewrite s_resolve_eq; [|by rewrite Hci|by rewrite Hcf].
  simpl. by rewrite Hci, Hcf.
Qed.

(** X7: when a pending download completes with [raw], the handler for it
    ([media_failed] for a failure, [media_downloaded] otherwise) is called
    with the request of the download and the state of its session, and what
    it returns (an exception as the failure built from it) is cached,
    sanitized, under the key of the request, in the session that started the
    download and in no other; the key leaves [downloading] and [waiting],
    the download is marked as completed, and the waiters of the key are
    notified in order with the cached outcome. *)
Theorem download_outcome inputs k dl raw :
  downloads (run inputs) !! k = Some dl → d_called dl = false →
  let σ := run inputs in
  let σ' := run (inputs ++ [InDownloadDone k raw]) in
  let fp := request_fingerprint (d_request dl) in
  ∃ info info',
    infos σ !! d_info dl = Some info ∧ fp ∈ downloading info ∧
    infos σ' = <[d_info dl := info']> (infos σ) ∧
    let handled :=
      as_result (if isFailure raw
                 then media_failed raw (d_request dl) info
                 else media_downloaded raw (d_request dl) info) in
    spider info' = spider info ∧
    downloaded info' = <[fp := sanitize handled]> (downloaded info) ∧
    waiting info' = delete fp (waiting info) ∧
    downloading info' = downloading info ∖ {[fp]} ∧
    downloads σ' =
      <[k := mkDownload (d_request dl) (d_info dl) true (d_chain dl)]>
        (downloads σ) ∧
    loud (log σ') =
      loud (log σ) ++
      (if isFailure raw then EvMediaFailed raw (d_request dl) (d_info dl)
       else EvMediaDownloaded raw (d_request dl) (d_info dl)) ::
      ((λ w, EvNotify (d_info dl) fp w (sanitize handled)) <$>
         default [] (waiting info !! fp)).
Proof.
  intros Hk Hcd σ σ' fp.
  destruct (download_done_shadow inputs k dl raw Hk Hcd)
    as (info & Hi & Hin & Hs).
  cbv zeta in Hs. fold σ σ' fp in Hs.
  exists info. eexists. split; [exact Hi|]. split; [exact Hin|].
  split; [exact (f_equal s_infos Hs)|]. simpl.
  split; [done|]. split; [done|]. split; [done|]. split; [done|].
  split; [exact (f_equal s_downloads Hs)|].
  pose proof (f_equal s_loud Hs) as Hl. simpl in Hl.
  by rewrite <- app_assoc in Hl.
Qed.

(** X14: for a pipeline that keeps the [media_downloaded] and
    [media_failed] of the base class, what a completed download caches under
    its key is the result of the download itself: the response as it is, a
    failure reduced to its exception value. *)
Theorem default_handlers_keep_result inputs k dl raw :
  media_downloaded = Base.media_downloaded →
  media_failed = Base.media_failed →
  downloads (run inputs) !! k = Some dl → d_called dl = false →
  let fp := request_fingerprint (d_request dl) in
  ∃ info',
    infos (run (inputs ++ [InDownloadDone k raw])) !! d_info dl = Some info' ∧
    downloaded info' !! fp = Some (sanitize raw) ∧
    (isFailure raw = false → downloaded info' !! fp = Some raw) ∧
    (∀ f, raw = VFailure f →
       downloaded info' !! fp =
         Some (VFailure (mkFailure (value f) [] None None))).
Proof.
  intros Hd Hf Hk Hcd fp.
  destruct (download_done_shadow inputs k dl raw Hk Hcd)
    as (info & Hi & Hin & Hs).
  cbv zeta in Hs. fold fp in Hs.
  assert (as_result (if isFailure raw
                     then media_failed raw (d_request dl) info
                     else media_downloaded raw (d_request dl) info) = raw)
    as Hraw.
  { rewrite Hd, Hf. by destruct (isFailure raw). }
  rewrite Hraw in Hs. apply (f_equal s_infos) in Hs. simpl in Hs.
  eexists. split.
  { rewrite Hs. apply list_lookup_insert_eq. by eapply lookup_lt_Some. }
  simpl. rewrite lookup_insert_eq. split; [done|]. split.
  - intros Hnf. by destruct raw.
  - by intros f ->.
Qed.

End DownloadFacts.

(** The spiders a history opens, in order. *)
Definition opened_spiders (inputs : list Input) : list string :=
  omap (λ inp, match inp with InOpenSpider sp => Some sp | _ => None end)
    inputs.

Section Sessions.
Context `{!MediaPipeline}.

(** ** Waiters of keys in flight *)

Definition waited (info : SpiderInfo) : Prop :=
  ∀ fp, fp ∈ downloading info →
        ∃ wads, waiting info !! fp = Some wads ∧ wads ≠ [].

Lemma waited_append fp w info :
  waited info → waited (waiting_append fp w info).
Proof.
  intros Hw fp' Hin. simpl in *. destruct (decide (fp' = fp)) as [->|Hne].
  - rewrite lookup_insert_eq. eexists. split; [done|].
    by destruct (default [] _).
  - rewrite lookup_insert_ne by done. by apply Hw.
Qed.

Lemma waited_start fp w info :
  waited info → waited (downloading_add fp (waiting_append fp w info)).
Proof.
  intros Hw fp' Hin. simpl in *. destruct (decide (fp' = fp)) as [->|Hne].
  - rewrite lookup_insert_eq. eexists. split; [done|].
    by destruct (default [] _).
  - rewrite lookup_insert_ne by done. apply Hw.
    apply elem_of_union in Hin as [Hin%elem_of_singleton|Hin]; done.
Qed.

Lemma waited_resolve res fp info :
  waited info → waited (resolve_info res fp info).
Proof.
  intros Hw fp' [Hin Hne%not_elem_of_singleton]%elem_of_difference. simpl.
  rewrite lookup_delete_ne by done. by apply Hw.
Qed.

Lemma waited_step s s' :
  Forall waited (s_infos s) → sstep s s' → Forall waited (s_infos s').
Proof.
  intros Hall Hstep.
  inversion Hstep as
    [s0 sp|s0 e He|s0|s0 i info fp cached Hi Hc|s0 i info fp Hi Hc Hin
    |s0 i info request Hi Hc Hin|s0 i info request Hi Hc Hin|s0 res fp i
    |s0 k dl Hk Hcd]; subst; simpl; try done.
  - apply Forall_app. split; [done|]. constructor; [|done].
    intros fp Hin. simpl in Hin. by apply elem_of_empty in Hin.
  - apply Forall_insert; [done|]. apply waited_append.
    eapply Forall_lookup_1; eauto.
  - apply Forall_insert; [done|]. apply waited_start.
    eapply Forall_lookup_1; eauto.
  - apply Forall_insert; [done|]. apply waited_start.
    eapply Forall_lookup_1; eauto.
  - unfold s_resolve. destruct (s_infos s !! i) as [info|] eqn:Hi; [|done].
    destruct (decide _); [|done]. simpl.
    apply Forall_insert; [done|]. apply waited_resolve.
    eapply Forall_lookup_1; eauto.
Qed.

Lemma waited_run inputs : Forall waited (infos (run inputs)).
Proof.
  apply (session_invariant (λ s, Forall waited (s_infos s))); [done|].
  apply waited_step.
Qed.

(** X11: after every history, in every session, the keys in flight are
    exactly the keys that have a list of waiters, and that list is not
    empty.  So [_cache_result_and_execute_waiters] raises nothing for a key
    in flight and leaves the session state resolved; for a key that is not
    in flight it raises [KeyError] and changes nothing. *)
Theorem resolve_in_flight inputs i info fp res :
  infos (run inputs) !! i = Some info →
  let σ := run inputs in
  (fp ∈ downloading info ↔ is_Some (waiting info !! fp)) ∧
  if decide (fp ∈ downloading info) then
    ∃ wads,
      waiting info !! fp = Some wads ∧ wads ≠ [] ∧
      (_cache_result_and_execute_waiters res fp i σ).1 = None ∧
      infos (_cache_result_and_execute_waiters res fp i σ).2 =
        <[i := resolve_info res fp info]> (infos σ)
  else _cache_result_and_execute_waiters res fp i σ = (Some KeyError, σ).
Proof.
  intros Hi σ.
  pose proof (Forall_lookup_1 _ _ _ _ (waited_run inputs) Hi) as Hw.
  pose proof (Forall_lookup_1 _ _ _ _ (infos_inv_run inputs) Hi) as [_ Hq].
  split.
  { split; [|by apply Hq]. intros Hin.
    destruct (Hw fp Hin) as (wads & -> & _). by eexists. }
  destruct (decide (fp ∈ downloading info)) as [Hin|Hin].
  - destruct (Hw fp Hin) as (wads & Hwads & Hne). exists wads.
    split; [done|]. split; [done|]. split.
    + unfold _cache_result_and_execute_waiters. unfold σ. rewrite Hi.
      rewrite decide_True by done. simpl. by rewrite Hwads.
    + rewrite cache_infos. unfold σ. rewrite Hi. by rewrite decide_True.
  - unfold _cache_result_and_execute_waiters. unfold σ. rewrite Hi.
    by rewrite decide_False.
Qed.

(** ** Sessions *)

(** From [s] to [s'] only the session state [i] changed, and it kept its
    spider. *)
Definition only_session (i : nat) (s s' : Session) : Prop :=
  s_spiderinfo s' = s_spiderinfo s ∧
  spider <$> s_infos s' = spider <$> s_infos s ∧
  ∀ i', i' ≠ i → s_infos s' !! i' = s_infos s !! i'.

Lemma only_session_refl i s : only_session i s s.
Proof. done. Qed.

Lemma only_session_trans i s1 s2 s3 :
  only_session i s1 s2 → only_session i s2 s3 → only_session i s1 s3.
Proof.
  intros (A1 & A2 & A3) (B1 & B2 & B3). repeat split; try congruence.
  intros i' Hne. rewrite B3, A3; done.
Qed.

Lemma only_session_insert i s s' info info' :
  s_spiderinfo s' = s_spiderinfo s →
  s_infos s !! i = Some info → spider info' = spider info →
  s_infos s' = <[i := info']> (s_infos s) →
  only_session i s s'.
Proof.
  intros Hsp Hi Hs Hinf. split; [done|]. rewrite Hinf. split.
  - rewrite list_fmap_insert, Hs. apply list_insert_id.
    by rewrite list_lookup_fmap, Hi.
  - intros i' Hne. by rewrite list_lookup_insert_ne.
Qed.

Lemma only_session_resolve res fp i s :
  only_session i s (s_resolve res fp i s).
Proof.
  unfold s_resolve. destruct (s_infos s !! i) as [info|] eqn:Hi; [|done].
  destruct (decide _); [|done].
  by apply (only_session_insert i s _ info (resolve_info res fp info)).
Qed.

Lemma only_session_process_request r i s :
  only_session i s (s_process_request r i s).
Proof.
  unfold s_process_request.
  destruct (s_infos s !! i) as [info|] eqn:Hi; [|done].
  destruct (downloaded info !! _); [done|].
  destruct (decide _).
  { by apply (only_session_insert i s _ info
                (waiting_append (request_fingerprint r) (s_next s) info)). }
  set (s1 := mkSession _ (<[i := _]> _) _ _ _).
  assert (only_session i s s1) as H1.
  { by apply (only_session_insert i s _ info
                (downloading_add (request_fingerprint r)
                   (waiting_append (request_fingerprint r) (s_next s)
                      info))). }
  destruct (as_result _).
  - destruct H1 as (A1 & A2 & A3). by repeat split.
  - eapply only_session_trans; [exact H1|apply only_session_resolve].
  - eapply only_session_trans; [exact H1|apply only_session_resolve].
Qed.

Lemma only_session_process_requests rs i s :
  only_session i s (s_process_requests rs i s).
Proof.
  unfold s_process_requests. revert s.
  induction rs as [|r rs IH]; intros s; simpl; [done|].
  eapply only_session_trans; [apply only_session_process_request|apply IH].
Qed.

Lemma only_session_process_item item i s :
  s_spiderinfo s = Some i → only_session i s (s_process_item item s).
Proof.
  intros Hsp. unfold s_process_item. rewrite Hsp.
  destruct (s_infos s !! i) as [info|]; [|done].
  set (s1 := mkSession _ _ _ _ _).
  assert (only_session i s s1) as H1 by done.
  destruct (get_media_requests item info); [|done].
  eapply only_session_trans; [exact H1|apply only_session_process_requests].
Qed.

Lemma only_session_download_done k raw s :
  ∃ i, only_session i s (s_download_done k raw s).
Proof.
  unfold s_download_done.
  destruct (s_downloads s !! k) as [dl|]; [|by exists 0].
  destruct (d_called dl); [by exists 0|].
  destruct (s_infos s !! d_info dl) as [info|]; [|by exists 0].
  destruct (d_chain dl) as [c|]; [|by exists 0]. exists (c_info c).
  set (s1 := mkSession _ _ _ _ _).
  assert (only_session (c_info c) s s1) as H1 by done.
  eapply only_session_trans; [exact H1|apply only_session_resolve].
Qed.

Definition current (names : list string) : option nat :=
  match names with [] => None | _ => Some (length names - 1) end.

Lemma sessions_run inputs :
  spider <$> infos (run inputs) = opened_spiders inputs ∧
  spiderinfo (run inputs) = current (opened_spiders inputs).
Proof.
  change (spider <$> s_infos (shadow (run inputs)) = opened_spiders inputs ∧
          s_spiderinfo (shadow (run inputs)) = current (opened_spiders inputs)).
  rewrite shadow_run. unfold s_run.
  induction inputs as [|inp inputs IH] using rev_ind; [done|].
  rewrite foldl_app. simpl. unfold opened_spiders in *. rewrite omap_app.
  destruct IH as [IH1 IH2]. set (s := foldl s_step _ inputs) in *.
  destruct inp as [sp|item|k raw]; simpl.
  - assert (length (s_infos s) = length (opened_spiders inputs)) as Hlen.
    { unfold opened_spiders. by rewrite <- IH1, length_fmap. }
    unfold opened_spiders in Hlen. rewrite fmap_app, IH1. split; [done|].
    unfold current. rewrite Hlen.
    destruct (omap _ inputs ++ [sp]) eqn:E.
    { by destruct (omap _ inputs). }
    rewrite <- E, length_app. simpl. f_equal. lia.
  - rewrite app_nil_r. destruct (s_spiderinfo s) as [i|] eqn:Hsp.
    + destruct (only_session_process_item item i s Hsp) as (A1 & A2 & _).
      by rewrite A1, A2, Hsp.
    + unfold s_process_item. rewrite Hsp. simpl. by rewrite Hsp.
  - rewrite app_nil_r.
    destruct (only_session_download_done k raw s) as (i & A1 & A2 & _).
    by rewrite A1, A2.
Qed.

(** X8: after every history the session states are, in order, those of
    the spiders opened so far, each still with its spider.  Before any
    [open_spider], [process_item] raises [AttributeError] and changes
    nothing.  Afterwards it works in the state of the spider opened last: it
    leaves the current session as it is, changes no other session state and
    no spider, and raises what [get_media_requests] raises or returns a
    deferred. *)
Theorem process_item_session inputs item :
  let σ := run inputs in
  spider <$> infos σ = opened_spiders inputs ∧
  (opened_spiders inputs = [] →
   process_item item σ = (PRaised AttributeError, σ)) ∧
  ∀ sp, last (opened_spiders inputs) = Some sp →
    ∃ i info,
      spiderinfo σ = Some i ∧ S i = length (infos σ) ∧
      infos σ !! i = Some info ∧ spider info = sp ∧
      let σ' := (process_item item σ).2 in
      spiderinfo σ' = Some i ∧
      spider <$> infos σ' = spider <$> infos σ ∧
      (∀ i', i' ≠ i → infos σ' !! i' = infos σ !! i') ∧
      match get_media_requests item info with
      | GRaises f => (process_item item σ).1 = PRaised f
      | GReturns _ => ∃ j, (process_item item σ).1 = PDeferred j
      end.
Proof.
  intros σ. destruct (sessions_run inputs) as [H1 H2]. fold σ in H1, H2.
  split; [done|]. split.
  { intros Hnil. rewrite Hnil in H2. unfold process_item. by rewrite H2. }
  intros sp Hlast.
  assert (opened_spiders inputs ≠ []) as Hne
    by by intros E; rewrite E in Hlast.
  set (i := length (opened_spiders inputs) - 1).
  assert (spiderinfo σ = Some i) as Hsp.
  { rewrite H2. unfold current. by destruct (opened_spiders inputs). }
  assert (S i = length (opened_spiders inputs)) as Hlen.
  { unfold i. destruct (opened_spiders inputs); [done|]. simpl. lia. }
  assert (opened_spiders inputs !! i = Some sp) as Hsp'.
  { rewrite last_lookup in Hlast.
    by replace i with (pred (length (opened_spiders inputs))) by lia. }
  rewrite <- H1, list_lookup_fmap in Hsp'.
  destruct (infos σ !! i) as [info|] eqn:Hi; [|done].
  injection Hsp' as Hspider.
  exists i, info. split; [done|]. split.
  { by rewrite Hlen, <- H1, length_fmap. }
  split; [done|]. split; [done|].
  pose proof (only_session_process_item item i (shadow σ) Hsp)
    as (A1 & A2 & A3).
  rewrite <- shadow_process_item in A1, A2, A3. simpl in A1, A2, A3.
  split; [congruence|]. split; [done|]. split; [done|].
  unfold process_item. rewrite Hsp, Hi.
  destruct (get_media_requests item info) as [x|f]; [|done].
  destruct (process_requests _ _ _) as [dlist σ1].
  destruct (DeferredList_new dlist σ1) as [j σ2]. by exists j.
Qed.

End Sessions.

(** ** The base class *)

Section BaseClass.
Variable fingerprint : string → string → string → string.
Variable user : string → PyVal → HookRet.
Variable dl_func : option string.
Variable allow_redirects : bool.

#[local] Instance base_class : MediaPipeline :=
  MediaPipeline_base fingerprint user dl_func allow_redirects.

(** A [DeferredList] over no deferred, fired when it was made. *)
Definition fired_empty : DeferredList := mkDeferredList [] 0 true None.

(** The only events of the base class: its hooks for an item. *)
Definition passed_through (e : Event) : Prop :=
  match e with
  | EvGetMediaRequests _ _ | EvItemCompleted _ [] _ _ => True
  | _ => False
  end.

Record base_inv (σ : World) : Prop := {
  bi_deferreds : deferreds σ = [];
  bi_downloads : downloads σ = [];
  bi_infos : Forall (λ info, info = SpiderInfo_init (spider info)) (infos σ);
  bi_dlists : Forall (λ dl, dl = fired_empty) (dlists σ);
  bi_log : Forall passed_through (log σ);
  bi_current : ∀ i, spiderinfo σ = Some i → i < length (infos σ)
}.

Lemma fresh_infos (l : list SpiderInfo) :
  Forall (λ info, info = SpiderInfo_init (spider info)) l →
  l = SpiderInfo_init <$> (spider <$> l).
Proof.
  induction 1 as [|info l Hi _ IH]; [done|]. csimpl. by rewrite <- Hi, <- IH.
Qed.

Lemma base_process_item item i σ :
  spiderinfo σ = Some i → i < length (infos σ) →
  process_item item σ =
  (PDeferred (length (dlists σ)),
   mkWorld (Some i) (infos σ) (deferreds σ) (dlists σ ++ [fired_empty])
     (downloads σ)
     (log σ ++ [EvGetMediaRequests item i;
               EvItemCompleted (length (dlists σ)) [] item i])).
Proof.
  intros Hsp Hlt. apply lookup_lt_is_Some_2 in Hlt as [info Hi].
  unfold process_item. rewrite Hsp, Hi. simpl.
  unfold DeferredList_new, DeferredList_callback. simpl.
  rewrite lookup_snoc. simpl. rewrite insert_snoc.
  unfold add_item_completed. simpl. rewrite lookup_snoc. simpl.
  unfold run_item_completed. simpl. rewrite Hi. simpl.
  unfold emit. simpl. by rewrite <- app_assoc, Hsp.
Qed.

Lemma base_inv_step σ inp : base_inv σ → base_inv (step σ inp).
Proof.
  intros [H1 H2 H3 H4 H5 H6]. destruct inp as [sp|item|k raw]; simpl.
  - constructor; simpl; try done.
    + apply Forall_app. split; [done|]. by constructor.
    + intros i [= <-]. rewrite length_app. simpl. lia.
  - destruct (spiderinfo σ) as [i|] eqn:Hsp.
    2:{ unfold process_item. rewrite Hsp. simpl. constructor; try done.
        by rewrite Hsp. }
    rewrite (base_process_item item i σ Hsp (H6 i eq_refl)).
    constructor; simpl; try done.
    + apply Forall_app. split; [done|]. by constructor.
    + apply Forall_app. split; [done|]. by repeat constructor.
  - unfold download_done. by rewrite H2.
Qed.

Lemma base_inv_run inputs : base_inv (run inputs).
Proof.
  apply run_invariant; [by constructor|]. intros. by apply base_inv_step.
Qed.

(** X10: the base class, whose [get_media_requests] returns [None],
    passes every item through.  After every history there is no deferred
    and no download, every session state is as [open_spider] made it, every
    [DeferredList] is empty and has fired, and the log holds nothing but
    calls of [get_media_requests] and of [item_completed] with an empty
    result list.  Once a spider is open, [process_item] returns a new
    deferred that has fired already, having called [item_completed] with the
    empty list and logged no error. *)
Theorem base_class_passes_items inputs item :
  let σ := run inputs in
  deferreds σ = [] ∧ downloads σ = [] ∧
  infos σ = SpiderInfo_init <$> opened_spiders inputs ∧
  Forall (λ dl, dl = fired_empty) (dlists σ) ∧
  Forall passed_through (log σ) ∧
  ∀ i, spiderinfo σ = Some i →
    process_item item σ =
    (PDeferred (length (dlists σ)),
     mkWorld (Some i) (infos σ) [] (dlists σ ++ [fired_empty]) []
       (log σ ++ [EvGetMediaRequests item i;
                 EvItemCompleted (length (dlists σ)) [] item i])).
Proof.
  intros σ. destruct (base_inv_run inputs) as [H1 H2 H3 H4 H5 H6].
  fold σ in H1, H2, H3, H4, H5, H6.
  split; [done|]. split; [done|]. split.
  { destruct (sessions_run inputs) as [<- _]. by apply fresh_infos. }
  split; [done|]. split; [done|]. intros i Hsp.
  rewrite (base_process_item item i σ Hsp (H6 i Hsp)). by rewrite H1, H2.
Qed.

End BaseClass.

(** ** What [_process_request] leaves and [process_item] submits *)

Section Submissions.
Context `{!MediaPipeline}.

(** X12: the request as [_process_request] leaves it has the meta of the
    submitted request, except when the call starts a download through the
    crawler's engine (key neither cached nor in flight, [media_to_download]
    returned [None], no [download_func]): then it carries in addition the
    status flag of [_modify_media_request]. *)
Theorem request_after_process_request request i σ info :
  infos σ !! i = Some info →
  let fp := request_fingerprint request in
  let request' := (_process_request request i σ).1.1 in
  (downloaded info !! fp = None → fp ∉ downloading info →
   hook_result request info σ = VNone → download_func = None →
   request' = _modify_media_request (detach request)) ∧
  (is_Some (downloaded info !! fp) ∨ fp ∈ downloading info ∨
   hook_result request info σ ≠ VNone ∨ is_Some download_func →
   request' = detach request).
Proof.
  intros Hi fp request'. subst request'.
  destruct (downloaded info !! fp) as [cached|] eqn:Hc.
  { erewrite process_request_cached by done. by split. }
  destruct (decide (fp ∈ downloading info)) as [Hin|Hin].
  { erewrite process_request_inflight by done. by split. }
  erewrite process_request_new by done.
  destruct (hook_result request info σ) eqn:Hh; simpl.
  - unfold fetch_request. split.
    + by intros _ _ _ ->.
    + intros [[? ?]|[?|[?|[f Hf]]]]; try done. by rewrite Hf.
  - by split.
  - by split.
Qed.

(** The call of [_process_request] an event records: the session and the
    key. *)
Definition submission (e : Event) : option (nat * string) :=
  match e with
  | EvWaiting i fp _ | EvCached i fp _ => Some (i, fp)
  | _ => None
  end.

Lemma submission_loud l : omap submission (loud l) = omap submission l.
Proof. apply omap_loud. by intros []. Qed.

Lemma submission_notify i fp o wads :
  omap submission ((λ w, EvNotify i fp w o) <$> wads) = [].
Proof. apply omap_none, Forall_fmap, Forall_forall. by intros w _. Qed.

Lemma submission_process_request r i s :
  is_Some (s_infos s !! i) →
  omap submission (s_loud (s_process_request r i s)) =
    omap submission (s_loud s) ++ [(i, request_fingerprint r)] ∧
  is_Some (s_infos (s_process_request r i s) !! i).
Proof.
  intros [info Hi].
  assert (i < length (s_infos s)) as Hlt by by eapply lookup_lt_Some.
  split.
  2:{ destruct (only_session_process_request r i s) as (_ & Hsp & _).
      apply lookup_lt_is_Some_2.
      apply (f_equal length) in Hsp. rewrite !length_fmap in Hsp. lia. }
  unfold s_process_request. rewrite Hi.
  destruct (downloaded info !! _).
  { simpl. by rewrite omap_app. }
  destruct (decide _).
  { simpl. by rewrite omap_app. }
  destruct (as_result _); simpl.
  - rewrite !omap_app. csimpl. by rewrite app_nil_r.
  - erewrite s_resolve_eq;
      [|by apply list_lookup_insert_eq
       |simpl; apply elem_of_union; left; by apply elem_of_singleton].
    simpl. rewrite !omap_app, submission_notify. csimpl.
    by rewrite app_nil_r.
  - erewrite s_resolve_eq;
      [|by apply list_lookup_insert_eq
       |simpl; apply elem_of_union; left; by apply elem_of_singleton].
    simpl. rewrite !omap_app, submission_notify. csimpl.
    by rewrite app_nil_r.
Qed.

Lemma submission_process_requests rs i s :
  is_Some (s_infos s !! i) →
  omap submission (s_loud (s_process_requests rs i s)) =
    omap submission (s_loud s) ++ ((λ r, (i, request_fingerprint r)) <$> rs).
Proof.
  unfold s_process_requests. revert s.
  induction rs as [|r rs IH]; intros s Hi; simpl; [by rewrite app_nil_r|].
  destruct (submission_process_request r i s Hi) as [H1 H2].
  rewrite IH, H1 by done. by rewrite <- app_assoc.
Qed.

(** X13: [process_item] submits every request that [get_media_requests]
    returned, once and in the order given, in the current session: the keys
    of the calls of [_process_request] it adds to the log are the
    fingerprints of those requests, in order. *)
Theorem submission_order item i info x σ :
  spiderinfo σ = Some i → infos σ !! i = Some info →
  get_media_requests item info = GReturns x →
  omap submission (log (process_item item σ).2) =
    omap submission (log σ) ++
    ((λ r, (i, request_fingerprint r)) <$> arg_to_iter x).
Proof.
  intros Hsp Hi Hget.
  rewrite <- (submission_loud (log (process_item item σ).2)).
  change (loud (log (process_item item σ).2))
    with (s_loud (shadow (process_item item σ).2)).
  rewrite shadow_process_item. unfold s_process_item. simpl.
  rewrite Hsp, Hi, Hget.
  rewrite submission_process_requests by by eexists.
  simpl. rewrite omap_app, submission_loud. csimpl. by rewrite app_nil_r.
Qed.

End Submissions.

(** ** Queued waiters *)

Section Waiters.
Context `{!MediaPipeline}.


End Waiters.

(** * The properties above on concrete pipelines *)

Module Coverage.

#[local] Existing Instance Example.pipe.

(** Settings that allow redirects for the class [MyPipe] only. *)
Definition my_settings : Settings :=
  mkSettings true
    (λ name, String.eqb name "MYPIPE_MEDIA_ALLOW_REDIRECTS")
    (λ name default,
       inr (String.eqb name "MYPIPE_MEDIA_ALLOW_REDIRECTS" || default)).


(** The base class, built from a crawler; [Settings()] are the settings
    above. *)
Definition base_class_object : Class := mkClass "MediaPipeline" None.
Definition crawler : Crawler := mkCrawler "crawler" my_settings.


(** Item [I1] has been submitted: [A] and [B] are being downloaded. *)
Definition started : list Input :=
  [InOpenSpider "spider"; InProcessItem "I1"].

(** The request for [A] as the crawler's engine gets it. *)
Definition request_A : Request :=
  mkRequest "A" "GET" "" None None None true.

Definition download_A : Download :=
  mkDownload request_A 0 false (Some (mkContinuation "GET A" 0 0 1)).


Lemma post_fetch_dispatch_witness :
  EvMediaDownloaded (VObj "a") request_A 0 ∈
    log (run (started ++ [InDownloadDone 0 (VObj "a")])) ∧
  EvDownload false request_A 0 ∈
    log (run (started ++ [InDownloadDone 0 (VObj "a")])) ∧
  ∃ k dl,
    downloads (run (started ++ [InDownloadDone 0 (VObj "a")])) !! k = Some dl ∧
    d_called dl = true ∧ d_request dl = request_A ∧ d_info dl = 0.
Proof.
  assert (EvMediaDownloaded (VObj "a") request_A 0 ∈
            log (run (started ++ [InDownloadDone 0 (VObj "a")]))) as H1.
  { apply (list_elem_of_lookup_2 _ 7). vm_compute. reflexivity. }
  split; [exact H1|].
  pose proof (@post_fetch_dispatch Example.pipe
                (started ++ [InDownloadDone 0 (VObj "a")])) as (_ & _ & H).
  destruct (H false (VObj "a") request_A 0 H1) as (_ & Hd & Hk).
  split; [exact Hd|exact Hk].
Defined.

Lemma download_outcome_witness :
  downloads (run started) !! 0 = Some download_A ∧
  d_called download_A = false ∧
  ∃ info',
    infos (run (started ++ [InDownloadDone 0 (VObj "a")])) !! 0 = Some info' ∧
    downloaded info' !! "GET A" = Some (VObj "a") ∧
    waiting info' !! "GET A" = None.
Proof.
  assert (downloads (run started) !! 0 = Some download_A) as H1
    by (vm_compute; reflexivity).
  split; [exact H1|]. split; [reflexivity|].
  destruct (@download_outcome Example.pipe started 0 download_A (VObj "a")
              H1 eq_refl)
    as (info & info' & Hi & _ & Hinfos & _ & Hdown & Hwait & _).
  exists info'. split.
  { rewrite Hinfos. apply list_lookup_insert_eq.
    by eapply lookup_lt_Some. }
  split.
  - rewrite Hdown. apply lookup_insert_eq.
  - rewrite Hwait. apply lookup_delete_eq.
Defined.

Lemma default_handlers_keep_result_witness :
  downloads (run started) !! 0 = Some download_A ∧
  d_called download_A = false ∧
  ∃ info',
    infos (run (started ++ [InDownloadDone 0 (VFailure Example.boom)])) !! 0 =
      Some info' ∧
    downloaded info' !! "GET A" =
      Some (VFailure (mkFailure "TimeoutError" [] None None)).
Proof.
  assert (downloads (run started) !! 0 = Some download_A) as H1
    by (vm_compute; reflexivity).
  split; [exact H1|]. split; [reflexivity|].
  destruct (@default_handlers_keep_result Example.pipe started 0 download_A
              (VFailure Example.boom) eq_refl eq_refl H1 eq_refl)
    as (info' & Hi & _ & _ & Hf).
  exists info'. split; [exact Hi|]. exact (Hf Example.boom eq_refl).
Defined.

Lemma process_item_session_witness :
  process_item "I1" (run []) = (PRaised AttributeError, run []) ∧
  ∃ i info,
    spiderinfo (run [InOpenSpider "spider"]) = Some i ∧
    infos (run [InOpenSpider "spider"]) !! i = Some info ∧
    spider info = "spider".
Proof.
  pose proof (@process_item_session Example.pipe [] "I1") as (_ & H1 & _).
  pose proof (@process_item_session Example.pipe [InOpenSpider "spider"] "I1")
    as (_ & _ & H2).
  cbv zeta in H1, H2. split; [exact (H1 eq_refl)|].
  destruct (H2 "spider" eq_refl) as (i & info & A & _ & B & C & _).
  exists i, info. split; [exact A|]. split; [exact B|exact C].
Defined.

(** The base class with the collaborators of the example. *)
Definition plain : MediaPipeline :=
  base_class Example.fingerprint Example.user None false.

Lemma base_class_passes_items_witness :
  spiderinfo (@run plain [InOpenSpider "spider"]) = Some 0 ∧
  @process_item plain "I1" (@run plain [InOpenSpider "spider"]) =
    (PDeferred 0,
     mkWorld (Some 0) [SpiderInfo_init "spider"] [] [fired_empty] []
       [EvGetMediaRequests "I1" 0; EvItemCompleted 0 [] "I1" 0]).
Proof.
  assert (spiderinfo (@run plain [InOpenSpider "spider"]) = Some 0) as H1
    by reflexivity.
  split; [exact H1|].
  pose proof (base_class_passes_items Example.fingerprint Example.user None
                false [InOpenSpider "spider"] "I1")
    as (_ & _ & _ & _ & _ & H).
  exact (H 0 H1).
Defined.

Lemma resolve_in_flight_witness :
  infos Example.in_flight !! 0 = Some Example.in_flight_info ∧
  "GET B" ∈ downloading Example.in_flight_info ∧
  (_cache_result_and_execute_waiters (VObj "b") "GET B" 0
     Example.in_flight).1 = None.
Proof.
  assert (infos Example.in_flight !! 0 = Some Example.in_flight_info) as H1
    by (vm_compute; reflexivity).
  assert ("GET B" ∈ downloading Example.in_flight_info) as H2
    by (apply (bool_decide_unpack _); vm_compute; exact I).
  split; [exact H1|]. split; [exact H2|].
  pose proof (@resolve_in_flight Example.pipe
                [InOpenSpider "spider"; InProcessItem "I1";
                 InProcessItem "I2"]
                0 Example.in_flight_info "GET B" (VObj "b") H1) as [_ H].
  cbv zeta in H.
  destruct (decide ("GET B" ∈ downloading Example.in_flight_info))
    as [_|Hn]; [|destruct (Hn H2)].
  destruct H as (wads & _ & _ & Hr & _). exact Hr.
Defined.

Lemma request_after_process_request_witness :
  infos Example.opened !! 0 = Some (SpiderInfo_init "spider") ∧
  (_process_request (Example.get "A") 0 Example.opened).1.1 = request_A.
Proof.
  assert (infos Example.opened !! 0 = Some (SpiderInfo_init "spider")) as H1
    by reflexivity.
  split; [exact H1|].
  pose proof (@request_after_process_request Example.pipe (Example.get "A") 0
                Example.opened _ H1) as [H _].
  cbv zeta in H. refine (eq_trans (H _ _ _ _) _).
  - vm_compute. reflexivity.
  - apply not_elem_of_empty.
  - vm_compute. reflexivity.
  - reflexivity.
  - reflexivity.
Defined.

Lemma submission_order_witness :
  spiderinfo Example.opened = Some 0 ∧
  infos Example.opened !! 0 = Some (SpiderInfo_init "spider") ∧
  omap submission (log (process_item "I1" Example.opened).2) =
    [(0, "GET A"); (0, "GET B")].
Proof.
  assert (spiderinfo Example.opened = Some 0) as H1 by reflexivity.
  assert (infos Example.opened !! 0 = Some (SpiderInfo_init "spider")) as H2
    by reflexivity.
  split; [exact H1|]. split; [exact H2|].
  exact (@submission_order Example.pipe "I1" 0 (SpiderInfo_init "spider")
           (MRMany [Example.get "A"; Example.get "B"]) Example.opened
           H1 H2 eq_refl).
Defined.


End Coverage.
